(** * Shader repair pipeline of the Aurora Borealis Bliss screensaver

    A shallow embedding of the text-repair core of [source/main.go]
    (container loading, pass selection, the JSON string-literal escaper,
    the comment stripper, the variable-type inferencer, the repair passes
    of [fixShaderCode]) together with the properties the specification
    states about them.

    Go strings are byte sequences: they are modelled as [list ascii]
    (an [ascii] is one byte).  Go's [int] indices are [nat] where the code
    keeps them non-negative and [Z] where a negative or out-of-range value
    is meaningful.  A run-time panic is modelled by [None] in the
    functions whose only panic is an index out of range, and by an [Err]
    result that names the panic in the repair passes, which can also
    panic in [regexp.MustCompile]. *)

From Stdlib Require Import Ascii String ZArith Lia FunctionalExtensionality.
From stdpp Require Import base list gmap strings.

Abbreviation str := (list ascii).

(** Literal byte strings. *)
Definition lit (s : string) : str := list_ascii_of_string s.

Definition NL : ascii := "010"%char.
Definition CR : ascii := "013"%char.
Definition TAB : ascii := "009"%char.
Definition DQUOTE : ascii := "034"%char.
Definition BACKSLASH : ascii := "\"%char.

(** ** The part of Go's [strings] package the repair code uses *)

Module Strings.

Definition byteEq (a b : ascii) : bool := Ascii.eqb a b.

Fixpoint streq (a b : str) : bool :=
  match a, b with
  | [], [] => true
  | x :: a', y :: b' => byteEq x y && streq a' b'
  | _, _ => false
  end.

(** [strings.HasPrefix s prefix] *)
Fixpoint hasPrefix (s prefix : str) {struct prefix} : bool :=
  match prefix, s with
  | [], _ => true
  | p :: prefix', c :: s' => byteEq c p && hasPrefix s' prefix'
  | _ :: _, [] => false
  end.

(** [strings.Index s sub]: the offset of the first occurrence, [None]
    for Go's [-1]. *)
Fixpoint index (s sub : str) : option nat :=
  if hasPrefix s sub then Some 0
  else match s with
       | [] => None
       | _ :: s' => S <$> index s' sub
       end.

(** [strings.Contains s sub] *)
Definition contains (s sub : str) : bool :=
  match index s sub with Some _ => true | None => false end.

(** [strings.HasSuffix s suffix] *)
Definition hasSuffix (s suffix : str) : bool :=
  hasPrefix (rev s) (rev suffix).

(** [strings.Split s sep] for a one-byte separator; the result is never
    empty: [Split "" sep] is the one-element list holding [""]. *)
Fixpoint split (sep : ascii) (s : str) : list str :=
  match s with
  | [] => [[]]
  | c :: s' =>
      if byteEq c sep then [] :: split sep s'
      else match split sep s' with
           | l :: ls => (c :: l) :: ls
           | [] => [[c]]
           end
  end.

(** [strings.Join elems sep] *)
Fixpoint join (sep : str) (elems : list str) : str :=
  match elems with
  | [] => []
  | [e] => e
  | e :: es => e ++ sep ++ join sep es
  end.

(** [strings.Replace s old new 1] for a non-empty [old]. *)
Definition replace1 (s old new : str) : str :=
  match index s old with
  | Some i => take i s ++ new ++ drop (i + length old) s
  | None => s
  end.

(** [strings.Count s sub] for a one-byte [sub]. *)
Definition countByte (c : ascii) (s : str) : nat :=
  length (filter (λ x, byteEq x c = true) s).

(** [strings.Repeat " " n] *)
Definition spaces (n : nat) : str := replicate n " "%char.

(** White space as [unicode.IsSpace] sees it.  The ASCII members are
    tab, newline, vertical tab, form feed, carriage return and space;
    the others are U+0085, U+00A0, U+1680, U+2000..U+200A, U+2028,
    U+2029, U+202F, U+205F and U+3000, recognised here by their UTF-8
    encodings.  [spaceWidth s] is the byte length of the white-space
    rune [s] starts with, or [0]. *)
Definition isAsciiSpace (c : ascii) : bool :=
  let n := nat_of_ascii c in
  ((9 <=? n) && (n <=? 13)) || (n =? 32).

Definition wideSpaces : list str :=
  map (map ascii_of_nat)
    [ [194; 133]; [194; 160]; [225; 154; 128];
      [226; 128; 128]; [226; 128; 129]; [226; 128; 130]; [226; 128; 131];
      [226; 128; 132]; [226; 128; 133]; [226; 128; 134]; [226; 128; 135];
      [226; 128; 136]; [226; 128; 137]; [226; 128; 138];
      [226; 128; 168]; [226; 128; 169]; [226; 128; 175];
      [226; 129; 159]; [227; 128; 128] ].

Definition spaceWidth (s : str) : nat :=
  match s with
  | [] => 0
  | c :: _ =>
      if isAsciiSpace c then 1
      else match find (hasPrefix s) wideSpaces with
           | Some e => length e
           | None => 0
           end
  end.

(** The same recognition read backwards, as [TrimSpace] does from the
    end of the string: [rs] is the reversed string. *)
Definition spaceWidthRev (rs : str) : nat :=
  match rs with
  | [] => 0
  | c :: _ =>
      if isAsciiSpace c then 1
      else match find (λ e, hasPrefix rs (rev e)) wideSpaces with
           | Some e => length e
           | None => 0
           end
  end.

Fixpoint trimLeftSpaceFuel (fuel : nat) (s : str) : str :=
  match fuel with
  | 0 => s
  | S f =>
      match spaceWidth s with
      | 0 => s
      | w => trimLeftSpaceFuel f (drop w s)
      end
  end.

Fixpoint trimRevSpaceFuel (fuel : nat) (rs : str) : str :=
  match fuel with
  | 0 => rs
  | S f =>
      match spaceWidthRev rs with
      | 0 => rs
      | w => trimRevSpaceFuel f (drop w rs)
      end
  end.

(** [strings.TrimSpace] *)
Definition trimSpace (s : str) : str :=
  let l := trimLeftSpaceFuel (length s) s in
  rev (trimRevSpaceFuel (length l) (rev l)).

(** [strings.TrimLeft s " \t"] *)
Fixpoint trimLeftBlank (s : str) : str :=
  match s with
  | c :: s' =>
      if byteEq c " "%char || byteEq c TAB then trimLeftBlank s' else s
  | [] => []
  end.

End Strings.

Import Strings.

(** ** Container model *)

(** The structs the JSON container is decoded into.  [ShaderPerformance]
    (two floating-point gauges) and the two untyped texture lists of
    [ShaderData] are never read by the repair code and carry no
    information here. *)
Record ShaderInput := {
  ID : str;
  Channel : Z;
  Src : str;
  InputType : str
}.

Record ShaderPass := {
  Index : Z;
  Code : str;
  Inputs : list ShaderInput;
  Type_ : str;
  Name : str
}.

Record ShaderMetadata := {
  URL : str;
  ShaderID : str;
  Title : str;
  Description : str;
  NumPasses : Z
}.

Record ShaderData := {
  Metadata : option ShaderMetadata;
  Passes : list ShaderPass;
  Screenshots : list str
}.

(** Go's [(value, error)] results. *)
Inductive result (E A : Type) : Type :=
| Ok (a : A)
| Err (e : E).
Arguments Ok {E A} a.
Arguments Err {E A} e.

(** The errors [loadEmbeddedShader] builds with [fmt.Errorf]. *)
Inductive loadError : Type :=
| ErrEmptyData        (* "embedded shader data is empty" *)
| ErrPreprocess       (* "error preprocessing JSON: ..." *)
| ErrParse            (* "error parsing JSON: ..." *)
| ErrNoPasses.        (* "shader file contains no passes" *)

(** The run-time panics of the repair code. *)
Inductive panic : Type :=
| IndexOutOfRange     (* "index out of range" on a slice *)
| BadPattern.         (* [regexp.MustCompile] on a pattern the compiler refuses *)

#[global] Instance result_bind {E : Type} : MBind (result E) :=
  λ A B f r, match r with Ok a => f a | Err e => Err e end.

(** An indexing step: [None] is the index panic. *)
Definition indexed {A : Type} (o : option A) : result panic A :=
  match o with
  | Some a => Ok a
  | None => Err IndexOutOfRange
  end.

(** ** String-literal escaper: [preprocessJSON] *)

Module Escaper.

Definition hexDigit (n : nat) : ascii :=
  nth n (lit "0123456789abcdef") "0"%char.

(** [fmt.Sprintf("\\u%04x", char)] for a byte. *)
Definition sprintf_u04x (char : ascii) : str :=
  let n := nat_of_ascii char in
  lit "\u00" ++ [hexDigit (n / 16); hexDigit (n mod 16)].

(** The loop's three variables. *)
Record state := {
  result_ : str;
  inString : bool;
  escapeNext : bool
}.

(** The inner loop [for j := i - 1; j >= 0 && jsonStr[j] == '\\'; j--]:
    [before] is the text in front of position [i], nearest byte first. *)
Fixpoint backslashCount (before : str) : nat :=
  match before with
  | c :: before' => if byteEq c BACKSLASH then S (backslashCount before') else 0
  | [] => 0
  end.

(** One iteration of the main loop, at byte [char] with [before] in
    front of it. *)
Definition step (before : str) (st : state) (char : ascii) : state :=
  if escapeNext st then
    {| result_ := result_ st ++ [char]; inString := inString st; escapeNext := false |}
  else if byteEq char BACKSLASH then
    {| result_ := result_ st ++ [char]; inString := inString st; escapeNext := true |}
  else if byteEq char DQUOTE then
    {| result_ := result_ st ++ [char];
       inString := if Nat.even (backslashCount before)
                   then negb (inString st) else inString st;
       escapeNext := false |}
  else if inString st then
    {| result_ := result_ st ++
         (if byteEq char NL then lit "\n"
          else if byteEq char CR then lit "\r"
          else if byteEq char TAB then lit "\t"
          else if nat_of_ascii char <? 32 then sprintf_u04x char
          else [char]);
       inString := true; escapeNext := false |}
  else
    {| result_ := result_ st ++ [char]; inString := false; escapeNext := false |}.

Fixpoint loop (before rest : str) (st : state) : state :=
  match rest with
  | [] => st
  | char :: rest' => loop (char :: before) rest' (step before st char)
  end.

(** The text the builder [result] holds when the loop ends. *)
Definition escaped (data : str) : str :=
  result_ (loop [] data {| result_ := []; inString := false; escapeNext := false |}).

(** The error result is always [nil]. *)
Definition preprocessJSON (data : str) : result loadError str :=
  Ok (escaped data).

(** *** The classification the specification describes

    A quote toggles the string state when an even number of consecutive
    backslashes stands directly before it; a byte is escape-consumed when
    an odd number does. *)
Fixpoint realQuotes (before : str) : nat :=
  match before with
  | c :: before' =>
      (if byteEq c DQUOTE && Nat.even (backslashCount before') then 1 else 0)
      + realQuotes before'
  | [] => 0
  end.

Definition insideString (before : str) : bool := Nat.odd (realQuotes before).
Definition escapeConsumed (before : str) : bool := Nat.odd (backslashCount before).

Definition isControl (c : ascii) : bool := nat_of_ascii c <? 32.

(** The escape the specification prescribes for a byte inside a string. *)
Definition escapeOf (c : ascii) : str :=
  if byteEq c NL then lit "\n"
  else if byteEq c CR then lit "\r"
  else if byteEq c TAB then lit "\t"
  else if isControl c then lit "\u00" ++ [hexDigit (nat_of_ascii c / 16);
                                         hexDigit (nat_of_ascii c mod 16)]
  else [c].

(** What the escaper writes for the byte [c] that has [before] in front
    of it. *)
Definition emitted (before : str) (c : ascii) : str :=
  if insideString before && negb (escapeConsumed before) then escapeOf c
  else [c].

Fixpoint emittedFrom (before rest : str) : str :=
  match rest with
  | [] => []
  | c :: rest' => emitted before c ++ emittedFrom (c :: before) rest'
  end.

(** The rule as the specification words it, with no exemption for an
    escape-consumed byte. *)
Definition emittedAsSpecified (before : str) (c : ascii) : str :=
  if insideString before then escapeOf c else [c].

Fixpoint emittedAsSpecifiedFrom (before rest : str) : str :=
  match rest with
  | [] => []
  | c :: rest' =>
      emittedAsSpecified before c ++ emittedAsSpecifiedFrom (c :: before) rest'
  end.

End Escaper.

(** ** Loader: [loadEmbeddedShader] *)

Section Loader.

(** [json.Unmarshal] into a [ShaderData]; [None] is a decoding error.
    It belongs to Go's standard library and is taken as given. *)
Variable jsonUnmarshal : str → option ShaderData.

(** [shaderJSONData], the embedded file, is the argument. *)
Definition loadEmbeddedShader (shaderJSONData : str) : result loadError ShaderData :=
  let data := shaderJSONData in
  if length data =? 0 then Err ErrEmptyData
  else
    match Escaper.preprocessJSON data with
    | Err _ => Err ErrPreprocess
    | Ok preprocessedData =>
        match jsonUnmarshal preprocessedData with
        | None => Err ErrParse
        | Some shaderData =>
            if length (Passes shaderData) =? 0 then Err ErrNoPasses
            else Ok shaderData
        end
    end.

End Loader.

(** ** Comment stripper: [removeComments] *)

Module Comments.

(** The inner loop over one line.  [inBlockComment] is the flag on
    entry; the result is the text written to [processedLine] and the
    flag on exit.  The two-byte tests need [i+1 < len(line)]. *)
Fixpoint scanLine (inBlockComment : bool) (line : str) : str * bool :=
  match line with
  | [] => ([], inBlockComment)
  | c :: rest =>
      if inBlockComment then
        match rest with
        | d :: rest' =>
            if byteEq c "*"%char && byteEq d "/"%char then scanLine false rest'
            else scanLine true rest
        | [] => ([], true)
        end
      else
        match rest with
        | d :: rest' =>
            if byteEq c "/"%char && byteEq d "*"%char then scanLine true rest'
            else if byteEq c "/"%char && byteEq d "/"%char then ([], false)
            else let '(out, b) := scanLine false rest in (c :: out, b)
        | [] => ([c], false)
        end
  end.

(** [strings.TrimSpace(processedLine.String()) == ""] *)
Definition blank (s : str) : bool := streq (trimSpace s) [].

(** The condition under which the line is written:
    [trimmed != "" || !inBlockComment]. *)
Definition emits (processedLine : str) (inBlockComment : bool) : bool :=
  negb (blank processedLine) || negb inBlockComment.

(** The outer loop, threading [result] and [inBlockComment]. *)
Fixpoint linesLoop (lines : list str) (inBlockComment : bool) (result : str) : str :=
  match lines with
  | [] => result
  | line :: lines' =>
      let '(processedLine, inBlockComment') := scanLine inBlockComment line in
      let result' :=
        if emits processedLine inBlockComment'
        then result ++ processedLine ++ [NL]
        else result in
      linesLoop lines' inBlockComment' result'
  end.

Definition removeComments (code : str) : str :=
  linesLoop (split NL code) false [].

(** *** Per-line view

    [trace b lines] lists, for each line in order, the processed text of
    the line and the block-comment flag after it. *)
Fixpoint trace (inBlockComment : bool) (lines : list str) : list (str * bool) :=
  match lines with
  | [] => []
  | line :: lines' =>
      let r := scanLine inBlockComment line in
      r :: trace (snd r) lines'
  end.

(** The text a line contributes under an emission rule. *)
Definition contribution (rule : str → bool → bool) (r : str * bool) : str :=
  if rule (fst r) (snd r) then fst r ++ [NL] else [].

(** The rule as the specification words it: emitted when the line has
    non-blank content or a block comment is still open. *)
Definition emitsAsSpecified (processedLine : str) (inBlockComment : bool) : bool :=
  negb (blank processedLine) || inBlockComment.

(** The processed lines that are written, in order. *)
Definition written (tr : list (str * bool)) : list str :=
  fst <$> filter (λ r, emits r.1 r.2 = true) tr.

End Comments.

(** ** The part of Go's [regexp] package the repair code uses

    Go's matcher returns the leftmost match and, among the matches that
    start there, the one a backtracking search finds first.  [run] is that
    backtracking search, written with a success continuation.  All the
    patterns of the repair code are ASCII, so matching byte by byte agrees
    with Go's matching rune by rune. *)

Module Regexp.

Inductive regex : Type :=
| Eps
| Class (p : ascii → bool)        (* one byte of a class *)
| Cat (r1 r2 : regex)
| Alt (r1 r2 : regex)             (* r1|r2, r1 preferred *)
| Star (r : regex)                (* r*, greedy *)
| Group (n : nat) (r : regex)     (* n-th capturing group *)
| BeginText                       (* ^ *)
| WordBoundary.                   (* \b *)

Definition captures := list (nat * str).

(** [matches[n]] of a submatch result; an unset group reads as [""]. *)
Fixpoint group (n : nat) (caps : captures) : str :=
  match caps with
  | [] => []
  | (k, v) :: caps' => if k =? n then v else group n caps'
  end.

Definition inRange (lo hi c : ascii) : bool :=
  (nat_of_ascii lo <=? nat_of_ascii c) && (nat_of_ascii c <=? nat_of_ascii hi).

Definition oneOf (set : str) (c : ascii) : bool := existsb (byteEq c) set.

(** [\w] *)
Definition isWord (c : ascii) : bool :=
  inRange "0" "9" c || inRange "A" "Z" c || inRange "a" "z" c || byteEq c "_".
(** [\s], which in Go's syntax is [[\t\n\f\r ]] *)
Definition isSpace (c : ascii) : bool :=
  oneOf [TAB; NL; "012"%char; CR; " "%char] c.
(** [[a-zA-Z_]] *)
Definition isIdentStart (c : ascii) : bool :=
  inRange "A" "Z" c || inRange "a" "z" c || byteEq c "_".

Definition atWordBoundary (prev : option ascii) (s : str) : bool :=
  xorb (from_option isWord false prev) (from_option isWord false (head s)).

Section Run.
Context {A : Type}.

(** The iteration of [r*]: [body] matches one [r].  An iteration that
    consumes nothing is not repeated, and a text of length [n] allows at
    most [n] iterations. *)
Fixpoint starLoop
    (body : option ascii → str → captures
            → (option ascii → str → captures → option A) → option A)
    (fuel : nat) (prev : option ascii) (s : str) (caps : captures)
    (k : option ascii → str → captures → option A) {struct fuel} : option A :=
  match fuel with
  | 0 => k prev s caps
  | S fuel' =>
      match body prev s caps
              (λ prev' s' caps',
                 if length s' <? length s
                 then starLoop body fuel' prev' s' caps' k else None) with
      | Some a => Some a
      | None => k prev s caps
      end
  end.

(** [prev] is the byte in front of the current position ([None] at
    the start of the text), [s] the text from the position on. *)
Fixpoint run (r : regex) (prev : option ascii) (s : str) (caps : captures)
    (k : option ascii → str → captures → option A) {struct r} : option A :=
  match r with
  | Eps => k prev s caps
  | Class p =>
      match s with
      | c :: s' => if p c then k (Some c) s' caps else None
      | [] => None
      end
  | Cat r1 r2 => run r1 prev s caps (λ prev' s' caps', run r2 prev' s' caps' k)
  | Alt r1 r2 =>
      match run r1 prev s caps k with
      | Some a => Some a
      | None => run r2 prev s caps k
      end
  | Star r1 => starLoop (run r1) (length s) prev s caps k
  | Group n r1 =>
      run r1 prev s caps
        (λ prev' s' caps', k prev' s' ((n, take (length s - length s') s) :: caps'))
  | BeginText => match prev with None => k prev s caps | Some _ => None end
  | WordBoundary => if atWordBoundary prev s then k prev s caps else None
  end.
End Run.

(** A match anchored at the current position: the text left after it
    and the groups. *)
Definition matchHere (r : regex) (prev : option ascii) (s : str)
    : option (str * captures) :=
  run r prev s [] (λ _ s' caps, Some (s', caps)).

(** The leftmost match at or after the current position, as
    [(start, end, groups)] with offsets counted from [pos]. *)
Fixpoint searchFrom (r : regex) (pos : nat) (prev : option ascii) (s : str)
    : option (nat * nat * captures) :=
  match matchHere r prev s with
  | Some (s', caps) => Some (pos, pos + (length s - length s'), caps)
  | None =>
      match s with
      | [] => None
      | c :: s' => searchFrom r (S pos) (Some c) s'
      end
  end.

(** [re.MatchString(s)] *)
Definition matchString (r : regex) (s : str) : bool :=
  match searchFrom r 0 None s with Some _ => true | None => false end.

(** [re.FindStringSubmatch(s)]; [None] is Go's [nil]. *)
Definition findStringSubmatch (r : regex) (s : str) : option captures :=
  match searchFrom r 0 None s with
  | Some (_, _, caps) => Some caps
  | None => None
  end.

(** [re.FindAllStringIndex(s, -1)]: successive leftmost matches, each
    search resuming where the previous match ended; an empty match moves
    the search one byte on and is dropped when it touches the previous
    match. *)
Fixpoint findAllFrom (fuel : nat) (r : regex) (pos : nat) (prev : option ascii)
    (s : str) (prevMatchEnd : option nat) : list (nat * nat) :=
  match fuel with
  | 0 => []
  | S fuel' =>
      match searchFrom r pos prev s with
      | None => []
      | Some (b, e, _) =>
          if e =? pos then
            let found :=
              if bool_decide (prevMatchEnd = Some b) then [] else [(b, e)] in
            match s with
            | [] => found
            | c :: s' => found ++ findAllFrom fuel' r (S pos) (Some c) s' (Some e)
            end
          else
            (b, e) :: findAllFrom fuel' r e (last (take (e - pos) s))
                        (drop (e - pos) s) (Some e)
      end
  end.

Definition findAllStringIndex (r : regex) (s : str) : list (nat * nat) :=
  findAllFrom (S (length s)) r 0 None s None.

(** [re.FindAllString(s, -1)] *)
Definition findAllString (r : regex) (s : str) : list str :=
  (λ m, take (m.2 - m.1) (drop m.1 s)) <$> findAllStringIndex r s.

(** *** The language of a pattern

    [lang r m]: the text [m] is matched by [r], taken out of context (the
    two assertions match the empty text). *)
Inductive lang : regex → str → Prop :=
| lang_eps : lang Eps []
| lang_class p c : p c = true → lang (Class p) [c]
| lang_cat r1 r2 m1 m2 : lang r1 m1 → lang r2 m2 → lang (Cat r1 r2) (m1 ++ m2)
| lang_alt_l r1 r2 m : lang r1 m → lang (Alt r1 r2) m
| lang_alt_r r1 r2 m : lang r2 m → lang (Alt r1 r2) m
| lang_star_nil r : lang (Star r) []
| lang_star_cons r m1 m2 : lang r m1 → lang (Star r) m2 → lang (Star r) (m1 ++ m2)
| lang_group n r m : lang r m → lang (Group n r) m
| lang_begin : lang BeginText []
| lang_wordb : lang WordBoundary [].

(** The byte in front of the position reached after reading [m]. *)
Definition lastOr (prev : option ascii) (m : str) : option ascii :=
  match last m with Some c => Some c | None => prev end.

(** [sound_at r]: what the matcher consumes for [r] before it calls its
    continuation is in the language of [r]. *)
Definition sound_at {A : Type} (r : regex) : Prop :=
  ∀ prev s caps (k : option ascii → str → captures → option A) a,
    run r prev s caps k = Some a →
    ∃ m s' prev' caps', s = m ++ s' ∧ lang r m ∧ k prev' s' caps' = Some a.

(** *** Pattern syntax *)

Definition rseq (rs : list regex) : regex := foldr Cat Eps rs.
Definition chr (c : ascii) : regex := Class (byteEq c).
(** A literal, which is what [regexp.QuoteMeta] of a name compiles to. *)
Definition literal (s : str) : regex := rseq (chr <$> s).
Definition plus (r : regex) : regex := Cat r (Star r).
Definition opt (r : regex) : regex := Alt r Eps.
Fixpoint alts (r : regex) (rs : list regex) : regex :=
  match rs with
  | [] => r
  | r' :: rs' => Alt r (alts r' rs')
  end.

(** [vec[234]] and [mat[234]] *)
Definition vecN : regex := rseq [literal (lit "vec"); Class (oneOf (lit "234"))].
Definition matN : regex := rseq [literal (lit "mat"); Class (oneOf (lit "234"))].
(** [(vec[234]|float|int|bool)] *)
Definition typeToken : regex :=
  alts vecN [literal (lit "float"); literal (lit "int"); literal (lit "bool")].
(** [(vec[234]|float|int|bool|mat[234])] *)
Definition typeTokenMat : regex :=
  alts vecN [literal (lit "float"); literal (lit "int"); literal (lit "bool"); matN].
(** [(out|in|inout)] *)
Definition qualifier : regex :=
  alts (literal (lit "out")) [literal (lit "in"); literal (lit "inout")].

Definition spaces0 : regex := Star (Class isSpace).   (* \s* *)
Definition spaces1 : regex := plus (Class isSpace).   (* \s+ *)
Definition word1 : regex := plus (Class isWord).      (* \w+ *)
(** [[a-zA-Z_][a-zA-Z0-9_]*] *)
Definition identifier : regex :=
  Cat (Class isIdentStart) (Star (Class isWord)).
(** [[^;]+] *)
Definition notSemicolon1 : regex := plus (Class (λ c, negb (byteEq c ";"))).

(** *** Patterns built at run time

    The patterns below splice a name into the pattern text through
    [regexp.QuoteMeta].  [regexp.MustCompile] panics on a text the
    compiler refuses (a text that is not valid UTF-8, a pattern larger
    than the compiler allows), and the name can be as long as the shader
    text: the model keeps the pattern text and asks the compiler,
    [regexpCompiles], whether it accepts it.  The patterns written out in
    the source compile. *)

(** [regexp.QuoteMeta]: a backslash in front of each byte of
    [\.+*?()|[]{}^$]. *)
Definition isSpecial (c : ascii) : bool :=
  oneOf (BACKSLASH :: lit ".+*?()|[]{}^$") c.

Definition quoteMeta (s : str) : str :=
  concat ((λ c, if isSpecial c then [BACKSLASH; c] else [c]) <$> s).

Definition declText (varName : str) : str :=
  lit "\b(vec[234]|float|int|bool)\s+" ++ quoteMeta varName ++ lit "\s*[=;]".
Definition declMatText (varName : str) : str :=
  lit "\b(vec[234]|float|int|bool|mat[234])\s+" ++ quoteMeta varName ++ lit "\s*[=;]".
Definition paramText (varName : str) : str :=
  lit "\b(out|in|inout)\s+(vec[234]|float|int|bool|mat[234])\s+" ++ quoteMeta varName
  ++ lit "\s*[,)]".
Definition swizzleText (varName : str) : str :=
  quoteMeta varName ++ lit "\.([xyzw]{2,4})".

(** [regexp.MustCompile(text)], where [re] is the pattern [text] denotes. *)
Definition mustCompile (regexpCompiles : str → bool) (text : str) (re : regex)
    : result panic regex :=
  if regexpCompiles text then Ok re else Err BadPattern.

(** [\b(vec[234]|float|int|bool)\s+NAME\s*[=;]] *)
Definition declOf (varName : str) : regex :=
  rseq [WordBoundary; Group 1 typeToken; spaces1; literal varName; spaces0;
       Class (oneOf (lit "=;"))].
(** [\b(vec[234]|float|int|bool|mat[234])\s+NAME\s*[=;]] *)
Definition declMatOf (varName : str) : regex :=
  rseq [WordBoundary; Group 1 typeTokenMat; spaces1; literal varName; spaces0;
       Class (oneOf (lit "=;"))].
(** [\b(out|in|inout)\s+(vec[234]|float|int|bool|mat[234])\s+NAME\s*[,)]] *)
Definition paramOf (varName : str) : regex :=
  rseq [WordBoundary; Group 1 qualifier; spaces1; Group 2 typeTokenMat; spaces1;
       literal varName; spaces0; Class (oneOf (lit ",)"))].

End Regexp.

Import Regexp.

(** ** Variable-type inferencer: [determineVariableType] *)

Module Inferencer.

(** The [switch varType] on the six type tokens; [None] when no case
    applies. *)
Definition zeroValue (varType : str) : option str :=
  if streq varType (lit "vec2") then Some (lit "vec2(0.0)")
  else if streq varType (lit "vec3") then Some (lit "vec3(0.0)")
  else if streq varType (lit "vec4") then Some (lit "vec4(0.0)")
  else if streq varType (lit "float") then Some (lit "0.0")
  else if streq varType (lit "int") then Some (lit "0")
  else if streq varType (lit "bool") then Some (lit "false")
  else None.

(** [\b(vec[234]|float|int|bool)\s+\w+\s*=] *)
Definition typeDeclPattern : regex :=
  rseq [WordBoundary; Group 1 typeToken; spaces1; word1; spaces0; chr "="].

(** [QuoteMeta(varName) + `\.([xyzw]{2,4})`] *)
Definition swizzleOf (varName : str) : regex :=
  let c := Class (oneOf (lit "xyzw")) in
  rseq [literal varName; chr ".";
       Group 1 (rseq [c; c; opt (rseq [c; opt c])])].

(** Go's [int] has 64 bits on the targets the program is built for. *)
Definition minInt : Z := (- 2 ^ 63)%Z.
Definition maxInt : Z := (2 ^ 63 - 1)%Z.

(** [a - b] for an [int] [a] and a small constant [b]: a difference
    below [minInt] wraps around. *)
Definition subInt (a b : Z) : Z :=
  if (minInt <=? a)%Z && (a - b <? minInt)%Z then (a - b + 2 ^ 64)%Z else (a - b)%Z.

(** [lines[j]] for an index [j] that is not negative.  A slice holds at
    most [maxInt] elements, so the index [maxInt] is out of range in
    every slice. *)
Definition lineAt (lines : list str) (j : Z) : option str :=
  if (j <? maxInt)%Z then lines !! Z.to_nat j else None.

(** Outcome of the backward walk over the declaration chain. *)
Inductive chainSearch : Type :=
| ChainFound (zero : str)   (* a [return] inside the loop *)
| ChainNone                 (* the loop ended or hit [break] *)
| ChainPanic.               (* [lines[j]] out of range *)

(** The loop [for j := ...; j >= 0 && j >= lineIndex-20; j--] from [j]
    on, where [low] is the value of [lineIndex-20]; the loop body runs at
    most twenty times. *)
Fixpoint chainLoop (fuel : nat) (lines : list str) (low j : Z) : chainSearch :=
  match fuel with
  | 0 => ChainNone
  | S fuel' =>
      if (0 <=? j)%Z && (low <=? j)%Z then
        match lineAt lines j with
        | None => ChainPanic
        | Some l =>
            let prevLine := trimSpace l in
            if streq prevLine [] then chainLoop fuel' lines low (j - 1)%Z
            else if negb (hasSuffix prevLine (lit ",")) then
              match findStringSubmatch typeDeclPattern prevLine with
              | Some matches =>
                  match zeroValue (group 1 matches) with
                  | Some zero => ChainFound zero
                  | None => ChainNone
                  end
              | None => ChainNone
              end
            else
              match findStringSubmatch typeDeclPattern prevLine with
              | Some matches =>
                  match zeroValue (group 1 matches) with
                  | Some zero => ChainFound zero
                  | None => chainLoop fuel' lines low (j - 1)%Z
                  end
              | None => chainLoop fuel' lines low (j - 1)%Z
              end
        end
      else ChainNone
  end.

Section WithCompiler.
Variable regexpCompiles : str → bool.

Definition determineVariableType (varName code : str) (lines : list str)
    (lineIndex : Z) : result panic str :=
  match chainLoop 21 lines (subInt lineIndex 20) (subInt lineIndex 1) with
  | ChainPanic => Err IndexOutOfRange
  | ChainFound zero => Ok zero
  | ChainNone =>
      let varNameDot := varName ++ lit "." in
      if contains code (varNameDot ++ lit "w") || contains code (varName ++ lit ".w")
      then Ok (lit "vec4(0.0)")
      else if contains code (varNameDot ++ lit "z") || contains code (varName ++ lit ".z")
      then Ok (lit "vec4(0.0)")
      else
        swizzlePattern ← mustCompile regexpCompiles (swizzleText varName)
                           (swizzleOf varName);
        if 0 <? length (findAllString swizzlePattern code) then
          if contains code (varName ++ lit " +=") || contains code (varName ++ lit " =")
          then Ok (lit "vec2(0.0)")
          else Ok (lit "vec2(0.0)")
        else if contains code (varNameDot ++ lit "x") || contains code (varNameDot ++ lit "y")
                || contains code (varName ++ lit ".x") || contains code (varName ++ lit ".y")
        then
          if contains code (varName ++ lit " +=") || contains code (varName ++ lit " =")
          then Ok (lit "vec2(0.0)")
          else Ok (lit "vec2(0.0)")
        else if contains code (varName ++ lit " +=") || contains code (varName ++ lit " =")
                || contains code (varName ++ lit " -=") || contains code (varName ++ lit " *=")
                || contains code (varName ++ lit " /=")
        then Ok (lit "vec2(0.0)")
        else if contains code (varName ++ lit " ") || contains code (varName ++ lit "(")
                || contains code (varName ++ lit ")") || contains code (lit "(" ++ varName)
        then Ok (lit "vec2(0.0)")
        else Ok (lit "vec2(0.0)")
  end.

End WithCompiler.

(** The six zero-value initializers. *)
Definition zeroValues : list str :=
  [lit "vec2(0.0)"; lit "vec3(0.0)"; lit "vec4(0.0)"; lit "0.0"; lit "0"; lit "false"].

End Inferencer.

Import Inferencer.

(** ** Orphaned-assignment remover: [removeOrphanedAssignments] *)

Module Orphans.

(** [^\s*(IDENT)\s*=\s*([^;]+);] where IDENT is [[a-zA-Z_][a-zA-Z0-9_]*] *)
Definition orphanedPattern : regex :=
  rseq [BeginText; spaces0; Group 1 identifier; spaces0; chr "="; spaces0;
       Group 2 notSemicolon1; chr ";"].

(** [^\s*(vec[234]|float|int|bool|mat[234])\s+] *)
Definition typePattern : regex :=
  rseq [BeginText; spaces0; Group 1 typeTokenMat; spaces1].

(** [\b(IDENT)] *)
Definition varRefPattern : regex := rseq [WordBoundary; Group 1 identifier].

Definition isKeyword (varName : str) : bool :=
  streq varName (lit "if") || streq varName (lit "for")
  || streq varName (lit "while") || streq varName (lit "return").

(** The names the reference check skips, next to [varName] itself. *)
Definition builtins : list str :=
  lit <$> [ "vec2"; "vec3"; "vec4"; "sin"; "cos"; "abs"; "fract"; "clamp";
            "pow"; "mix"; "smoothstep"; "exp2"; "normalize"; "dot"; "length";
            "floor"; "step"; "iTime"; "iResolution"; "gl_FragCoord";
            "x"; "y"; "z"; "w"; "r"; "g"; "b"; "a"; "xy"; "zx"; "rgb"; "xyyx";
            "time"; "spd"; "mm2"; "tri2"; "tri"; "m2"; "bp"; "p" ]%string.

Definition skipped (varName ref : str) : bool :=
  existsb (streq ref) builtins || streq ref varName.

Section WithCompiler.
Variable regexpCompiles : str → bool.

(** The inner [for _, ref := range varRefs] loop: whether some reference
    is neither skipped nor declared nor a parameter in [beforeCode].  Both
    patterns of a reference are compiled before either is used, and the
    loop ends at the first orphaned reference. *)
Fixpoint isOrphaned (varName beforeCode : str) (varRefs : list str)
    : result panic bool :=
  match varRefs with
  | [] => Ok false
  | ref :: varRefs' =>
      if skipped varName ref then isOrphaned varName beforeCode varRefs'
      else
        refDeclPattern ← mustCompile regexpCompiles (declMatText ref) (declMatOf ref);
        refParamPattern ← mustCompile regexpCompiles (paramText ref) (paramOf ref);
        if negb (matchString refDeclPattern beforeCode)
           && negb (matchString refParamPattern beforeCode)
        then Ok true
        else isOrphaned varName beforeCode varRefs'
  end.

(** Whether the line at index [i] is kept. *)
Definition keeps (lines : list str) (i : nat) (line : str) : result panic bool :=
  match findStringSubmatch orphanedPattern line with
  | None => Ok true
  | Some matches =>
      let varName := group 1 matches in
      let expression := group 2 matches in
      if matchString typePattern line then Ok true
      else if isKeyword varName then Ok true
      else
        let beforeCode := join [NL] (take i lines) in
        paramPattern ← mustCompile regexpCompiles (paramText varName) (paramOf varName);
        if matchString paramPattern beforeCode then Ok true
        else
          declPattern ← mustCompile regexpCompiles (declMatText varName)
                          (declMatOf varName);
          if negb (matchString declPattern beforeCode) then
            orphaned ← isOrphaned varName beforeCode
                          (findAllString varRefPattern expression);
            Ok (negb orphaned)
          else Ok true
  end.

Fixpoint filterLines (lines : list str) (i : nat) (rest : list str)
    (filteredLines : list str) : result panic (list str) :=
  match rest with
  | [] => Ok filteredLines
  | line :: rest' =>
      keep ← keeps lines i line;
      filterLines lines (S i) rest'
        (if keep : bool then filteredLines ++ [line] else filteredLines)
  end.

Definition removeOrphanedAssignments (code : str) : result panic str :=
  let lines := split NL code in
  filteredLines ← filterLines lines 0 lines [];
  Ok (join [NL] filteredLines).

End WithCompiler.

End Orphans.

(** ** Duplicate-output-declaration fixer: [fixMainImageFragColor] *)

Module FragColor.

(** The first loop: index of the first line containing
    ["void mainImage"]. *)
Fixpoint findMainImage (i : nat) (rest : list str) : option nat :=
  match rest with
  | [] => None
  | line :: rest' =>
      if contains (trimSpace line) (lit "void mainImage") then Some i
      else findMainImage (S i) rest'
  end.

(** The second loop: [braceCount] runs over the lines from
    [mainImageStart]; the result is [mainImageEnd]. *)
Fixpoint findEnd (mainImageStart i : nat) (rest : list str) (braceCount : Z)
    (total : nat) : nat :=
  match rest with
  | [] => total
  | line :: rest' =>
      let braceCount' :=
        (braceCount + (Z.of_nat (countByte "{" line) - Z.of_nat (countByte "}" line)))%Z in
      if (braceCount' =? 0)%Z && (mainImageStart <? i) then i + 1
      else findEnd mainImageStart (S i) rest' braceCount' total
  end.

Definition declares (trimmed : str) : bool :=
  contains trimmed (lit "vec4 fragColor =") || contains trimmed (lit "vec4 fragColor=").

(** The body of the third loop for one line. *)
Definition rewriteLine (line : str) : str :=
  let trimmed := trimSpace line in
  if declares trimmed then
    match index trimmed (lit "fragColor") with
    | Some idx =>
        let assignment := drop idx trimmed in
        spaces (length line - length (trimLeftBlank line)) ++ assignment
    | None => line
    end
  else line.

Definition fixMainImageFragColor (code : str) : str :=
  let lines := split NL code in
  match findMainImage 0 lines with
  | None => code
  | Some mainImageStart =>
      let mainImageEnd :=
        findEnd mainImageStart mainImageStart (drop mainImageStart lines) 0
          (length lines) in
      join [NL]
        (imap (λ i line,
                 if (mainImageStart <=? i) && (i <? mainImageEnd)
                 then rewriteLine line else line) lines)
  end.

(** An entry function with the redeclaration on a line of its own, and
    the same function written on one line. *)
Definition declarationOnOwnLine : str :=
  lit "void mainImage(out vec4 fragColor, in vec2 fragCoord) {" ++ [NL]
  ++ lit "    vec4 fragColor = vec4(0.0);" ++ [NL] ++ lit "}".

Definition declarationOnSignatureLine : str :=
  lit "void mainImage(out vec4 fragColor, in vec2 fragCoord) { vec4 fragColor = vec4(0.0); }".

End FragColor.

Import Orphans FragColor Comments.

(** ** Function-scope locator: [findFunctionScope] *)

Module Scope.

(** The test for a function definition on a trimmed line. *)
Definition isFunctionLine (line : str) : bool :=
  contains line (lit "void ")
  || (contains line (lit "float ") && contains line (lit "("))
  || (contains line (lit "vec") && contains line (lit "(")).

(** [for i := lineIndex; i >= 0; i--]; the index found is Go's [int],
    [-1] when no line qualifies.  [None] is the panic of [lines[i]] for
    an index past the end. *)
Fixpoint findFunctionScope (lines : list str) (lineIndex : nat) : option (Z * bool) :=
  l ← lines !! lineIndex;
  let line := trimSpace l in
  if isFunctionLine line then
    if contains line (lit "mainImage") then Some (Z.of_nat lineIndex, true)
    else Some (Z.of_nat lineIndex, false)
  else
    match lineIndex with
    | 0 => Some ((-1)%Z, false)
    | S i => findFunctionScope lines i
    end.

(** The loop that looks for the first line containing ["mainImage"]. *)
Fixpoint findMainImageLine (j : nat) (rest : list str) : option nat :=
  match rest with
  | [] => None
  | l :: rest' =>
      if contains (trimSpace l) (lit "mainImage") then Some j
      else findMainImageLine (S j) rest'
  end.

(** The loop [for j := 0; j < i; j++] that looks for the first
    function line in front of line [i]. *)
Definition findFirstFunctionLine (lines : list str) (i : nat) : option nat :=
  fst <$> list_find (λ l, isFunctionLine (trimSpace l) = true) (take i lines).

(** The text [strings.Join(lines[mainImageStart:], "\n")] behind the
    search of [mainImageStart]; [None] when no line mentions
    ["mainImage"]. *)
Definition mainImageCode (lines : list str) : option str :=
  mainImageStart ← findMainImageLine 0 lines;
  Some (join [NL] (drop mainImageStart lines)).

(** The search of [mainImageStart] followed, when a line is found, by
    the test [declPattern.MatchString(mainImageCode)] with the pattern
    compiled there. *)
Definition declaredInMainImage (regexpCompiles : str → bool) (lines : list str)
    (varName : str) : result panic bool :=
  match mainImageCode lines with
  | Some code =>
      declPattern ← mustCompile regexpCompiles (declText varName) (declOf varName);
      Ok (matchString declPattern code)
  | None => Ok false
  end.

End Scope.

Import Scope.

(** ** The repair passes of [fixShaderCode] *)

Module Fixer.

(** The working copy of the line array and the repair-state map
    [uninitializedVars] (variable name to default value). *)
Record state := {
  lines : list str;
  uninitializedVars : gmap str str
}.

(** [,\s+(\w+)\s*;] *)
Definition chainVarPattern : regex :=
  rseq [chr ","; spaces1; Group 1 word1; spaces0; chr ";"].
(** [^\s*(\w+)\s*;] *)
Definition standaloneVarPattern : regex :=
  rseq [BeginText; spaces0; Group 1 word1; spaces0; chr ";"].
(** [\b(vec[234]|float|int|bool)\s+\w+], local to the chain branch *)
Definition sameLineTypePattern : regex :=
  rseq [WordBoundary; Group 1 typeToken; spaces1; word1].
(** [\b(vec[234]|float|int|bool)\s+(\w+)\s*;] *)
Definition bareDeclPattern : regex :=
  rseq [WordBoundary; Group 1 typeToken; spaces1; Group 2 word1; spaces0; chr ";"].
(** [^\s*(\w+)\s*=\s*([^;]+);] *)
Definition assignPattern : regex :=
  rseq [BeginText; spaces0; Group 1 word1; spaces0; chr "="; spaces0;
       Group 2 notSemicolon1; chr ";"].
(** [for\s*\([^)]*\)] *)
Definition loopPattern : regex :=
  rseq [literal (lit "for"); spaces0; chr "(";
       Star (Class (λ c, negb (byteEq c ")"))); chr ")"].

(** The leading run of spaces and tabs of a line. *)
Fixpoint indentOf (line : str) : str :=
  match line with
  | c :: line' =>
      if byteEq c " " || byteEq c TAB then c :: indentOf line' else []
  | [] => []
  end.

(** The nine usage tests of the first pass. *)
Definition usedIn (text varName : str) : bool :=
  contains text (varName ++ lit " ") || contains text (varName ++ lit ".")
  || contains text (varName ++ lit "+") || contains text (varName ++ lit "-")
  || contains text (varName ++ lit "*") || contains text (varName ++ lit "/")
  || contains text (varName ++ lit "=") || contains text (lit "(" ++ varName)
  || contains text (varName ++ lit ")").

(** *** Chain declarations

    The line [T a = x, b;] and the line the chain branch turns it into. *)
Definition chainLine (T a x b : str) : str :=
  T ++ lit " " ++ a ++ lit " = " ++ x ++ lit ", " ++ b ++ lit ";".

(** The line [T a = x, b;] in front of its last comma. *)
Definition chainFront (T a x : str) : str :=
  T ++ lit " " ++ a ++ lit " = " ++ x.

Definition chainLineFixed (T a x b zero : str) : str :=
  T ++ lit " " ++ a ++ lit " = " ++ x ++ lit ", " ++ b ++ lit " = " ++ zero ++ lit ";".

(** Scenario B of the specification. *)
Definition scenarioB : str :=
  lit "float i = .2, a;" ++ [NL] ++ lit "for(int j=0;j<8;j++){ a += i; }" ++ [NL].

(** *** First pass *)

Section WithCompiler.
Variable regexpCompiles : str → bool.

(** Pattern 1: [", varName;"] in a multi-declaration. *)
Definition fixChain (code : str) (i : nat) (line : str) (matches : captures)
    (st : state) : result panic state :=
  let varName := group 1 matches in
  if contains line (varName ++ lit " =") then Ok st
  else
    let sameLine :=
      match findStringSubmatch sameLineTypePattern line with
      | Some typeMatch => default [] (zeroValue (group 1 typeMatch))
      | None => []
      end in
    varType ← (if streq sameLine []
               then determineVariableType regexpCompiles varName code (lines st)
                      (Z.of_nat i)
               else Ok sameLine);
    Ok {| lines := <[i := replace1 line (lit ", " ++ varName ++ lit ";")
                          (lit ", " ++ varName ++ lit " = " ++ varType ++ lit ";")]>
                     (lines st);
          uninitializedVars := <[varName := varType]> (uninitializedVars st) |}.

(** Pattern 2: a line that is only ["varName;"]. *)
Definition fixStandalone (code : str) (i : nat) (line : str) (matches : captures)
    (st : state) : result panic state :=
  let varName := group 1 matches in
  if isKeyword varName || contains line (varName ++ lit " =") then Ok st
  else
    '(funcStart, isMainImage) ← indexed (findFunctionScope (lines st) i);
    declaredInMain ←
      (if negb isMainImage && (0 <=? funcStart)%Z
       then declaredInMainImage regexpCompiles (lines st) varName
       else Ok false);
    if declaredInMain : bool then Ok st
    else
      declaredInMain ← declaredInMainImage regexpCompiles (lines st) varName;
      varIsDeclaredElsewhere ←
        (if declaredInMain : bool then Ok true
         else
           match findFirstFunctionLine (lines st) i with
           | Some firstFuncLine =>
               let globalCode := join [NL] (take firstFuncLine (lines st)) in
               declPattern ← mustCompile regexpCompiles (declText varName)
                               (declOf varName);
               Ok (matchString declPattern globalCode)
           | None => Ok false
           end);
      if varIsDeclaredElsewhere : bool then Ok st
      else if usedIn code varName then
        varType ← determineVariableType regexpCompiles varName code (lines st)
                    (Z.of_nat i);
        Ok {| lines := <[i := indentOf line ++ varName ++ lit " = " ++ varType ++ lit ";"]>
                         (lines st);
              uninitializedVars := <[varName := varType]> (uninitializedVars st) |}
      else Ok st.

(** Pattern 3: a typed declaration without initializer. *)
Definition fixBareDecl (i : nat) (trimmed : str) (matches : captures)
    (st : state) : result panic state :=
  let varType := group 1 matches in
  let varName := group 2 matches in
  if contains trimmed (varName ++ lit " =") then Ok st
  else
    '(funcStart, isMainImage) ← indexed (findFunctionScope (lines st) i);
    varIsDeclaredElsewhere ←
      (if negb isMainImage && (0 <=? funcStart)%Z then
         declaredInMain ← declaredInMainImage regexpCompiles (lines st) varName;
         if declaredInMain : bool then Ok true
         else
           let globalCode := join [NL] (take (Z.to_nat funcStart) (lines st)) in
           declPattern ← mustCompile regexpCompiles (declText varName) (declOf varName);
           Ok (matchString declPattern globalCode)
       else Ok false);
    if varIsDeclaredElsewhere : bool then Ok st
    else
      let remainingCode := join [NL] (drop (i + 1) (lines st)) in
      if usedIn remainingCode varName then
        let defaultValue := default (lit "0.0") (zeroValue varType) in
        Ok {| lines := <[i := replace1 trimmed (varName ++ lit ";")
                              (varName ++ lit " = " ++ defaultValue ++ lit ";")]>
                         (lines st);
              uninitializedVars := <[varName := defaultValue]> (uninitializedVars st) |}
      else Ok st.

(** The body of the first loop at index [i]. *)
Definition firstPassLine (code : str) (st : state) (i : nat) : result panic state :=
  line ← indexed (lines st !! i);
  let trimmed := trimSpace line in
  if streq trimmed [] then Ok st
  else
    match findStringSubmatch chainVarPattern line with
    | Some matches => fixChain code i line matches st
    | None =>
        match findStringSubmatch standaloneVarPattern line with
        | Some matches => fixStandalone code i line matches st
        | None =>
            match findStringSubmatch bareDeclPattern trimmed with
            | Some matches => fixBareDecl i trimmed matches st
            | None => Ok st
            end
        end
    end.

(** [for i := range lines], threading the state through a body that may
    panic. *)
Definition forLines (body : state → nat → result panic state) (st : state)
    : result panic state :=
  foldl (λ acc i, st' ← acc; body st' i) (Ok st) (seq 0 (length (lines st))).

(** *** Clean-up pass: assignments without declaration *)

Definition typeOfAssigned (assignValue : str) : str :=
  if contains assignValue (lit "vec2(") then lit "vec2"
  else if contains assignValue (lit "vec3(") then lit "vec3"
  else if contains assignValue (lit "vec4(") then lit "vec4"
  else if contains assignValue (lit ".") && negb (contains assignValue (lit "("))
  then lit "float"
  else lit "float".

Definition cleanupLine (ls : list str) (i : nat) : result panic (list str) :=
  line ← indexed (ls !! i);
  let trimmed := trimSpace line in
  if streq trimmed [] then Ok ls
  else
    match findStringSubmatch assignPattern line with
    | None => Ok ls
    | Some matches =>
        let varName := group 1 matches in
        if isKeyword varName then Ok ls
        else
          let beforeCode := join [NL] (take i ls) in
          declPattern ← mustCompile regexpCompiles (declText varName) (declOf varName);
          if matchString declPattern beforeCode then Ok ls
          else
            '(funcStart, isMainImage) ← indexed (findFunctionScope ls i);
            if negb isMainImage && (0 <=? funcStart)%Z then
              if from_option (matchString declPattern) false (mainImageCode ls)
              then Ok (<[i := []]> ls)
              else
                let assignValue := group 2 matches in
                let varType := typeOfAssigned assignValue in
                Ok (<[i := indentOf line ++ varType ++ lit " " ++ varName
                            ++ lit " = " ++ assignValue ++ lit ";"]> ls)
            else Ok ls
    end.

Definition cleanupPass (ls : list str) : result panic (list str) :=
  foldl (λ acc i, ls' ← acc; cleanupLine ls' i) (Ok ls) (seq 0 (length ls)).

(** The filter that drops blank lines. *)
Definition dropBlankLines (ls : list str) : list str :=
  filter (λ line, streq (trimSpace line) [] = false) ls.

(** *** Second sweep for stand-alone names *)

Definition usedInSweep (text varName : str) : bool :=
  contains text (varName ++ lit " ") || contains text (varName ++ lit ".")
  || contains text (varName ++ lit "+") || contains text (varName ++ lit "-")
  || contains text (varName ++ lit "*") || contains text (varName ++ lit "/")
  || contains text (varName ++ lit "=").

Definition secondPassLine (code : str) (st : state) (i : nat) : result panic state :=
  line ← indexed (lines st !! i);
  let trimmed := trimSpace line in
  if streq trimmed [] then Ok st
  else
    match findStringSubmatch standaloneVarPattern line with
    | None => Ok st
    | Some standaloneMatch =>
        let varName := group 1 standaloneMatch in
        if contains line (varName ++ lit " =") || isKeyword varName then Ok st
        else if usedInSweep code varName then
          match uninitializedVars st !! varName with
          | Some _ => Ok st
          | None =>
              if negb (contains code (varName ++ lit " ="))
                 && negb (contains code (varName ++ lit "="))
              then
                varType ← determineVariableType regexpCompiles varName code (lines st)
                            (Z.of_nat i);
                Ok {| lines := <[i := indentOf line ++ varName ++ lit " = "
                                      ++ varType ++ lit ";"]> (lines st);
                      uninitializedVars := <[varName := varType]> (uninitializedVars st) |}
              else Ok st
          end
        else Ok st
    end.

(** *** Loop pre-initialization *)

(** The eight usage tests of the loop pass. *)
Definition usedInLoop (loopBodyCode varName : str) : bool :=
  contains loopBodyCode (varName ++ lit " ") || contains loopBodyCode (varName ++ lit ".")
  || contains loopBodyCode (varName ++ lit "+") || contains loopBodyCode (varName ++ lit "-")
  || contains loopBodyCode (varName ++ lit "*") || contains loopBodyCode (varName ++ lit "/")
  || contains loopBodyCode (varName ++ lit "=") || contains loopBodyCode (lit "(" ++ varName).

Definition assignedIn (beforeLoop varName : str) : bool :=
  contains beforeLoop (varName ++ lit " =") || contains beforeLoop (varName ++ lit "=").

(** The statement the pass inserts. *)
Definition initStatement (varName defaultValue : str) : str :=
  lit "    " ++ varName ++ lit " = " ++ defaultValue ++ lit ";" ++ [NL].

(** The inner [for varName, defaultValue := range uninitializedVars],
    over the entries in the order the run time yields them.
    [beforeLoop] and [loopBodyCode] were cut before this loop; [code] is
    the variable the insertions update. *)
Fixpoint initVars (loopStart : nat) (beforeLoop loopBodyCode : str)
    (vars : list (str * str)) (code : str) : str :=
  match vars with
  | [] => code
  | (varName, defaultValue) :: vars' =>
      initVars loopStart beforeLoop loopBodyCode vars'
        (if usedInLoop loopBodyCode varName && negb (assignedIn beforeLoop varName)
         then take loopStart code ++ initStatement varName defaultValue
              ++ drop loopStart code
         else code)
  end.

(** The body of the loop over the matches, for the match [m] and the
    order [vars] in which this round's [range] yields the map. *)
Definition processLoop (vars : list (str * str)) (code : str) (m : nat * nat) : str :=
  let loopStart := m.1 in
  let loopEnd := m.2 in
  let beforeLoop := take loopStart code in
  let loopBody := drop loopEnd code in
  match index loopBody (lit "{") with
  | None => code
  | Some braceIdx =>
      let loopBodyStart := loopEnd + braceIdx in
      let loopBodyCode := drop loopBodyStart code in
      initVars loopStart beforeLoop loopBodyCode vars code
  end.

(** [for idx := len(loopMatches) - 1; idx >= 0; idx--] over the matches
    from index [idx] on: the later matches are processed first.  Go picks
    a fresh iteration order at every [range] over a map: [orders idx] is
    the order of the round for the match at index [idx]. *)
Fixpoint processLoops (orders : nat → list (str * str)) (idx : nat)
    (loopMatches : list (nat * nat)) (code : str) : str :=
  match loopMatches with
  | [] => code
  | m :: loopMatches' =>
      processLoop (orders idx) (processLoops orders (S idx) loopMatches' code) m
  end.

Definition loopPass (orders : nat → list (str * str)) (code : str) : str :=
  if contains code (lit "for(") then
    processLoops orders 0 (findAllStringIndex loopPattern code) code
  else code.

(** *** The loop pass, read as a splice

    [ordered pos len ms]: the matches [ms] lie in the text of length
    [len] from offset [pos] on, one after the other. *)
Fixpoint ordered (pos len : nat) (ms : list (nat * nat)) : Prop :=
  match ms with
  | [] => True
  | m :: ms' => pos ≤ m.1 ∧ m.1 ≤ m.2 ∧ m.2 ≤ len ∧ ordered m.2 len ms'
  end.

(** What is put in front of a loop header: nothing when no brace follows
    the header, otherwise one statement for each entry that passes the
    two tests of the inner loop, the entry visited last first. *)
Definition loopInsertion (vars : list (str * str)) (beforeLoop loopBody : str) : str :=
  match index loopBody (lit "{") with
  | None => []
  | Some braceIdx =>
      concat ((λ v, initStatement v.1 v.2)
                <$> reverse (filter (λ v, usedInLoop (drop braceIdx loopBody) v.1
                                          && negb (assignedIn beforeLoop v.1) = true)
                               vars))
  end.

(** The text from offset [pos] of [code] on with the insertions made,
    where [ms] are the matches from index [idx] on: in front of each
    header stands its insertion, computed from the original text in front
    of the header and the text behind it as the later rounds left it. *)
Fixpoint spliceFrom (orders : nat → list (str * str)) (code : str) (pos idx : nat)
    (ms : list (nat * nat)) : str :=
  match ms with
  | [] => drop pos code
  | m :: ms' =>
      let behind := spliceFrom orders code m.2 (S idx) ms' in
      take (m.1 - pos) (drop pos code)
      ++ loopInsertion (orders idx) (take m.1 code) behind
      ++ take (m.2 - m.1) (drop m.1 code)
      ++ behind
  end.

(** A loop written with a space after [for]. *)
Definition spacedLoop : str := lit "for (int j=0;j<8;j++){ a += 1.0; }".

(** A loop whose body reads [a] only in front of a semicolon. *)
Definition semicolonLoop : str := lit "for(int j=0;j<8;j++){ x = a; }".

(** *** The pipeline *)

(** Everything in front of the loop pass: the repaired text and the
    repair-state map. *)
Definition repairPasses (code0 : str) : result panic (str * gmap str str) :=
  let code := removeComments code0 in
  st1 ← forLines (firstPassLine code) {| lines := split NL code; uninitializedVars := ∅ |};
  let code := join [NL] (lines st1) in
  ls2 ← cleanupPass (split NL code);
  let code := join [NL] ls2 in
  let code := join [NL] (dropBlankLines (split NL code)) in
  st3 ← forLines (secondPassLine code)
          {| lines := split NL code; uninitializedVars := uninitializedVars st1 |};
  let code := join [NL] (lines st3) in
  code ← removeOrphanedAssignments regexpCompiles code;
  let code := fixMainImageFragColor code in
  Ok (code, uninitializedVars st3).

(** Go leaves the iteration order of a map unspecified and picks it anew
    at every [range]: [mapOrder idx] is the order the run time picks for
    the round of the loop pass at the match with index [idx]. *)
Variable mapOrder : nat → gmap str str → list (str * str).

Definition fixShaderCode (code : str) : result panic str :=
  '(code', vars) ← repairPasses code;
  Ok (loopPass (λ idx, mapOrder idx vars) code').

End WithCompiler.

End Fixer.

Import Fixer.

(** ** Pass selection and shader assembly: [getMainShaderCode] *)

Module MainShader.

Definition isImagePass (p : ShaderPass) : bool :=
  streq (Type_ p) (lit "image") || streq (Name p) (lit "Image").

(** The loop that looks for the image pass: [mainPass] stays [nil]
    ([None]) when no pass qualifies. *)
Fixpoint findImagePass (passes : list ShaderPass) : option ShaderPass :=
  match passes with
  | [] => None
  | p :: passes' => if isImagePass p then Some p else findImagePass passes'
  end.

(** The selected pass.  [None] is the panic of [shaderData.Passes[0]] on
    an empty pass list. *)
Definition mainPass (shaderData : ShaderData) : option ShaderPass :=
  match findImagePass (Passes shaderData) with
  | Some p => Some p
  | None => Passes shaderData !! 0
  end.

(** The selection criterion in the words of the specification. *)
Definition ImagePass (p : ShaderPass) : Prop :=
  Type_ p = lit "image" ∨ Name p = lit "Image".

(** A two-pass container whose second pass is the image pass. *)
Definition bufferPass : ShaderPass :=
  {| Index := 0; Code := lit "void mainImage(out vec4 c, in vec2 p) { c = vec4(0.0); }";
     Inputs := []; Type_ := lit "buffer"; Name := lit "Buffer A" |}.
Definition imagePass : ShaderPass :=
  {| Index := 1; Code := lit "void mainImage(out vec4 c, in vec2 p) { c = vec4(1.0); }";
     Inputs := []; Type_ := lit "image"; Name := lit "Final" |}.
Definition twoPasses : ShaderData :=
  {| Metadata := None; Passes := [bufferPass; imagePass]; Screenshots := [] |}.

(** A two-pass container whose second pass alone has type "image" and
    whose first pass is named "Image". *)
Definition namedPass : ShaderPass :=
  {| Index := 0; Code := lit "void mainImage(out vec4 c, in vec2 p) { c = vec4(0.5); }";
     Inputs := []; Type_ := lit "buffer"; Name := lit "Image" |}.
Definition namedFirst : ShaderData :=
  {| Metadata := None; Passes := [namedPass; imagePass]; Screenshots := [] |}.

Definition NUL : ascii := "000"%char.

Definition vertexShader : str :=
  lit "#version 330 core
layout(location = 0) in vec2 aPos;
layout(location = 1) in vec2 aTexCoord;
out vec2 fragCoord;

void main() {
    fragCoord = aTexCoord;
    gl_Position = vec4(aPos * 2.0 - 1.0, 0.0, 1.0);
}" ++ [NUL].

Definition fragmentShaderTemplate (shaderCode : str) : str :=
  lit "#version 330 core
in vec2 fragCoord;
out vec4 fragColor;

uniform vec3 iResolution;
uniform float iTime;
uniform float iTimeDelta;
uniform int iFrame;
uniform float iFrameRate;
uniform vec4 iMouse;
uniform vec4 iDate;
uniform float iSampleRate;
uniform vec3 iChannelResolution[4];
uniform float iChannelTime[4];

uniform sampler2D iChannel0;
uniform sampler2D iChannel1;
uniform sampler2D iChannel2;
uniform sampler2D iChannel3;
uniform float iFade;

" ++ shaderCode ++ lit "

void main() {
    vec2 fragCoordScreen = fragCoord * iResolution.xy;
    mainImage(fragColor, fragCoordScreen);
    fragColor.rgb *= iFade;
}" ++ [NUL].

Section WithRunTime.
Variable regexpCompiles : str → bool.
Variable mapOrder : nat → gmap str str → list (str * str).

(** The vertex and fragment shader texts; the error result is always
    [nil]. *)
Definition getMainShaderCode (shaderData : ShaderData) : result panic (str * str) :=
  pass ← indexed (mainPass shaderData);
  shaderCode ← fixShaderCode regexpCompiles mapOrder (Code pass);
  let fragmentShader := removeComments (fragmentShaderTemplate shaderCode) in
  Ok (vertexShader, fragmentShader).

End WithRunTime.

End MainShader.

(** The start-up sequence of the two callers: load the container, stop on
    an error ([log.Fatalf]), otherwise build the shader texts. *)
Section Startup.
Variable jsonUnmarshal : str → option ShaderData.
Variable regexpCompiles : str → bool.
Variable mapOrder : nat → gmap str str → list (str * str).

Definition startupShaders (shaderJSONData : str)
    : result loadError (result panic (str * str)) :=
  match loadEmbeddedShader jsonUnmarshal shaderJSONData with
  | Err e => Err e
  | Ok shaderData =>
      Ok (MainShader.getMainShaderCode regexpCompiles mapOrder shaderData)
  end.
End Startup.

(** The JSON text of the two-pass container. *)
Definition quoted (s : str) : str := DQUOTE :: s ++ [DQUOTE].

Definition twoPassesJSON : str :=
  lit "{" ++ quoted (lit "passes") ++ lit ":[{"
  ++ quoted (lit "code") ++ lit ":" ++ quoted (Code MainShader.bufferPass) ++ lit ","
  ++ quoted (lit "type") ++ lit ":" ++ quoted (lit "buffer") ++ lit ","
  ++ quoted (lit "name") ++ lit ":" ++ quoted (lit "Buffer A") ++ lit "},{"
  ++ quoted (lit "index") ++ lit ":1,"
  ++ quoted (lit "code") ++ lit ":" ++ quoted (Code MainShader.imagePass) ++ lit ","
  ++ quoted (lit "type") ++ lit ":" ++ quoted (lit "image") ++ lit ","
  ++ quoted (lit "name") ++ lit ":" ++ quoted (lit "Final") ++ lit "}]}".

(** A stand-in for the decoder that knows two texts: a container with no
    passes and the two-pass container. *)
Definition sampleUnmarshal (s : str) : option ShaderData :=
  if streq s (lit "{}")
  then Some {| Metadata := None; Passes := []; Screenshots := [] |}
  else if streq s twoPassesJSON then Some MainShader.twoPasses
  else None.

(** A stand-in for the pattern compiler that knows the four patterns
    built at run time for a handful of short names and refuses every
    other text. *)
Definition sampleNames : list str :=
  lit <$> [ "a"; "b"; "ab"; "p"; "w"; "col"; "bpos" ]%string.

Definition sampleCompiles (text : str) : bool :=
  existsb (λ varName,
             streq text (declText varName) || streq text (declMatText varName)
             || streq text (paramText varName) || streq text (swizzleText varName))
    sampleNames.

(** ** Start-up mode: [detectScreensaverMode] and [main] *)

Module Launch.

Inductive ScreensaverMode : Type :=
| ModeScreensaver
| ModeConfig
| ModePreview.

(** [strconv.ParseUint(s, 10, 64)]; [None] is an error result.  The
    loop over the digits: a byte that is not a decimal digit is a syntax
    error, and a value that leaves the 64-bit range is a range error. *)
Definition maxUint64 : N := 18446744073709551615.

Definition digitValue (c : ascii) : option N :=
  if inRange "0" "9" c then Some (N.of_nat (nat_of_ascii c - 48)) else None.

Fixpoint parseDigits (s : str) (n : N) : option N :=
  match s with
  | [] => Some n
  | c :: s' =>
      d ← digitValue c;
      if (maxUint64 / 10 + 1 <=? n)%N then None
      else
        let n1 := (n * 10 + d)%N in
        if (maxUint64 <? n1)%N then None else parseDigits s' n1
  end.

Definition parseUint (s : str) : option N :=
  match s with
  | [] => None
  | _ => parseDigits s 0
  end.

(** The number a text of decimal digits denotes. *)
Definition decimalValue (s : str) : N :=
  foldl (λ n c, (n * 10 + N.of_nat (nat_of_ascii c - 48))%N) 0%N s.

(** [strings.ToLower]: a text of ASCII bytes is mapped byte by byte; a
    text with a byte from 0x80 on goes through
    [strings.Map(unicode.ToLower, s)], which is taken as given. *)
Definition lowerByte (c : ascii) : ascii :=
  if inRange "A" "Z" c then ascii_of_nat (nat_of_ascii c + 32) else c.

Definition isASCII (s : str) : bool := forallb (λ c, nat_of_ascii c <? 128) s.

Section Detect.

Variable unicodeLower : str → str.

(** The width of [uintptr] on the build target, in bits. *)
Variable uintptrBits : N.

Definition toLower (s : str) : str :=
  if isASCII s then lowerByte <$> s else unicodeLower s.

(** [hwnd] after the guarded assignment [hwnd = uintptr(parsedHWND)];
    it keeps its zero value when the text does not parse. *)
Definition parseHandle (s : str) : N :=
  match parseUint s with
  | Some parsedHWND => (parsedHWND mod 2 ^ uintptrBits)%N
  | None => 0%N
  end.

(** [for i, arg := range args]; [rest] holds the arguments behind
    [arg], so that [args[i+1]] is its head. *)
Fixpoint scanArgs (args : list str) : ScreensaverMode * N :=
  match args with
  | [] => (ModeScreensaver, 0%N)
  | arg :: rest =>
      let argLower := toLower arg in
      if streq argLower (lit "/s") then (ModeScreensaver, 0%N)
      else if streq argLower (lit "/c") || hasPrefix argLower (lit "/c:")
      then (ModeConfig, 0%N)
      else if streq argLower (lit "/p") || hasPrefix argLower (lit "/p:") then
        let hwnd :=
          if hasPrefix argLower (lit "/p:") then parseHandle (drop 3 argLower)
          else match rest with
               | next :: _ => parseHandle next
               | [] => 0%N
               end in
        if negb (hwnd =? 0)%N then (ModePreview, hwnd) else (ModePreview, 0%N)
      else scanArgs rest
  end.

(** [osArgs] is [os.Args]; [None] is the panic of [os.Args[1:]] on an
    empty argument vector. *)
Definition detectScreensaverMode (osArgs : list str) : option (ScreensaverMode * N) :=
  match osArgs with
  | [] => None
  | _ :: args =>
      if length args =? 0 then Some (ModeScreensaver, 0%N)
      else Some (scanArgs args)
  end.

(** Whether an argument is one of the switches the loop acts on. *)
Definition isSwitch (arg : str) : bool :=
  let argLower := toLower arg in
  streq argLower (lit "/s")
  || streq argLower (lit "/c") || hasPrefix argLower (lit "/c:")
  || streq argLower (lit "/p") || hasPrefix argLower (lit "/p:").

(** The function [main] hands control to. *)
Inductive started : Type :=
| RunConfigMode
| RunPreviewMode (parentHWND : N)
| RunScreensaverMode.

Definition FORCE_SETTINGS_MODE : bool := false.

Definition main (osArgs : list str) : option started :=
  if FORCE_SETTINGS_MODE then Some RunConfigMode
  else
    '(mode, parentHWND) ← detectScreensaverMode osArgs;
    Some match mode with
         | ModeConfig => RunConfigMode
         | ModePreview => RunPreviewMode parentHWND
         | ModeScreensaver => RunScreensaverMode
         end.

End Detect.

End Launch.

(** ** Predicates of the properties *)

(** [noPair a b t]: the byte [a] is nowhere in [t] directly followed
    by the byte [b]. *)
Definition noPair (a b : ascii) (t : str) : Prop := ∀ p r, t ≠ p ++ [a; b] ++ r.

(** The condition under which nothing is rewritten from [before] on: each
    control byte of [rest] lies outside a string literal or directly
    behind an escaping backslash. *)
Definition untouched (before rest : str) : Prop :=
  ∀ i c, rest !! i = Some c → Escaper.isControl c = true →
    Escaper.insideString (rev (take i rest) ++ before) = true →
    Escaper.escapeConsumed (rev (take i rest) ++ before) = true.

(** The scanner is in the same state behind a prefix of the input and
    behind what it wrote for that prefix. *)
Definition inStep (before out : str) : Prop :=
  Escaper.backslashCount out = Escaper.backslashCount before
  ∧ Escaper.realQuotes out = Escaper.realQuotes before.

(** [groupsOk Q r]: whatever a capturing group of [r] can match
    satisfies [Q] at the group's number. *)
Fixpoint groupsOk (Q : nat → str → Prop) (r : regex) : Prop :=
  match r with
  | Group n r1 => (∀ m, lang r1 m → Q n m) ∧ groupsOk Q r1
  | Cat r1 r2 | Alt r1 r2 => groupsOk Q r1 ∧ groupsOk Q r2
  | Star r1 => groupsOk Q r1
  | _ => True
  end.

Definition capsOk (Q : nat → str → Prop) (caps : captures) : Prop :=
  Forall (λ e, Q e.1 e.2) caps.

(** A capture of a word class. *)
Definition wordCapture (_ : nat) (v : str) : Prop := Forall (λ c, isWord c = true) v.

(** What the matcher guarantees for [r] when the groups of [r] are
    [groupsOk]: the text consumed is in the language of [r], and the
    groups recorded so far all satisfy [Q]. *)
Definition caps_at {A : Type} (Q : nat → str → Prop) (r : regex) : Prop :=
  ∀ prev s caps (k : option ascii → str → captures → option A) a,
    capsOk Q caps →
    run r prev s caps k = Some a →
    ∃ m s' prev' caps',
      s = m ++ s' ∧ lang r m ∧ capsOk Q caps' ∧ k prev' s' caps' = Some a.

(** A step of a pass that does not panic on an index: it panics in
    [regexp.MustCompile] or returns a state with as many lines as it was
    given. *)
Definition keepsLength (st : Fixer.state) (r : result panic Fixer.state) : Prop :=
  r = Err BadPattern
  ∨ ∃ st', r = Ok st' ∧ length (Fixer.lines st') = length (Fixer.lines st).

(** What the passes may record in the repair-state map: a name made of
    word bytes, with one of the six zero-value initializers. *)
Definition recorded (vars : gmap str str) : Prop :=
  map_Forall (λ varName zero,
                Forall (λ c, isWord c = true) varName ∧ zero ∈ zeroValues) vars.

(** The elements of [l] at the positions where [mask] holds [true]. *)
Fixpoint selected {A : Type} (mask : list bool) (l : list A) : list A :=
  match mask, l with
  | b :: mask', x :: l' => if b then x :: selected mask' l' else selected mask' l'
  | _, _ => []
  end.

(** A compiler that answers [b] on the text [text0] and as
    [regexpCompiles] on every other text. *)
Definition patched (regexpCompiles : str → bool) (text0 : str) (b : bool)
    : str → bool :=
  λ text, if streq text text0 then b else regexpCompiles text.

(** * Properties *)

(** ** Bytes and strings *)

Lemma byteEq_true (a b : ascii) : byteEq a b = true ↔ a = b.
Proof. unfold byteEq. apply Ascii.eqb_eq. Qed.

Lemma byteEq_false (a b : ascii) : byteEq a b = false ↔ a ≠ b.
Proof. unfold byteEq. apply Ascii.eqb_neq. Qed.

Lemma byteEq_refl (a : ascii) : byteEq a a = true.
Proof. by apply byteEq_true. Qed.

Lemma streq_true (a b : str) : streq a b = true ↔ a = b.
Proof.
  revert b. induction a as [|x a IH]; intros [|y b]; simpl; try (split; congruence).
  rewrite andb_true_iff, byteEq_true, IH. split.
  - by intros [-> ->].
  - intros [= -> ->]. done.
Qed.

Lemma streq_refl (a : str) : streq a a = true.
Proof. by apply streq_true. Qed.

(** ** Pass selection *)

Module MainShaderFacts.
Import MainShader.

Lemma isImagePass_true (p : ShaderPass) : isImagePass p = true ↔ ImagePass p.
Proof.
  unfold isImagePass, ImagePass. by rewrite orb_true_iff, !streq_true.
Qed.

Lemma isImagePass_false (p : ShaderPass) : isImagePass p = false ↔ ¬ ImagePass p.
Proof. rewrite <- isImagePass_true. by destruct (isImagePass p). Qed.

Lemma findImagePass_Some (passes : list ShaderPass) (p : ShaderPass) :
  findImagePass passes = Some p →
  ∃ i, passes !! i = Some p ∧ ImagePass p
       ∧ ∀ j q, j < i → passes !! j = Some q → ¬ ImagePass q.
Proof.
  induction passes as [|q passes IH]; simpl; [done|].
  destruct (isImagePass q) eqn:Hq.
  - intros [= ->]. exists 0. split_and!; [done|by apply isImagePass_true|].
    intros j ? Hj. lia.
  - intros Hfind. destruct (IH Hfind) as (i & Hi & Hp & Hbefore).
    exists (S i). split_and!; [done..|].
    intros [|j] q' Hj; simpl.
    + intros [= <-]. by apply isImagePass_false.
    + apply Hbefore. lia.
Qed.

Lemma findImagePass_None (passes : list ShaderPass) :
  findImagePass passes = None → ∀ q, q ∈ passes → ¬ ImagePass q.
Proof.
  induction passes as [|p passes IH]; simpl; intros Hfind q Hq.
  - by apply elem_of_nil in Hq.
  - destruct (isImagePass p) eqn:Hp; [done|].
    apply elem_of_cons in Hq as [->|Hq]; [by apply isImagePass_false|by apply IH].
Qed.

(** C2, as the code has it: on a non-empty pass list the selected pass
    is the first one, in sequence order, whose type is "image" or whose
    name is "Image", and the first pass of the list when there is none; a
    two-pass list whose second pass has type "image" and whose first pass
    neither has that type nor is named "Image" selects the second pass. *)
Theorem mainPass_first_image_else_first (shaderData : ShaderData) :
  Passes shaderData ≠ [] →
  (∃ p, mainPass shaderData = Some p
        ∧ ((∃ i, Passes shaderData !! i = Some p ∧ ImagePass p
                 ∧ ∀ j q, j < i → Passes shaderData !! j = Some q → ¬ ImagePass q)
           ∨ ((∀ q, q ∈ Passes shaderData → ¬ ImagePass q)
              ∧ Passes shaderData !! 0 = Some p)))
  ∧ (∀ p1 p2, Passes shaderData = [p1; p2] → ¬ ImagePass p1 →
              Type_ p2 = lit "image" → mainPass shaderData = Some p2).
Proof.
  intros Hne. split.
  - unfold mainPass. destruct (findImagePass (Passes shaderData)) as [p|] eqn:Hfind.
    + exists p. split; [done|]. left. by apply findImagePass_Some.
    + destruct (Passes shaderData) as [|p0 rest] eqn:Hp; [done|].
      exists p0. split; [done|]. right. split; [|done].
      by apply findImagePass_None.
  - intros p1 p2 Hp Hp1 Hp2. unfold mainPass. rewrite Hp. simpl.
    apply isImagePass_false in Hp1. rewrite Hp1.
    assert (isImagePass p2 = true) as ->; [|done].
    apply isImagePass_true. by left.
Qed.

Lemma mainPass_first_image_else_first_witness :
  mainPass twoPasses = Some imagePass.
Proof.
  assert (Passes twoPasses ≠ []) as Hne by done.
  destruct (mainPass_first_image_else_first twoPasses Hne) as [_ Htwo].
  apply (Htwo bufferPass imagePass); [reflexivity| |reflexivity].
  intros [H|H]; vm_compute in H; discriminate.
Defined.

(** C2 as stated fails: in a two-pass list where only the second pass
    has type "image" but the first pass is named "Image", the first pass
    is selected. *)
Lemma mainPass_named_first_pass_selected :
  Passes namedFirst = [namedPass; imagePass]
  ∧ Type_ namedPass ≠ lit "image"
  ∧ Type_ imagePass = lit "image"
  ∧ mainPass namedFirst = Some namedPass
  ∧ mainPass namedFirst ≠ Some imagePass.
Proof. split_and!; [reflexivity|discriminate|reflexivity|reflexivity|discriminate]. Qed.

End MainShaderFacts.

(** ** String-literal escaper *)

Module EscaperFacts.
Import Escaper.

Lemma escapeOf_plain (c : ascii) : isControl c = false → escapeOf c = [c].
Proof.
  intros Hc. unfold escapeOf. rewrite Hc.
  destruct (byteEq c NL) eqn:H1; [apply byteEq_true in H1; by subst|].
  destruct (byteEq c CR) eqn:H2; [apply byteEq_true in H2; by subst|].
  destruct (byteEq c TAB) eqn:H3; [apply byteEq_true in H3; by subst|].
  done.
Qed.

(** What one iteration writes and how it moves the two flags. *)
Lemma step_spec (before : str) (st : state) (c : ascii) :
  escapeNext st = escapeConsumed before →
  inString st = insideString before →
  result_ (step before st c) = result_ st ++ emitted before c
  ∧ escapeNext (step before st c) = escapeConsumed (c :: before)
  ∧ inString (step before st c) = insideString (c :: before).
Proof.
  unfold emitted, step, escapeConsumed, insideString. simpl.
  intros Hesc Hin.
  assert (Nat.even (backslashCount before) = negb (escapeNext st)) as Heven.
  { by rewrite <- Nat.negb_odd, <- Hesc. }
  rewrite Heven, <- Hesc, <- Hin.
  destruct (escapeNext st) eqn:He; simpl.
  - rewrite !andb_false_r. simpl.
    split_and!; [done| |done].
    destruct (byteEq c BACKSLASH); [|done].
    by rewrite Nat.odd_succ, Heven.
  - rewrite !andb_true_r.
    destruct (byteEq c BACKSLASH) eqn:Hb.
    + apply byteEq_true in Hb. subst c. simpl.
      rewrite Nat.odd_succ, Heven.
      split_and!; [|done..]. by destruct (inString st).
    + destruct (byteEq c DQUOTE) eqn:Hq.
      * apply byteEq_true in Hq. subst c.
        split_and!; [by destruct (inString st)|done|].
        simpl. by rewrite Nat.odd_succ, <- Nat.negb_odd, <- Hin.
      * simpl. rewrite <- Hin.
        destruct (inString st); simpl; split_and!; done.
Qed.

Lemma loop_spec (rest before : str) (st : state) :
  escapeNext st = escapeConsumed before →
  inString st = insideString before →
  result_ (loop before rest st) = result_ st ++ emittedFrom before rest.
Proof.
  revert before st. induction rest as [|c rest IH]; intros before st Hesc Hin; simpl.
  - by rewrite app_nil_r.
  - destruct (step_spec before st c Hesc Hin) as (Hres & Hesc' & Hin').
    rewrite (IH _ _ Hesc' Hin'), Hres. by rewrite <- app_assoc.
Qed.

Lemma escaped_emittedFrom (data : str) : escaped data = emittedFrom [] data.
Proof. unfold escaped. by rewrite loop_spec. Qed.

Lemma escapeOf_no_control (c : ascii) : forallb (λ b, negb (isControl b)) (escapeOf c) = true.
Proof.
  destruct c as [[] [] [] [] [] [] [] []]; vm_compute; reflexivity.
Qed.

(** C7, as the code has it: [preprocessJSON] never fails, and its output
    is the input with each byte replaced by what [emitted] gives for it.
    Inside a string literal (quotes toggle the state when an even number
    of backslashes stands in front of them) a byte that is not
    escape-consumed is written as its escape: newline, carriage return
    and tab as backslash-n, backslash-r and backslash-t, any other byte
    below 0x20 as backslash-u-00 and two hexadecimal digits, so that no
    control byte is written for it; a byte outside a string literal and
    a byte that directly follows an escaping backslash are copied. *)
Theorem preprocessJSON_escapes_unconsumed (data : str) :
  preprocessJSON data = Ok (emittedFrom [] data)
  ∧ (∀ before c, insideString before = true → escapeConsumed before = false →
       emitted before c = escapeOf c
       ∧ forallb (λ b, negb (isControl b)) (emitted before c) = true)
  ∧ (escapeOf NL = lit "\n" ∧ escapeOf CR = lit "\r" ∧ escapeOf TAB = lit "\t")
  ∧ (∀ c, isControl c = true → c ≠ NL → c ≠ CR → c ≠ TAB →
       escapeOf c = lit "\u00" ++ [hexDigit (nat_of_ascii c / 16);
                                   hexDigit (nat_of_ascii c mod 16)])
  ∧ (∀ c, isControl c = false → escapeOf c = [c])
  ∧ (∀ before c, insideString before = false → emitted before c = [c])
  ∧ (∀ before c, escapeConsumed before = true → emitted before c = [c]).
Proof.
  split_and!.
  - unfold preprocessJSON. by rewrite escaped_emittedFrom.
  - intros before c Hin Hesc. unfold emitted. rewrite Hin, Hesc. simpl.
    split; [done|apply escapeOf_no_control].
  - done.
  - done.
  - done.
  - intros c Hc H1 H2 H3. unfold escapeOf. rewrite Hc.
    apply byteEq_false in H1, H2, H3. by rewrite H1, H2, H3.
  - apply escapeOf_plain.
  - intros before c Hin. unfold emitted. by rewrite Hin.
  - intros before c Hesc. unfold emitted. rewrite Hesc. by rewrite andb_false_r.
Qed.

(** C7 as stated fails: in the four bytes quote, backslash, newline,
    quote the newline lies inside the string literal, and it is copied
    raw because it follows a backslash. *)
Lemma preprocessJSON_copies_newline_after_backslash :
  let data := [DQUOTE; BACKSLASH; NL; DQUOTE] in
  preprocessJSON data = Ok data
  ∧ insideString (rev (take 2 data)) = true
  ∧ data !! 2 = Some NL
  ∧ isControl NL = true
  ∧ escaped data ≠ emittedAsSpecifiedFrom [] data.
Proof. vm_compute. split_and!; try reflexivity. discriminate. Qed.

End EscaperFacts.

(** ** Loader *)

Section LoaderFacts.
Variable jsonUnmarshal : str → option ShaderData.

(** [json.Unmarshal] rejects the empty input ("unexpected end of JSON
      input"). *)
Hypothesis unmarshal_empty : jsonUnmarshal [] = None.

Lemma length_zero_nil (data : str) : (length data =? 0) = true ↔ data = [].
Proof. rewrite Nat.eqb_eq. by destruct data. Qed.

(** C1: the loader fails exactly when the escaped container bytes cannot
    be decoded or the decoded container has no passes; for a container
    with an empty pass list it returns the no-passes error, and the
    start-up sequence stops with that error before any shader text is
    built. *)
Theorem loadEmbeddedShader_fails_iff (data : str) :
  let decoded := jsonUnmarshal (Escaper.escaped data) in
  ((∃ e, loadEmbeddedShader jsonUnmarshal data = Err e)
   ↔ (decoded = None ∨ ∃ d, decoded = Some d ∧ Passes d = []))
  ∧ (∀ d, decoded = Some d → Passes d = [] →
       loadEmbeddedShader jsonUnmarshal data = Err ErrNoPasses
       ∧ ∀ regexpCompiles mapOrder,
           startupShaders jsonUnmarshal regexpCompiles mapOrder data = Err ErrNoPasses).
Proof.
  intros decoded. unfold startupShaders, loadEmbeddedShader, Escaper.preprocessJSON.
  fold decoded.
  destruct (length data =? 0) eqn:Hlen.
  - apply length_zero_nil in Hlen. subst data.
    assert (decoded = None) as Hd by (subst decoded; apply unmarshal_empty).
    rewrite Hd. split; [|done].
    split; [by left|by eexists].
  - destruct decoded as [sd|]; [|split; [split; [by left|by eexists]|done]].
    destruct (length (Passes sd) =? 0) eqn:Hp.
    + apply Nat.eqb_eq in Hp. apply nil_length_inv in Hp.
      split; [split; [intros _; right; by exists sd|by eexists]|done].
    + apply Nat.eqb_neq in Hp.
      split.
      * split; [by intros [e [=]]|].
        intros [[=]|(d & [= <-] & Hnil)]. rewrite Hnil in Hp. done.
      * intros d [= <-] Hnil. rewrite Hnil in Hp. done.
Qed.

End LoaderFacts.

Lemma loadEmbeddedShader_fails_iff_witness :
  loadEmbeddedShader sampleUnmarshal (lit "{}") = Err ErrNoPasses.
Proof.
  assert (sampleUnmarshal [] = None) as Hempty by reflexivity.
  destruct (loadEmbeddedShader_fails_iff sampleUnmarshal Hempty (lit "{}")) as [_ H].
  apply (H {| Metadata := None; Passes := []; Screenshots := [] |}); reflexivity.
Defined.

(** ** Comment stripper *)

Module CommentsFacts.
Import Comments.

Lemma linesLoop_trace (lines : list str) (b : bool) (result : str) :
  linesLoop lines b result = result ++ concat (contribution emits <$> trace b lines).
Proof.
  revert b result. induction lines as [|line lines IH]; intros b result; simpl.
  - by rewrite app_nil_r.
  - destruct (scanLine b line) as [p b'] eqn:Hscan. simpl.
    rewrite IH. unfold contribution at 2. simpl.
    destruct (emits p b'); simpl; by rewrite <- ?app_assoc.
Qed.

(** C3, as the code has it: the output is, line by line and in order, the
    processed line followed by a newline for exactly the lines that have
    non-blank content after stripping or after which no block comment is
    open; a line is dropped exactly when it is blank after stripping and a
    block comment is still open after it. *)
Theorem removeComments_emits_per_line (code : str) :
  removeComments code
  = concat (contribution emits <$> trace false (split NL code))
  ∧ (∀ processedLine inBlockComment,
       emits processedLine inBlockComment = true
       ↔ (blank processedLine = false ∨ inBlockComment = false)).
Proof.
  split.
  - unfold removeComments. by rewrite linesLoop_trace.
  - intros p b. unfold emits. rewrite orb_true_iff, !negb_true_iff. done.
Qed.

(** C3 as stated fails in both directions: the only line of the empty text
    is blank with no block comment open, and it is emitted; the only line
    of a text that just opens a block comment is blank with the comment
    still open, and it is dropped. *)
Lemma removeComments_not_as_specified :
  removeComments [] = [NL]
  ∧ concat (contribution emitsAsSpecified <$> trace false (split NL [])) = []
  ∧ removeComments (lit "/*") = []
  ∧ concat (contribution emitsAsSpecified <$> trace false (split NL (lit "/*"))) = [NL].
Proof. vm_compute. done. Qed.

(** *** Stripped text holds no comment *)

Lemma scanLine_normal (c d : ascii) (rest : str) :
  scanLine false (c :: d :: rest)
  = if byteEq c "/" && byteEq d "*" then scanLine true rest
    else if byteEq c "/" && byteEq d "/" then ([], false)
    else (c :: (scanLine false (d :: rest)).1, (scanLine false (d :: rest)).2).
Proof.
  change (scanLine false (c :: d :: rest))
    with (if byteEq c "/" && byteEq d "*" then scanLine true rest
          else if byteEq c "/" && byteEq d "/" then ([], false)
          else let '(out, b) := scanLine false (d :: rest) in (c :: out, b)).
  by destruct (scanLine false (d :: rest)).
Qed.

Lemma scanLine_block (c d : ascii) (rest : str) :
  scanLine true (c :: d :: rest)
  = if byteEq c "*" && byteEq d "/" then scanLine false rest
    else scanLine true (d :: rest).
Proof. reflexivity. Qed.

Local Arguments scanLine : simpl never.

Lemma scanLine_plain (c : ascii) (l : str) :
  byteEq c "/" = false →
  scanLine false (c :: l) = (c :: (scanLine false l).1, (scanLine false l).2).
Proof.
  intros Hc. destruct l as [|d l']; [done|].
  by rewrite scanLine_normal, Hc.
Qed.

Lemma scanLine_clean_aux (n : nat) :
  ∀ (l : str) (b : bool), length l ≤ n →
    scanLine false (scanLine b l).1 = ((scanLine b l).1, false).
Proof.
  induction n as [|n IH]; intros l b Hlen.
  - destruct l; [|simpl in Hlen; lia]. by destruct b.
  - destruct l as [|c [|d rest]].
    + by destruct b.
    + by destruct b.
    + simpl in Hlen. destruct b.
      * rewrite scanLine_block.
        destruct (byteEq c "*" && byteEq d "/"); apply IH; simpl; lia.
      * rewrite scanLine_normal.
        destruct (byteEq c "/" && byteEq d "*") eqn:Hblock; [apply IH; simpl; lia|].
        destruct (byteEq c "/" && byteEq d "/") eqn:Hline; [done|].
        pose proof (IH (d :: rest) false ltac:(simpl; lia)) as IHd.
        cbn [fst snd].
        destruct (byteEq c "/") eqn:Hc.
        -- simpl in Hblock, Hline.
           rewrite (scanLine_plain d rest Hline) in IHd |- *.
           cbn [fst snd] in IHd |- *.
           rewrite scanLine_normal, Hc, Hblock, Hline. cbn [andb].
           by rewrite IHd.
        -- rewrite (scanLine_plain c _ Hc). by rewrite IHd.
Qed.

Lemma scanLine_clean (l : str) (b : bool) :
  scanLine false (scanLine b l).1 = ((scanLine b l).1, false).
Proof. by apply (scanLine_clean_aux (length l)). Qed.

Lemma scanLine_bytes_aux (n : nat) :
  ∀ (l : str) (b : bool) (x : ascii), length l ≤ n → x ∈ (scanLine b l).1 → x ∈ l.
Proof.
  induction n as [|n IH]; intros l b x Hlen.
  - destruct l; [|simpl in Hlen; lia]. by destruct b.
  - destruct l as [|c [|d rest]].
    + by destruct b.
    + destruct b; [intros H; by apply elem_of_nil in H|done].
    + simpl in Hlen. destruct b.
      * rewrite scanLine_block.
        destruct (byteEq c "*" && byteEq d "/"); intros H; apply IH in H; simpl; try lia.
        -- by do 2 apply list_elem_of_further.
        -- by apply list_elem_of_further.
      * rewrite scanLine_normal.
        destruct (byteEq c "/" && byteEq d "*").
        { intros H; apply IH in H; simpl; try lia. by do 2 apply list_elem_of_further. }
        destruct (byteEq c "/" && byteEq d "/").
        { intros H. by apply elem_of_nil in H. }
        cbn [fst]. intros [->|H]%elem_of_cons; [by left|].
        right. apply IH in H; [done|simpl; lia].
Qed.

Lemma scanLine_bytes (l : str) (b : bool) (x : ascii) :
  x ∈ (scanLine b l).1 → x ∈ l.
Proof. by apply (scanLine_bytes_aux (length l)). Qed.

(** *** Splitting and joining lines *)

Lemma split_cons (sep : ascii) (s : str) : ∃ l ls, split sep s = l :: ls.
Proof.
  induction s as [|c s (l & ls & IH)]; simpl; [by eexists _, _|].
  destruct (byteEq c sep); [by eexists _, _|]. rewrite IH. by eexists _, _.
Qed.

Lemma split_no_sep (sep : ascii) (s l : str) : l ∈ split sep s → sep ∉ l.
Proof.
  revert l. induction s as [|c s IH]; simpl; intros l Hl.
  - apply list_elem_of_singleton in Hl as ->. apply not_elem_of_nil.
  - destruct (byteEq c sep) eqn:Hc.
    + apply elem_of_cons in Hl as [->|Hl]; [apply not_elem_of_nil|by apply IH].
    + destruct (split_cons sep s) as (l0 & ls & Hs). rewrite Hs in Hl, IH.
      apply elem_of_cons in Hl as [->|Hl].
      * apply not_elem_of_cons. split.
        -- apply byteEq_false in Hc. congruence.
        -- apply IH. by left.
      * apply IH. by right.
Qed.

Lemma split_line_app (sep : ascii) (o t : str) :
  sep ∉ o → split sep (o ++ sep :: t) = o :: split sep t.
Proof.
  induction o as [|c o IH]; simpl; intros Ho.
  - by rewrite byteEq_refl.
  - apply not_elem_of_cons in Ho as [Hc Ho].
    assert (byteEq c sep = false) as -> by (apply byteEq_false; congruence).
    by rewrite (IH Ho).
Qed.

Lemma split_terminated_lines (sep : ascii) (os : list str) :
  (∀ o, o ∈ os → sep ∉ o) →
  split sep (concat ((λ o, o ++ [sep]) <$> os)) = os ++ [[]].
Proof.
  induction os as [|o os IH]; intros Hos; [done|].
  rewrite fmap_cons, concat_cons, <- app_assoc. simpl.
  rewrite split_line_app by (apply Hos; by left).
  rewrite IH; [done|]. intros o' Ho'. apply Hos. by right.
Qed.

(** *** Stripping stripped text *)

Lemma contribution_written (tr : list (str * bool)) :
  concat (contribution emits <$> tr) = concat ((λ o, o ++ [NL]) <$> written tr).
Proof.
  unfold written. induction tr as [|r tr IH]; [done|].
  rewrite fmap_cons, concat_cons, IH, filter_cons. unfold contribution at 1.
  destruct (decide (emits r.1 r.2 = true)) as [->|Hne]; [done|].
  apply not_true_is_false in Hne. by rewrite Hne.
Qed.

Lemma trace_scanned (b : bool) (lines : list str) (r : str * bool) :
  r ∈ trace b lines → ∃ b' line, line ∈ lines ∧ r = scanLine b' line.
Proof.
  revert b. induction lines as [|line lines IH]; simpl; intros b Hr.
  - by apply elem_of_nil in Hr.
  - apply elem_of_cons in Hr as [->|Hr].
    + exists b, line. split; [by left|done].
    + destruct (IH _ Hr) as (b' & line' & Hin & ->).
      exists b', line'. split; [by right|done].
Qed.

Lemma linesLoop_clean (os : list str) (result : str) :
  (∀ o, o ∈ os → scanLine false o = (o, false)) →
  linesLoop (os ++ [[]]) false result
  = result ++ concat ((λ o, o ++ [NL]) <$> os) ++ [NL].
Proof.
  revert result. induction os as [|o os IH]; intros result Hos.
  - done.
  - cbn [app linesLoop]. rewrite (Hos o) by by left.
    assert (emits o false = true) as -> by (unfold emits; by rewrite orb_true_r).
    rewrite IH by (intros o' Ho'; apply Hos; by right).
    rewrite fmap_cons, concat_cons. by rewrite <- !app_assoc.
Qed.

(** C4, as the code has it: stripping already stripped text removes
    nothing and adds one newline, because [strings.Split] yields an empty
    last line for text that ends in a newline (and one empty line for the
    empty text) and that line is written back. *)
Theorem removeComments_twice (code : str) :
  removeComments (removeComments code) = removeComments code ++ [NL].
Proof.
  assert (removeComments code
          = concat (contribution emits <$> trace false (split NL code))) as Hout.
  { unfold removeComments. by rewrite linesLoop_trace. }
  rewrite contribution_written in Hout.
  set (os := written (trace false (split NL code))) in *.
  assert (∀ o, o ∈ os → scanLine false o = (o, false) ∧ NL ∉ o) as Hos.
  { intros o Ho. unfold os, written in Ho.
    apply list_elem_of_fmap in Ho as (r & -> & Hr).
    apply list_elem_of_filter in Hr as [_ Hr].
    apply trace_scanned in Hr as (b & line & Hline & ->).
    split; [apply scanLine_clean|].
    intros Hnl. apply scanLine_bytes in Hnl. by apply split_no_sep in Hline. }
  rewrite Hout at 1. unfold removeComments at 1.
  rewrite split_terminated_lines by (intros o Ho; by apply Hos).
  rewrite linesLoop_clean by (intros o Ho; by apply Hos).
  by rewrite Hout.
Qed.

(** C4 as stated fails: the one-line text "a" is stripped to "a" and a
    newline, and stripping that gives "a" and two newlines. *)
Lemma removeComments_not_idempotent :
  removeComments (lit "a") = lit "a" ++ [NL]
  ∧ removeComments (removeComments (lit "a")) = lit "a" ++ [NL; NL]
  ∧ removeComments (removeComments (lit "a")) ≠ removeComments (lit "a").
Proof. vm_compute. split_and!; [done..|discriminate]. Qed.

End CommentsFacts.

(** ** Variable-type inferencer *)

Module InferencerFacts.
Import Inferencer.

Lemma zeroValue_in (varType zero : str) :
  zeroValue varType = Some zero → zero ∈ zeroValues.
Proof.
  unfold zeroValue, zeroValues.
  repeat (destruct (streq varType _);
          [intros [= <-]; rewrite !elem_of_cons; auto 10|]).
  done.
Qed.

Lemma subInt_plain (a b : Z) : (minInt + b <= a)%Z → subInt a b = (a - b)%Z.
Proof.
  intros H. unfold subInt.
  assert ((a - b <? minInt)%Z = false) as -> by (apply Z.ltb_ge; lia).
  by rewrite andb_false_r.
Qed.

Lemma subInt_below (a b : Z) : (a < minInt)%Z → subInt a b = (a - b)%Z.
Proof.
  intros H. unfold subInt.
  assert ((minInt <=? a)%Z = false) as -> by (apply Z.leb_gt; lia). done.
Qed.

Lemma subInt_wrapped (a b : Z) :
  (minInt <= a < minInt + b)%Z → subInt a b = (a - b + 2 ^ 64)%Z.
Proof.
  intros H. unfold subInt.
  assert ((minInt <=? a)%Z = true) as -> by (apply Z.leb_le; lia).
  assert ((a - b <? minInt)%Z = true) as -> by (apply Z.ltb_lt; lia). done.
Qed.

(** The walk over the chain stays inside the line array when it starts
    inside it, and what it finds is one of the six zero values. *)
Lemma chainLoop_in_range (fuel : nat) (lines : list str) (low j : Z) :
  (j < Z.of_nat (length lines))%Z → (j < maxInt)%Z →
  match chainLoop fuel lines low j with
  | ChainFound zero => zero ∈ zeroValues
  | ChainNone => True
  | ChainPanic => False
  end.
Proof.
  revert j. induction fuel as [|fuel IH]; intros j Hj Hmax; simpl; [done|].
  destruct ((0 <=? j)%Z && (low <=? j)%Z) eqn:Hcond; [|done].
  apply andb_true_iff in Hcond as [H0 _]. apply Z.leb_le in H0.
  unfold lineAt. assert ((j <? maxInt)%Z = true) as -> by (by apply Z.ltb_lt).
  destruct (lines !! Z.to_nat j) as [l|] eqn:Hl.
  2:{ apply lookup_ge_None in Hl. lia. }
  assert (Hnext : match chainLoop fuel lines low (j - 1) with
                  | ChainFound zero => zero ∈ zeroValues
                  | ChainNone => True
                  | ChainPanic => False
                  end) by (apply IH; lia).
  destruct (streq (trimSpace l) []); [done|].
  destruct (negb (hasSuffix (trimSpace l) _)).
  - destruct (findStringSubmatch typeDeclPattern (trimSpace l)) as [m|]; [|done].
    destruct (zeroValue (group 1 m)) eqn:Hz; [|done]. by eapply zeroValue_in.
  - destruct (findStringSubmatch typeDeclPattern (trimSpace l)) as [m|]; [|done].
    destruct (zeroValue (group 1 m)) eqn:Hz; [|done]. by eapply zeroValue_in.
Qed.

(** The first line the walk reads is [lines[j]]. *)
Lemma chainLoop_out_of_range (fuel : nat) (lines : list str) (low j : Z) :
  (0 <= j)%Z → (low <= j)%Z → (Z.of_nat (length lines) <= j ∨ maxInt <= j)%Z →
  chainLoop (S fuel) lines low j = ChainPanic.
Proof.
  intros H0 Hlow Hlen. simpl.
  assert ((0 <=? j)%Z && (low <=? j)%Z = true) as ->.
  { apply andb_true_iff. split; apply Z.leb_le; lia. }
  assert (lineAt lines j = None) as ->; [|done].
  unfold lineAt. destruct (j <? maxInt)%Z eqn:Hmax; [|done].
  apply Z.ltb_lt in Hmax. apply lookup_ge_None. lia.
Qed.

(** The walk reads no line when it starts below the first line. *)
Lemma chainLoop_negative (fuel : nat) (lines : list str) (low j : Z) :
  (j < 0)%Z → chainLoop fuel lines low j = ChainNone.
Proof.
  intros Hj. destruct fuel as [|fuel]; [done|]. cbn [chainLoop].
  assert ((0 <=? j)%Z = false) as -> by (apply Z.leb_gt; lia). done.
Qed.

Lemma zeroValues_nonempty (zero : str) : zero ∈ zeroValues → zero ≠ [].
Proof.
  intros Hz ->. unfold zeroValues in Hz.
  rewrite !elem_of_cons, elem_of_nil in Hz.
  destruct Hz as [H|[H|[H|[H|[H|[H|[]]]]]]]; discriminate H.
Qed.




End InferencerFacts.

(** ** Duplicate-output-declaration fixer *)

Module FragColorFacts.
Import FragColor.

(** C8 fails on the code.  A declaration that stands on a line of its own
    is turned into the assignment, indentation kept.  But when the
    declaration shares its line with an earlier occurrence of "fragColor"
    (here the parameter list of a one-line entry function), the line is cut
    at that earlier occurrence: the signature is lost and the typed
    declaration is still there. *)
Theorem fixMainImageFragColor_keeps_declaration :
  fixMainImageFragColor declarationOnOwnLine
  = lit "void mainImage(out vec4 fragColor, in vec2 fragCoord) {" ++ [NL]
    ++ lit "    fragColor = vec4(0.0);" ++ [NL] ++ lit "}"
  ∧ fixMainImageFragColor declarationOnSignatureLine
    = lit "fragColor, in vec2 fragCoord) { vec4 fragColor = vec4(0.0); }"
  ∧ declares (fixMainImageFragColor declarationOnSignatureLine) = true.
Proof. vm_compute. done. Qed.

End FragColorFacts.

(** ** The repair pipeline on the scenarios of the specification *)

Module FixerFacts.
Import Fixer.

(** A compiler is patched with its own answer without change. *)
Lemma patched_self (regexpCompiles : str → bool) (text0 : str) :
  regexpCompiles = patched regexpCompiles text0 (regexpCompiles text0).
Proof.
  apply functional_extensionality. intros text. unfold patched.
  destruct (streq text text0) eqn:E; [|done]. by apply streq_true in E as ->.
Qed.

(** C5, as the code has it: the line [vec2 p = bpos.zx;] is a typed
    declaration and the pipeline keeps it (only the line break after it
    goes); the same assignment without the type token, [p = bpos.zx;], is
    removed as orphaned and leaves empty output.  On its way the second
    text has five short patterns compiled, for the names [p] and [bpos]. *)
Theorem fixShaderCode_keeps_typed_declaration (regexpCompiles : str → bool)
    (mapOrder : nat → gmap str str → list (str * str)) :
  fixShaderCode regexpCompiles mapOrder (lit "vec2 p = bpos.zx;" ++ [NL])
  = Ok (lit "vec2 p = bpos.zx;")
  ∧ fixShaderCode regexpCompiles mapOrder (lit "p = bpos.zx;" ++ [NL])
    = if regexpCompiles (declText (lit "p")) && regexpCompiles (paramText (lit "p"))
         && regexpCompiles (declMatText (lit "p"))
         && regexpCompiles (declMatText (lit "bpos"))
         && regexpCompiles (paramText (lit "bpos"))
      then Ok [] else Err BadPattern.
Proof.
  split.
  - vm_compute. reflexivity.
  - set (b1 := regexpCompiles (declText (lit "p"))).
    set (b2 := regexpCompiles (paramText (lit "p"))).
    set (b3 := regexpCompiles (declMatText (lit "p"))).
    set (b4 := regexpCompiles (declMatText (lit "bpos"))).
    set (b5 := regexpCompiles (paramText (lit "bpos"))).
    rewrite (patched_self regexpCompiles (declText (lit "p"))). fold b1.
    rewrite (patched_self regexpCompiles (paramText (lit "p"))). fold b2.
    rewrite (patched_self regexpCompiles (declMatText (lit "p"))). fold b3.
    rewrite (patched_self regexpCompiles (declMatText (lit "bpos"))). fold b4.
    rewrite (patched_self regexpCompiles (paramText (lit "bpos"))). fold b5.
    clearbody b1 b2 b3 b4 b5.
    destruct b1, b2, b3, b4, b5; vm_compute; reflexivity.
Qed.

(** C5 as stated fails: the output for [vec2 p = bpos.zx;] is not empty. *)
Lemma fixShaderCode_scenario_A_not_empty :
  fixShaderCode sampleCompiles (λ _, map_to_list) (lit "vec2 p = bpos.zx;" ++ [NL])
  = Ok (lit "vec2 p = bpos.zx;")
  ∧ fixShaderCode sampleCompiles (λ _, map_to_list) (lit "vec2 p = bpos.zx;" ++ [NL])
    ≠ Ok [].
Proof. vm_compute. split; [reflexivity|discriminate]. Qed.

End FixerFacts.

(** ** The backtracking matcher *)

Module RegexpFacts.
Import Regexp.

Section Soundness.
Context {A : Type}.
Implicit Types k : option ascii → str → captures → option A.

Lemma starLoop_sound (r : regex) (fuel : nat) :
  sound_at (A:=A) r →
  ∀ prev s caps k a,
    starLoop (run r) fuel prev s caps k = Some a →
    ∃ m s' prev' caps', s = m ++ s' ∧ lang (Star r) m ∧ k prev' s' caps' = Some a.
Proof.
  intros Hr. induction fuel as [|fuel IH]; intros prev s caps k a; simpl.
  - intros Hk. exists [], s, prev, caps. split_and!; [done|constructor|done].
  - destruct (run r prev s caps _) as [a'|] eqn:Hbody.
    + intros [= ->].
      apply Hr in Hbody as (m1 & s1 & prev1 & caps1 & -> & Hm1 & Hcont).
      destruct (length s1 <? length (m1 ++ s1)); [|done].
      apply IH in Hcont as (m2 & s2 & prev2 & caps2 & -> & Hm2 & Hk).
      exists (m1 ++ m2), s2, prev2, caps2.
      split_and!; [by rewrite app_assoc|by constructor|done].
    + intros Hk. exists [], s, prev, caps. split_and!; [done|constructor|done].
Qed.

Lemma run_sound (r : regex) : sound_at (A:=A) r.
Proof.
  induction r as [|p|r1 IH1 r2 IH2|r1 IH1 r2 IH2|r IH|n r IH| |];
    intros prev s caps k a; simpl.
  - intros Hk. exists [], s, prev, caps. split_and!; [done|constructor|done].
  - destruct s as [|c s]; [done|]. destruct (p c) eqn:Hp; [|done].
    intros Hk. exists [c], s, (Some c), caps. split_and!; [done|by constructor|done].
  - intros H. apply IH1 in H as (m1 & s1 & prev1 & caps1 & -> & Hm1 & H).
    apply IH2 in H as (m2 & s2 & prev2 & caps2 & -> & Hm2 & H).
    exists (m1 ++ m2), s2, prev2, caps2.
    split_and!; [by rewrite app_assoc|by constructor|done].
  - destruct (run r1 prev s caps k) as [a'|] eqn:H1.
    + intros [= ->]. apply IH1 in H1 as (m & s' & prev' & caps' & -> & Hm & H).
      exists m, s', prev', caps'. split_and!; [done|by apply lang_alt_l|done].
    + intros H. apply IH2 in H as (m & s' & prev' & caps' & -> & Hm & H).
      exists m, s', prev', caps'. split_and!; [done|by apply lang_alt_r|done].
  - by apply starLoop_sound.
  - intros H. apply IH in H as (m & s' & prev' & caps' & -> & Hm & H).
    eexists m, s', prev', _. split_and!; [done|by constructor|done].
  - destruct prev; [done|]. intros Hk.
    exists [], s, None, caps. split_and!; [done|constructor|done].
  - destruct (atWordBoundary prev s); [|done]. intros Hk.
    exists [], s, prev, caps. split_and!; [done|constructor|done].
Qed.

End Soundness.

(** A match found at the current position consumes a text of the
    language and leaves the rest. *)
Lemma matchHere_sound (r : regex) (prev : option ascii) (s s' : str) (caps : captures) :
  matchHere r prev s = Some (s', caps) → ∃ m, s = m ++ s' ∧ lang r m.
Proof.
  unfold matchHere. intros H.
  apply run_sound in H as (m & s1 & prev' & caps' & -> & Hm & [= -> ->]).
  by exists m.
Qed.

(** *** Greedy iteration of a byte class *)

Lemma run_class_cons {A : Type} (p : ascii → bool) (prev : option ascii) (c : ascii)
    (s : str) (caps : captures) (k : option ascii → str → captures → option A) :
  run (Class p) prev (c :: s) caps k = if p c then k (Some c) s caps else None.
Proof. reflexivity. Qed.

Lemma lastOr_cons (prev : option ascii) (c : ascii) (m : str) :
  lastOr prev (c :: m) = lastOr (Some c) m.
Proof.
  revert prev c. induction m as [|d m IH]; intros prev c; [done|].
  transitivity (lastOr prev (d :: m)); [done|].
  rewrite IH. symmetry. apply IH.
Qed.

Lemma lastOr_app (prev : option ascii) (m1 m2 : str) :
  lastOr prev (m1 ++ m2) = lastOr (lastOr prev m1) m2.
Proof.
  revert prev. induction m1 as [|c m1 IH]; intros prev; [done|].
  simpl. by rewrite !lastOr_cons, IH.
Qed.

Lemma starLoop_class_greedy {A : Type} (p : ascii → bool) (m : str) :
  ∀ (fuel : nat) (prev : option ascii) (s : str) (caps : captures)
    (k : option ascii → str → captures → option A) (a : A),
    Forall (λ c, p c = true) m →
    from_option p false (head s) = false →
    length (m ++ s) ≤ fuel →
    k (lastOr prev m) s caps = Some a →
    starLoop (run (Class p)) fuel prev (m ++ s) caps k = Some a.
Proof.
  induction m as [|c m IH]; intros fuel prev s caps k a Hm Hs Hfuel Hk.
  - simpl. destruct fuel as [|fuel]; [done|]. simpl.
    destruct s as [|d s]; [done|]. simpl in Hs. by rewrite Hs.
  - destruct fuel as [|fuel]; [simpl in Hfuel; lia|].
    apply Forall_cons in Hm as [Hc Hm].
    cbn [app starLoop]. rewrite run_class_cons, Hc.
    assert ((length (m ++ s) <? length (c :: m ++ s)) = true) as ->.
    { apply Nat.ltb_lt. simpl. lia. }
    rewrite (IH fuel (Some c) s caps k a); [done..| |].
    + simpl in Hfuel. lia.
    + by rewrite lastOr_cons in Hk.
Qed.

Lemma star_class_greedy {A : Type} (p : ascii → bool) (m : str)
    (prev : option ascii) (s : str) (caps : captures)
    (k : option ascii → str → captures → option A) (a : A) :
  Forall (λ c, p c = true) m →
  from_option p false (head s) = false →
  k (lastOr prev m) s caps = Some a →
  run (Star (Class p)) prev (m ++ s) caps k = Some a.
Proof. intros. by apply starLoop_class_greedy. Qed.

(** *** Unfolding equations *)

Section Equations.
Context {A : Type}.
Implicit Types k : option ascii → str → captures → option A.

Lemma run_cat r1 r2 prev s caps k :
  run (Cat r1 r2) prev s caps k
  = run r1 prev s caps (λ prev' s' caps', run r2 prev' s' caps' k).
Proof. reflexivity. Qed.

Lemma run_alt r1 r2 prev s caps k :
  run (Alt r1 r2) prev s caps k
  = match run r1 prev s caps k with
    | Some a => Some a
    | None => run r2 prev s caps k
    end.
Proof. reflexivity. Qed.

Lemma run_group n r prev s caps k :
  run (Group n r) prev s caps k
  = run r prev s caps
      (λ prev' s' caps', k prev' s' ((n, take (length s - length s') s) :: caps')).
Proof. reflexivity. Qed.

Lemma run_eps prev s caps k : run Eps prev s caps k = k prev s caps.
Proof. reflexivity. Qed.

Lemma run_wordb prev s caps k :
  run WordBoundary prev s caps k
  = if atWordBoundary prev s then k prev s caps else None.
Proof. reflexivity. Qed.

(** A literal matches exactly when the text starts with it. *)
Lemma run_literal (w : str) prev s caps k :
  run (literal w) prev s caps k
  = if hasPrefix s w then k (lastOr prev w) (drop (length w) s) caps else None.
Proof.
  revert prev s. induction w as [|c w IH]; intros prev s; [done|].
  change (literal (c :: w)) with (Cat (chr c) (literal w)).
  rewrite run_cat. destruct s as [|d s]; [done|].
  unfold chr at 1. rewrite run_class_cons. cbn [hasPrefix length drop].
  assert (byteEq c d = byteEq d c) as -> by apply Ascii.eqb_sym.
  destruct (byteEq d c) eqn:Hd; [|done].
  apply byteEq_true in Hd as ->. rewrite IH. by rewrite lastOr_cons.
Qed.

End Equations.

Lemma searchFrom_hit (r : regex) (pos : nat) (prev : option ascii) (s s' : str)
    (caps : captures) :
  matchHere r prev s = Some (s', caps) →
  searchFrom r pos prev s = Some (pos, pos + (length s - length s'), caps).
Proof. intros H. destruct s; simpl; by rewrite H. Qed.

Lemma searchFrom_miss (r : regex) (pos : nat) (prev : option ascii) (c : ascii)
    (s : str) :
  matchHere r prev (c :: s) = None →
  searchFrom r pos prev (c :: s) = searchFrom r (S pos) (Some c) s.
Proof. intros H. simpl. by rewrite H. Qed.

(** *** Reading a match backwards *)

Lemma lang_eps_inv (m : str) : lang Eps m → m = [].
Proof. by inversion 1. Qed.

Lemma lang_class_inv (p : ascii → bool) (m : str) :
  lang (Class p) m → ∃ c, m = [c] ∧ p c = true.
Proof. inversion 1; subst. by eexists. Qed.

Lemma lang_cat_inv (r1 r2 : regex) (m : str) :
  lang (Cat r1 r2) m → ∃ m1 m2, m = m1 ++ m2 ∧ lang r1 m1 ∧ lang r2 m2.
Proof. inversion 1; subst. by eexists _, _. Qed.

Lemma lang_group_inv (n : nat) (r : regex) (m : str) : lang (Group n r) m → lang r m.
Proof. by inversion 1. Qed.

Lemma lang_star_class (p : ascii → bool) (m : str) :
  lang (Star (Class p)) m → Forall (λ c, p c = true) m.
Proof.
  intros H. remember (Star (Class p)) as r eqn:Hr.
  induction H; try discriminate; [done|].
  injection Hr as ->. apply Forall_app. split; [|by apply IHlang2].
  apply lang_class_inv in H as (c & -> & Hc). by apply Forall_singleton.
Qed.

Lemma lang_plus_class (p : ascii → bool) (m : str) :
  lang (plus (Class p)) m → m ≠ [] ∧ Forall (λ c, p c = true) m.
Proof.
  intros (m1 & m2 & -> & (c & -> & Hc)%lang_class_inv & H2%lang_star_class)%lang_cat_inv.
  split; [done|]. by apply Forall_cons.
Qed.

Lemma word_not_space (c : ascii) : isWord c = true → isSpace c = false.
Proof. destruct c as [[] [] [] [] [] [] [] []]; vm_compute; congruence. Qed.

End RegexpFacts.

(** ** Lists of bytes *)

Lemma pivot_unique (c : ascii) (x y r1 r2 : str) :
  c ∉ x → c ∉ y → x ++ c :: r1 = y ++ c :: r2 → x = y ∧ r1 = r2.
Proof.
  revert y. induction x as [|a x IH]; intros [|b y] Hx Hy Heq; simpl in Heq.
  - by injection Heq.
  - injection Heq as <- _. exfalso. apply Hy. by left.
  - injection Heq as -> _. exfalso. apply Hx. by left.
  - injection Heq as -> Heq.
    apply not_elem_of_cons in Hx as [_ Hx]. apply not_elem_of_cons in Hy as [_ Hy].
    destruct (IH y Hx Hy Heq) as [-> ->]. done.
Qed.

Lemma hasPrefix_true (s w : str) : hasPrefix s w = true ↔ ∃ r, s = w ++ r.
Proof.
  revert s. induction w as [|c w IH]; intros s.
  - split; [by exists s|done].
  - destruct s as [|d s]; simpl;
      [split; [done|intros [r H]; simpl in H; discriminate]|].
    rewrite andb_true_iff, byteEq_true, IH. split.
    + intros [-> [r ->]]. by exists r.
    + intros [r H]. simpl in H. injection H as -> ->. split; [done|by exists r].
Qed.

Lemma hasPrefix_app (w r : str) : hasPrefix (w ++ r) w = true.
Proof. apply hasPrefix_true. by exists r. Qed.

(** The first occurrence of a text that ends in a byte which occurs
    nowhere else. *)
Lemma index_unique_end (c : ascii) (pre y : str) :
  c ∉ pre → c ∉ y → index (pre ++ y ++ [c]) (y ++ [c]) = Some (length pre).
Proof.
  intros Hpre Hy. induction pre as [|a pre IH].
  - cbn [app length]. destruct (y ++ [c]) as [|d t] eqn:E.
    { by destruct y. }
    cbn [index]. assert (hasPrefix (d :: t) (d :: t) = true) as ->; [|done].
    apply hasPrefix_true. exists []. by rewrite app_nil_r.
  - apply not_elem_of_cons in Hpre as [Hac Hpre].
    cbn [app index length].
    destruct (hasPrefix (a :: pre ++ y ++ [c]) (y ++ [c])) eqn:Hp.
    + exfalso. apply hasPrefix_true in Hp as [r Hr].
      assert ((a :: pre ++ y) ++ c :: [] = y ++ c :: r) as Hr'.
      { rewrite <- (app_assoc y) in Hr. simpl in Hr |- *.
        by rewrite <- app_assoc. }
      apply pivot_unique in Hr' as [Hr' _]; [|by rewrite not_elem_of_cons, not_elem_of_app|done].
      rename Hr' into Hlen. clear Hr. rename Hlen into Hr.
      apply (f_equal length) in Hr. simpl in Hr. rewrite length_app in Hr. lia.
    + by rewrite (IH Hpre).
Qed.

Lemma replace1_unique_end (c : ascii) (pre y new : str) :
  c ∉ pre → c ∉ y →
  replace1 (pre ++ y ++ [c]) (y ++ [c]) new = pre ++ new.
Proof.
  intros Hpre Hy. unfold replace1. rewrite index_unique_end by done.
  rewrite take_app_length.
  rewrite drop_ge; [by rewrite app_nil_r|].
  rewrite !length_app. lia.
Qed.

(** [TrimSpace] leaves a text alone that neither starts nor ends with
    white space. *)
Lemma trimSpace_id (s : str) :
  spaceWidth s = 0 → spaceWidthRev (rev s) = 0 → trimSpace s = s.
Proof.
  intros Hl Hr. unfold trimSpace.
  assert (trimLeftSpaceFuel (length s) s = s) as ->.
  { destruct (length s); simpl; [done|]. by rewrite Hl. }
  assert (trimRevSpaceFuel (length s) (rev s) = rev s) as ->.
  { destruct (length s); simpl; [done|]. by rewrite Hr. }
  apply rev_involutive.
Qed.

(** ** The chain branch of the first pass *)

Module ChainFacts.
Import Regexp RegexpFacts Fixer.

(** What [chainVarPattern] can match: a comma, then spaces and word bytes,
    then a semicolon. *)
Lemma chainVarPattern_lang (m : str) :
  lang chainVarPattern m →
  ∃ body, m = ","%char :: body ++ [";"%char]
          ∧ Forall (λ c, (isSpace c || isWord c) = true) body.
Proof.
  unfold chainVarPattern, rseq, spaces1, spaces0, word1, chr. cbn [foldr].
  intros (m1 & r1 & -> & (c1 & -> & Hc1)%lang_class_inv & H)%lang_cat_inv.
  apply lang_cat_inv in H as (m2 & r2 & -> & [_ H2]%lang_plus_class & H).
  apply lang_cat_inv in H as (m3 & r3 & -> & [_ H3]%lang_group_inv%lang_plus_class & H).
  apply lang_cat_inv in H as (m4 & r4 & -> & H4%lang_star_class & H).
  apply lang_cat_inv in H as (m5 & r5 & -> & (c5 & -> & Hc5)%lang_class_inv & ->%lang_eps_inv).
  apply byteEq_true in Hc1 as <-, Hc5 as <-.
  exists (m2 ++ m3 ++ m4). split; [by rewrite <- !app_assoc|].
  rewrite !Forall_app. split_and!.
  - eapply Forall_impl; [done|]. intros c Hc. simpl in Hc. by rewrite Hc.
  - eapply Forall_impl; [done|]. intros c Hc. simpl in Hc. by rewrite Hc, orb_true_r.
  - eapply Forall_impl; [done|]. intros c Hc. simpl in Hc. by rewrite Hc.
Qed.

Lemma word_no_semicolon (w : str) :
  Forall (λ c, (isSpace c || isWord c) = true) w → (";"%char ∉ w) ∧ (","%char ∉ w).
Proof.
  induction 1 as [|c w Hc _ [IH1 IH2]]; [split; apply not_elem_of_nil|].
  rewrite !not_elem_of_cons. split_and!; try done; intros <-; vm_compute in Hc; done.
Qed.

(** No match starts in front of the last comma of a line whose only
    semicolon is the final one. *)
Lemma chainVar_no_match (prev : option ascii) (c : ascii) (pre b : str) :
  ";"%char ∉ c :: pre → Forall (λ c, isWord c = true) b →
  matchHere chainVarPattern prev (c :: pre ++ lit ", " ++ b ++ lit ";") = None.
Proof.
  intros Hpre Hb.
  destruct (matchHere _ _ _) as [[s' caps]|] eqn:Hm; [exfalso|done].
  apply matchHere_sound in Hm as (m & Heq & (body & -> & Hbody)%chainVarPattern_lang).
  destruct (word_no_semicolon body Hbody) as [Hsemi Hcomma].
  simpl in Heq. injection Heq as -> Heq.
  apply not_elem_of_cons in Hpre as [_ Hpre].
  assert ((pre ++ lit ", " ++ b) ++ ";"%char :: [] = body ++ ";"%char :: s') as Heq'.
  { etrans; [|etrans; [exact Heq|]]; by rewrite <- ?app_assoc. }
  apply pivot_unique in Heq' as [<- _]; [| |done].
  - apply Hcomma. rewrite !elem_of_app. right. left. by left.
  - rewrite !not_elem_of_app. split_and!; [done| |].
    { change (lit ", ") with [","%char; " "%char].
      rewrite !not_elem_of_cons. split_and!; [done..|apply not_elem_of_nil]. }
    intros Hin. eapply Forall_forall in Hb; [|done]. vm_compute in Hb. done.
Qed.

(** At the last comma the match succeeds and captures the name. *)
Lemma chainVar_here (prev : option ascii) (b : str) :
  b ≠ [] → Forall (λ c, isWord c = true) b →
  matchHere chainVarPattern prev (lit ", " ++ b ++ lit ";") = Some ([], [(1, b)]).
Proof.
  intros Hne Hb. destruct b as [|b0 b']; [done|].
  apply Forall_cons in Hb as [Hb0 Hb'].
  unfold matchHere, chainVarPattern, rseq, spaces1, spaces0, word1, plus, chr.
  cbn [foldr].
  change (lit ", " ++ (b0 :: b') ++ lit ";") with (","%char :: " "%char :: b0 :: b' ++ [";"%char]).
  rewrite run_cat, run_class_cons, byteEq_refl.
  rewrite !run_cat, run_class_cons.
  change (isSpace " "%char) with true. cbv iota.
  apply (star_class_greedy isSpace [] (Some " "%char) (b0 :: b' ++ [";"%char])).
  { done. }
  { simpl. by apply word_not_space. }
  rewrite run_cat, run_group, run_cat, run_class_cons, Hb0.
  apply (star_class_greedy isWord b' (Some b0) [";"%char]).
  { done. }
  { done. }
  assert (take (length (b0 :: b' ++ [";"%char]) - length [";"%char]) (b0 :: b' ++ [";"%char])
          = b0 :: b') as ->.
  { change (b0 :: b' ++ [";"%char]) with ((b0 :: b') ++ [";"%char]).
    rewrite length_app. simpl length.
    replace (S (length b') + 1 - 1) with (length (b0 :: b')) by (simpl; lia).
    apply take_app_length. }
  rewrite run_cat.
  apply (star_class_greedy isSpace [] _ [";"%char]).
  { done. }
  { done. }
  rewrite run_cat, run_class_cons, byteEq_refl, run_eps. done.
Qed.

(** The leftmost match of [chainVarPattern] on a line that ends in
    [, b;] and has no other semicolon is that ending. *)
Lemma chainVar_search (pre b : str) (pos : nat) (prev : option ascii) :
  ";"%char ∉ pre → b ≠ [] → Forall (λ c, isWord c = true) b →
  ∃ e, searchFrom chainVarPattern pos prev (pre ++ lit ", " ++ b ++ lit ";")
       = Some (pos + length pre, e, [(1, b)]).
Proof.
  intros Hpre Hne Hb. revert pos prev.
  induction pre as [|c pre IH]; intros pos prev.
  - eexists. cbn [app length]. rewrite Nat.add_0_r.
    by apply searchFrom_hit, chainVar_here.
  - cbn [app]. rewrite searchFrom_miss by by apply chainVar_no_match.
    apply not_elem_of_cons in Hpre as [_ Hpre].
    destruct (IH Hpre (S pos) (Some c)) as [e He]. exists e.
    rewrite He. simpl. do 3 f_equal. lia.
Qed.

(** *** The type token on the same line *)

Lemma zeroValue_cases (T zero : str) :
  zeroValue T = Some zero →
  T ∈ [lit "vec2"; lit "vec3"; lit "vec4"; lit "float"; lit "int"; lit "bool"].
Proof.
  unfold zeroValue.
  repeat (destruct (streq T _) eqn:E;
          [apply streq_true in E as ->; intros _; rewrite !elem_of_cons; auto 10
          |clear E]).
  done.
Qed.

(** [\s+\w+] on a space, a name and a text that does not go on with a
    word byte. *)
Lemma type_tail (prev : option ascii) (a rest : str) (caps : captures) :
  a ≠ [] → Forall (λ c, isWord c = true) a →
  from_option isWord false (head rest) = false →
  run (Cat spaces1 (Cat word1 Eps)) prev (" "%char :: a ++ rest) caps
    (λ _ s' caps', Some (s', caps'))
  = Some (rest, caps).
Proof.
  intros Hne Ha Hrest. destruct a as [|a0 a']; [done|].
  apply Forall_cons in Ha as [Ha0 Ha'].
  unfold spaces1, word1, plus.
  rewrite !run_cat, run_class_cons. change (isSpace " "%char) with true. cbv iota.
  apply (star_class_greedy isSpace [] _ ((a0 :: a') ++ rest)); [done| |].
  { simpl. by apply word_not_space. }
  rewrite !run_cat. cbn [app]. rewrite run_class_cons, Ha0.
  apply (star_class_greedy isWord a' (Some a0) rest); [done..|].
  by rewrite run_eps.
Qed.

Lemma take_prefix_length (T s : str) :
  take (length (T ++ s) - length s) (T ++ s) = T.
Proof.
  rewrite length_app. replace (length T + length s - length s) with (length T) by lia.
  apply take_app_length.
Qed.

Ltac decide_prefixes :=
  repeat match goal with
         | |- context [hasPrefix ?s ?w] =>
             let b := eval vm_compute in (hasPrefix s w) in
             change (hasPrefix s w) with b
         end.

Lemma sameLineType_match (T zero a rest : str) :
  zeroValue T = Some zero →
  a ≠ [] → Forall (λ c, isWord c = true) a →
  from_option isWord false (head rest) = false →
  ∃ caps, findStringSubmatch sameLineTypePattern (T ++ lit " " ++ a ++ rest) = Some caps
          ∧ group 1 caps = T.
Proof.
  intros HT Hne Ha Hrest.
  exists [(1, T)]. split; [|done].
  unfold findStringSubmatch.
  erewrite searchFrom_hit; [done|].
  unfold matchHere, sameLineTypePattern, rseq. cbn [foldr].
  rewrite run_cat, run_wordb.
  apply zeroValue_cases in HT.
  rewrite !elem_of_cons, elem_of_nil in HT.
  destruct HT as [->|[->|[->|[->|[->|[->|[]]]]]]].
  all: change (atWordBoundary None _) with true; cbv iota.
  all: rewrite run_cat, run_group.
  all: unfold typeToken, alts, vecN, rseq; cbn [foldr].
  all: rewrite ?run_alt, ?run_cat, ?run_literal.
  all: cbn [lit list_ascii_of_string app].
  all: decide_prefixes; cbv iota; cbn [drop length].
  all: try (rewrite run_cat, run_class_cons; change (oneOf _ _) with true;
            cbv iota; rewrite run_eps).
  all: rewrite (type_tail _ a rest) by done.
  all: f_equal; f_equal; f_equal; f_equal.
  - apply (take_prefix_length (lit "vec2") (" "%char :: a ++ rest)).
  - apply (take_prefix_length (lit "vec3") (" "%char :: a ++ rest)).
  - apply (take_prefix_length (lit "vec4") (" "%char :: a ++ rest)).
  - apply (take_prefix_length (lit "float") (" "%char :: a ++ rest)).
  - apply (take_prefix_length (lit "int") (" "%char :: a ++ rest)).
  - apply (take_prefix_length (lit "bool") (" "%char :: a ++ rest)).
Qed.

(** *** The chain line *)

Ltac not_in_literal :=
  cbv [lit list_ascii_of_string]; rewrite !not_elem_of_cons;
  split_and!; try done; apply not_elem_of_nil.

Lemma word_spaceWidth (c : ascii) (s : str) :
  isWord c = true → spaceWidth (c :: s) = 0.
Proof.
  destruct c as [[] [] [] [] [] [] [] []]; vm_compute; congruence.
Qed.

Lemma word_no_punct (w : str) (c : ascii) :
  Forall (λ c, isWord c = true) w → isWord c = false → c ∉ w.
Proof.
  intros Hw Hc Hin. eapply Forall_forall in Hw; [|done]. congruence.
Qed.

Lemma typeToken_word (T zero : str) :
  zeroValue T = Some zero → T ≠ [] ∧ Forall (λ c, isWord c = true) T.
Proof.
  intros HT%zeroValue_cases. rewrite !elem_of_cons, elem_of_nil in HT.
  destruct HT as [->|[->|[->|[->|[->|[->|[]]]]]]];
    (split; [done|repeat constructor]).
Qed.

Lemma zeroValue_nonempty (T zero : str) : zeroValue T = Some zero → streq zero [] = false.
Proof.
  unfold zeroValue.
  repeat (destruct (streq T _); [by intros [= <-]|]). done.
Qed.

Section ChainLine.
Variables T zero a x b : str.
Hypothesis HT : zeroValue T = Some zero.
Hypothesis Ha : a ≠ [] ∧ Forall (λ c, isWord c = true) a.
Hypothesis Hb : b ≠ [] ∧ Forall (λ c, isWord c = true) b.
Hypothesis Hx : ";"%char ∉ x.

Local Abbreviation pre := (chainFront T a x).

Lemma chainLine_split : chainLine T a x b = pre ++ (lit ", " ++ b) ++ [";"%char].
Proof. unfold chainLine, chainFront. by rewrite <- !app_assoc. Qed.

Lemma chainLine_pre_no_semicolon : ";"%char ∉ pre.
Proof.
  destruct (typeToken_word T zero HT) as [_ HTw]. destruct Ha as [_ Haw].
  unfold chainFront. rewrite !not_elem_of_app.
  split_and!; [by apply word_no_punct|not_in_literal|by apply word_no_punct
              |not_in_literal|done].
Qed.

Lemma chainLine_trimSpace : trimSpace (chainLine T a x b) = chainLine T a x b.
Proof.
  destruct (typeToken_word T zero HT) as [HTne HTw].
  apply trimSpace_id.
  - unfold chainLine. destruct T as [|c T']; [done|].
    apply Forall_cons in HTw as [Hc _]. by apply word_spaceWidth.
  - rewrite chainLine_split, app_assoc, rev_app_distr. reflexivity.
Qed.

Lemma chainLine_not_blank : streq (trimSpace (chainLine T a x b)) [] = false.
Proof.
  rewrite chainLine_trimSpace. destruct (typeToken_word T zero HT) as [HTne _].
  unfold chainLine. by destruct T.
Qed.

Lemma chainLine_chainVar :
  findStringSubmatch chainVarPattern (chainLine T a x b) = Some [(1, b)].
Proof.
  destruct Hb as [Hbne Hbw].
  destruct (chainVar_search pre b 0 None chainLine_pre_no_semicolon Hbne Hbw) as [e He].
  unfold findStringSubmatch.
  replace (chainLine T a x b) with (pre ++ lit ", " ++ b ++ lit ";").
  - by rewrite He.
  - unfold chainLine, chainFront. by rewrite <- !app_assoc.
Qed.

Lemma chainLine_sameLineType :
  ∃ caps, findStringSubmatch sameLineTypePattern (chainLine T a x b) = Some caps
          ∧ group 1 caps = T.
Proof.
  destruct Ha as [Hane Haw].
  apply (sameLineType_match T zero a (lit " = " ++ x ++ lit ", " ++ b ++ lit ";"));
    done.
Qed.

Lemma chainLine_replace :
  replace1 (chainLine T a x b) (lit ", " ++ b ++ lit ";")
    (lit ", " ++ b ++ lit " = " ++ zero ++ lit ";")
  = chainLineFixed T a x b zero.
Proof.
  destruct Hb as [_ Hbw].
  rewrite chainLine_split.
  replace (lit ", " ++ b ++ lit ";") with ((lit ", " ++ b) ++ [";"%char])
    by by rewrite <- app_assoc.
  rewrite replace1_unique_end.
  - unfold chainLineFixed, chainFront. by rewrite <- !app_assoc.
  - apply chainLine_pre_no_semicolon.
  - rewrite not_elem_of_app. split; [not_in_literal|by apply word_no_punct].
Qed.

End ChainLine.

(** At a chain line [T a = x, b;] whose type token is one of the six,
    whose names are words, whose initializer holds no semicolon and in
    which the text "b =" does not occur, the first pass rewrites the line
    to [T a = x, b = zero;], with the zero value of [T], leaves everything
    in front of [, b;] as it was and records [b] with that value; no
    pattern is compiled on the way.  On the text of scenario B the pipeline
    initializes [a] to 0.0 in the chain and leaves the loop, which then
    reads an initialized [a], as it was. *)
Theorem chain_declaration_initialized (regexpCompiles : str → bool) :
  (∀ (T zero a x b code : str) (st : state) (i : nat),
     zeroValue T = Some zero →
     a ≠ [] ∧ Forall (λ c, isWord c = true) a →
     b ≠ [] ∧ Forall (λ c, isWord c = true) b →
     ";"%char ∉ x →
     contains (chainLine T a x b) (b ++ lit " =") = false →
     lines st !! i = Some (chainLine T a x b) →
     firstPassLine regexpCompiles code st i
     = Ok {| lines := <[i := chainLineFixed T a x b zero]> (lines st);
             uninitializedVars := <[b := zero]> (uninitializedVars st) |})
  ∧ (∀ mapOrder : nat → gmap str str → list (str * str),
       (∀ idx m, mapOrder idx m ≡ₚ map_to_list m) →
       repairPasses regexpCompiles scenarioB
       = Ok (lit "float i = .2, a = 0.0;" ++ [NL] ++ lit "for(int j=0;j<8;j++){ a += i; }",
             {[ lit "a" := lit "0.0" ]})
       ∧ fixShaderCode regexpCompiles mapOrder scenarioB
         = Ok (lit "float i = .2, a = 0.0;" ++ [NL]
               ++ lit "for(int j=0;j<8;j++){ a += i; }")).
Proof.
  split.
  - intros T zero a x b code st i HT Ha Hb Hx Hinit Hline.
    unfold firstPassLine. rewrite Hline. cbn [indexed mbind result_bind].
    rewrite (chainLine_not_blank T zero a x b HT).
    rewrite (chainLine_chainVar T zero a x b HT Ha Hb Hx).
    unfold fixChain. cbn [group Nat.eqb].
    rewrite Hinit.
    destruct (chainLine_sameLineType T zero a x b HT Ha) as (caps & -> & ->).
    rewrite HT. cbn [default from_option id].
    rewrite (zeroValue_nonempty T zero HT). cbn [mbind result_bind].
    by rewrite (chainLine_replace T zero a x b HT Ha Hb Hx).
  - intros mapOrder Horder.
    assert (repairPasses regexpCompiles scenarioB
            = Ok (lit "float i = .2, a = 0.0;" ++ [NL]
                  ++ lit "for(int j=0;j<8;j++){ a += i; }",
                  {[ lit "a" := lit "0.0" ]})) as Hrepair.
    { vm_compute. reflexivity. }
    split; [done|].
    unfold fixShaderCode. rewrite Hrepair. cbn [mbind result_bind].
    unfold loopPass.
    match goal with
    | |- context [contains ?c ?t] =>
        let v := eval vm_compute in (contains c t) in change (contains c t) with v
    end.
    cbv iota.
    match goal with
    | |- context [findAllStringIndex ?r ?c] =>
        let v := eval vm_compute in (findAllStringIndex r c) in
        change (findAllStringIndex r c) with v
    end.
    cbn [processLoops].
    assert (mapOrder 0 {[ lit "a" := lit "0.0" ]} = [(lit "a", lit "0.0")]) as ->.
    { apply Permutation_singleton_r. rewrite Horder. by rewrite map_to_list_singleton. }
    vm_compute. reflexivity.
Qed.

Lemma chain_declaration_initialized_witness :
  firstPassLine sampleCompiles []
    {| lines := [chainLine (lit "float") (lit "i") (lit ".2") (lit "a")];
       uninitializedVars := ∅ |} 0
  = Ok {| lines := [lit "float i = .2, a = 0.0;"];
          uninitializedVars := {[ lit "a" := lit "0.0" ]} |}
  ∧ fixShaderCode sampleCompiles (λ _, map_to_list) scenarioB
    = Ok (lit "float i = .2, a = 0.0;" ++ [NL] ++ lit "for(int j=0;j<8;j++){ a += i; }").
Proof.
  destruct (chain_declaration_initialized sampleCompiles) as [Hline Hscenario].
  split.
  - apply (Hline (lit "float") (lit "0.0") (lit "i") (lit ".2") (lit "a") []
             {| lines := [chainLine (lit "float") (lit "i") (lit ".2") (lit "a")];
                uninitializedVars := ∅ |} 0).
    + reflexivity.
    + split; [done|]. repeat constructor.
    + split; [done|]. repeat constructor.
    + not_in_literal.
    + vm_compute. reflexivity.
    + reflexivity.
  - apply (Hscenario (λ _, map_to_list)). intros idx m. reflexivity.
Defined.

(** C6 fails on the code.  In [float ab = .2, b;] the chain pattern finds
    the uninitialized name [b], but the test that is meant to skip a name
    that is already initialized looks for the text "b =" anywhere in the
    line and finds it inside [ab =]: the chain branch leaves the line
    alone, and the pipeline returns the text with [b] uninitialized,
    whatever the pattern compiler and the map order. *)
Theorem chain_declaration_suffix_name_skipped (regexpCompiles : str → bool)
    (mapOrder : nat → gmap str str → list (str * str)) :
  let line := chainLine (lit "float") (lit "ab") (lit ".2") (lit "b") in
  line = lit "float ab = .2, b;"
  ∧ findStringSubmatch chainVarPattern line = Some [(1, lit "b")]
  ∧ contains line (lit "b" ++ lit " =") = true
  ∧ firstPassLine regexpCompiles [] {| lines := [line]; uninitializedVars := ∅ |} 0
    = Ok {| lines := [line]; uninitializedVars := ∅ |}
  ∧ fixShaderCode regexpCompiles mapOrder (line ++ [NL]) = Ok line.
Proof. vm_compute. split_and!; reflexivity. Qed.

End ChainFacts.

(** ** Loop pre-initialization *)

Module LoopFacts.
Import Regexp RegexpFacts Fixer.

(** *** Where the matches of a pattern lie *)

Lemma searchFrom_bounds (r : regex) (s : str) :
  ∀ (pos : nat) (prev : option ascii) (b e : nat) (caps : captures),
    searchFrom r pos prev s = Some (b, e, caps) →
    pos ≤ b ∧ b ≤ e ∧ e ≤ pos + length s.
Proof.
  induction s as [|c s IH]; intros pos prev b e caps; simpl.
  - destruct (matchHere r prev []) as [[s' caps']|] eqn:Hm; [|done].
    intros [= <- <- <-]. apply matchHere_sound in Hm as (m & Hs & _).
    symmetry in Hs. apply app_eq_nil in Hs as [_ ->]. simpl. lia.
  - destruct (matchHere r prev (c :: s)) as [[s' caps']|] eqn:Hm.
    + intros [= <- <- <-]. apply matchHere_sound in Hm as (m & Hs & _).
      apply (f_equal length) in Hs. rewrite length_app in Hs. simpl in Hs. lia.
    + intros H. apply IH in H. lia.
Qed.

Lemma ordered_weaken (pos pos' len : nat) (ms : list (nat * nat)) :
  pos' ≤ pos → ordered pos len ms → ordered pos' len ms.
Proof. destruct ms as [|m ms]; simpl; [done|]. intros ? (? & ? & ? & ?). split_and!; [lia|done..]. Qed.

Lemma findAllFrom_ordered (r : regex) (fuel : nat) :
  ∀ (pos : nat) (prev : option ascii) (s : str) (prevMatchEnd : option nat),
    ordered pos (pos + length s) (findAllFrom fuel r pos prev s prevMatchEnd).
Proof.
  induction fuel as [|fuel IH]; intros pos prev s pme; simpl; [done|].
  destruct (searchFrom r pos prev s) as [[[b e] caps]|] eqn:Hs; [|done].
  apply searchFrom_bounds in Hs as (Hb & Hbe & He).
  destruct (e =? pos) eqn:Hepos.
  - apply Nat.eqb_eq in Hepos. subst e.
    destruct s as [|c s].
    + destruct (bool_decide _); simpl; [done|]. split_and!; simpl; try lia; done.
    + pose proof (IH (S pos) (Some c) s (Some pos)) as Hrest.
      replace (S pos + length s) with (pos + length (c :: s)) in Hrest by (simpl; lia).
      destruct (bool_decide _); simpl.
      * eapply ordered_weaken; [|done]. lia.
      * split_and!; simpl; try lia. eapply ordered_weaken; [|done]. lia.
  - apply Nat.eqb_neq in Hepos. simpl. split_and!; try lia.
    pose proof (IH e (last (take (e - pos) s)) (drop (e - pos) s) (Some e)) as Hrest.
    rewrite length_drop in Hrest.
    replace (e + (length s - (e - pos))) with (pos + length s) in Hrest by lia.
    done.
Qed.

Lemma findAllStringIndex_ordered (r : regex) (s : str) :
  ordered 0 (length s) (findAllStringIndex r s).
Proof. apply (findAllFrom_ordered r (S (length s)) 0 None s None). Qed.

(** *** One loop *)

Lemma initVars_splice (loopStart : nat) (beforeLoop loopBodyCode : str)
    (vars : list (str * str)) :
  ∀ (front inserted back : str),
    length front = loopStart →
    initVars loopStart beforeLoop loopBodyCode vars (front ++ inserted ++ back)
    = front
      ++ concat ((λ v, initStatement v.1 v.2)
                   <$> reverse (filter (λ v, usedInLoop loopBodyCode v.1
                                             && negb (assignedIn beforeLoop v.1) = true)
                                  vars))
      ++ inserted ++ back.
Proof.
  induction vars as [|[varName defaultValue] vars IH]; intros front inserted back Hlen;
    [done|].
  cbn [initVars]. rewrite filter_cons. cbn [fst snd].
  destruct (decide (usedInLoop loopBodyCode varName
                    && negb (assignedIn beforeLoop varName) = true)) as [Hq|Hq].
  - rewrite Hq.
    rewrite take_app_length', drop_app_length' by done.
    rewrite (app_assoc (initStatement varName defaultValue) inserted back).
    rewrite (IH front (initStatement varName defaultValue ++ inserted) back Hlen).
    rewrite reverse_cons, fmap_app, concat_app. cbn [fmap list_fmap concat fst snd].
    by rewrite app_nil_r, <- !app_assoc.
  - apply not_true_is_false in Hq. rewrite Hq. by apply IH.
Qed.

Lemma processLoop_splice (vars : list (str * str)) (code : str) (m : nat * nat) :
  m.1 ≤ length code →
  processLoop vars code m
  = take m.1 code ++ loopInsertion vars (take m.1 code) (drop m.2 code) ++ drop m.1 code.
Proof.
  intros Hlen. unfold processLoop, loopInsertion.
  destruct (index (drop m.2 code) (lit "{")) as [braceIdx|];
    [|cbn [app]; by rewrite take_drop].
  pose proof (initVars_splice m.1 (take m.1 code) (drop (m.2 + braceIdx) code) vars
                (take m.1 code) [] (drop m.1 code)) as H.
  cbn [app] in H. rewrite take_drop in H.
  rewrite H by (rewrite length_take; lia).
  by rewrite drop_drop.
Qed.

(** *** All loops *)

Lemma loops_splice (orders : nat → list (str * str)) (code : str)
    (ms : list (nat * nat)) :
  ∀ pos idx, ordered pos (length code) ms →
    processLoops orders idx ms code = take pos code ++ spliceFrom orders code pos idx ms.
Proof.
  induction ms as [|[s e] ms IH]; intros pos idx Hord; cbn [processLoops spliceFrom].
  - by rewrite take_drop.
  - destruct Hord as (Hs & He & Hlen & Hord). cbn [fst snd] in *.
    rewrite (IH e (S idx) Hord).
    set (behind := spliceFrom orders code e (S idx) ms).
    assert (length (take e code) = e) as Hte by (rewrite length_take; lia).
    rewrite processLoop_splice by (cbn [fst]; rewrite length_app, Hte; lia).
    cbn [fst snd].
    assert (take s (take e code ++ behind) = take s code) as ->.
    { rewrite take_app_le by lia. rewrite take_take. f_equal. lia. }
    assert (drop e (take e code ++ behind) = behind) as ->.
    { by rewrite drop_app_length'. }
    assert (drop s (take e code ++ behind) = take (e - s) (drop s code) ++ behind) as ->.
    { rewrite drop_app_le by lia. by rewrite take_drop_commute, Nat.add_comm, Nat.sub_add. }
    assert (take s code = take pos code ++ take (s - pos) (drop pos code)) as Hsplit.
    { rewrite take_drop_commute, Nat.add_comm, Nat.sub_add by done.
      rewrite <- (take_drop pos (take s code)) at 1.
      rewrite take_take. f_equal. f_equal. lia. }
    rewrite Hsplit at 1. by rewrite <- !app_assoc.
Qed.

(** The entries the run time yields carry pairwise distinct names. *)
Lemma mapOrder_NoDup (order : list (str * str)) (m : gmap str str) :
  order ≡ₚ map_to_list m → NoDup order.*1.
Proof. intros ->. apply NoDup_fst_map_to_list. Qed.

Lemma loopInsertion_entries (vars : list (str * str)) (beforeLoop behind : str)
    (braceIdx : nat) :
  NoDup vars.*1 →
  index behind (lit "{") = Some braceIdx →
  ∃ chosen,
    loopInsertion vars beforeLoop behind
    = concat ((λ v, initStatement v.1 v.2) <$> chosen)
    ∧ NoDup chosen.*1
    ∧ ∀ v, v ∈ chosen
           ↔ v ∈ vars ∧ usedInLoop (drop braceIdx behind) v.1
                         && negb (assignedIn beforeLoop v.1) = true.
Proof.
  intros Hnd Hbrace. unfold loopInsertion. rewrite Hbrace.
  eexists. split; [done|]. split.
  - rewrite reverse_Permutation.
    apply (sublist_NoDup _ vars.*1); [done|]. apply fmap_sublist, sublist_filter.
  - intros v. rewrite elem_of_reverse, list_elem_of_filter. tauto.
Qed.



End LoopFacts.

(** ** Lines of a text *)

Lemma join_cons (sep e : str) (es : list str) :
  es ≠ [] → join sep (e :: es) = e ++ sep ++ join sep es.
Proof. by destruct es. Qed.

Lemma join_split (sep : ascii) (s : str) : join [sep] (split sep s) = s.
Proof.
  induction s as [|c s IH]; [done|]. simpl.
  destruct (CommentsFacts.split_cons sep s) as (l & ls & Hs).
  destruct (byteEq c sep) eqn:Hc.
  - apply byteEq_true in Hc as ->.
    rewrite join_cons by (rewrite Hs; done). by rewrite IH.
  - rewrite Hs in IH |- *. destruct ls as [|l' ls]; simpl in *; by rewrite IH.
Qed.

Lemma split_join (sep : ascii) (ls : list str) :
  ls ≠ [] → (∀ l, l ∈ ls → sep ∉ l) → split sep (join [sep] ls) = ls.
Proof.
  induction ls as [|l ls IH]; [done|]. intros _ Hls.
  destruct ls as [|l' ls].
  - simpl. assert (sep ∉ l) as Hl by (apply Hls; by left).
    clear -Hl. induction l as [|c l IHl]; [done|].
    apply not_elem_of_cons in Hl as [Hc Hl]. simpl.
    assert (byteEq c sep = false) as -> by (apply byteEq_false; congruence).
    by rewrite (IHl Hl).
  - rewrite join_cons by done. cbn [app].
    rewrite CommentsFacts.split_line_app by (apply Hls; by left).
    rewrite IH; [done|done|]. intros l0 Hl0. apply Hls. by right.
Qed.

Lemma split_bytes (sep : ascii) (s l : str) (x : ascii) :
  l ∈ split sep s → x ∈ l → x ∈ s.
Proof.
  revert l. induction s as [|c s IH]; simpl; intros l Hl Hx.
  - apply list_elem_of_singleton in Hl as ->. done.
  - destruct (byteEq c sep) eqn:Hc.
    + apply elem_of_cons in Hl as [->|Hl]; [by apply elem_of_nil in Hx|].
      right. by apply (IH l).
    + destruct (CommentsFacts.split_cons sep s) as (l0 & ls & Hs). rewrite Hs in Hl, IH.
      apply elem_of_cons in Hl as [->|Hl].
      * apply elem_of_cons in Hx as [->|Hx]; [by left|].
        right. apply (IH l0); [by left|done].
      * right. apply (IH l); [by right|done].
Qed.

Lemma concat_terminated (sep : ascii) (ls : list str) :
  ls ≠ [] → concat ((λ o, o ++ [sep]) <$> ls) = join [sep] ls ++ [sep].
Proof.
  induction ls as [|l ls IH]; [done|]. intros _.
  destruct ls as [|l' ls]; [by rewrite fmap_cons, concat_cons, app_nil_r|].
  rewrite fmap_cons, concat_cons, IH by done.
  rewrite (join_cons _ l) by done. by rewrite <- !app_assoc.
Qed.

Lemma index_Some (s sub : str) (i : nat) :
  index s sub = Some i → ∃ p r, s = p ++ sub ++ r ∧ length p = i.
Proof.
  revert i. induction s as [|c s IH]; intros i; simpl.
  - destruct (hasPrefix [] sub) eqn:Hp; [|done].
    intros [= <-]. apply hasPrefix_true in Hp as [r Hr]. by exists [], r.
  - destruct (hasPrefix (c :: s) sub) eqn:Hp.
    + intros [= <-]. apply hasPrefix_true in Hp as [r Hr]. by exists [], r.
    + destruct (index s sub) as [j|] eqn:Hj; [|done].
      intros [= <-]. destruct (IH j eq_refl) as (p & r & -> & Hlen).
      exists (c :: p), r. split; [done|]. simpl. by rewrite Hlen.
Qed.

Lemma index_None (s sub p r : str) : index s sub = None → s ≠ p ++ sub ++ r.
Proof.
  revert s. induction p as [|c p IH]; intros s Hnone ->.
  - simpl in Hnone. destruct (sub ++ r) eqn:E; simpl in Hnone.
    + assert (sub = []) as -> by (by destruct sub). done.
    + rewrite <- E in Hnone.
      by rewrite hasPrefix_app in Hnone.
  - simpl in Hnone.
    destruct (hasPrefix (c :: p ++ sub ++ r) sub); [done|].
    destruct (index (p ++ sub ++ r) sub) eqn:E; [done|].
    by eapply IH.
Qed.

Lemma contains_true (s sub : str) :
  contains s sub = true ↔ ∃ p r, s = p ++ sub ++ r.
Proof.
  unfold contains. split.
  - destruct (index s sub) as [i|] eqn:E; [|done].
    intros _. apply index_Some in E as (p & r & -> & _). by eexists _, _.
  - intros (p & r & ->). destruct (index _ sub) eqn:E; [done|].
    by eapply index_None in E.
Qed.

Lemma contains_false (s sub : str) :
  contains s sub = false ↔ ∀ p r, s ≠ p ++ sub ++ r.
Proof.
  rewrite <- not_true_iff_false, contains_true. split.
  - intros H p r E. apply H. by eexists _, _.
  - intros H (p & r & E). by eapply H.
Qed.

(** ** Comment stripper: what the output looks like *)

Module StripperFacts.
Import Comments CommentsFacts.

Local Arguments scanLine : simpl never.

Lemma scanLine_no_slash (l : str) :
  "/"%char ∉ l → scanLine false l = (l, false).
Proof.
  induction l as [|c l IH]; intros Hl; [done|].
  apply not_elem_of_cons in Hl as [Hc Hl].
  rewrite scanLine_plain by (apply byteEq_false; congruence).
  by rewrite (IH Hl).
Qed.

Lemma trace_no_slash (lines : list str) :
  (∀ l, l ∈ lines → "/"%char ∉ l) →
  trace false lines = (λ l, (l, false)) <$> lines.
Proof.
  induction lines as [|l lines IH]; intros Hls; [done|].
  cbn [trace]. rewrite scanLine_no_slash by (apply Hls; by left).
  cbn [snd]. rewrite IH; [done|]. intros l' Hl'. apply Hls. by right.
Qed.

(** A text without a slash has no comment: every line is written back,
    each followed by a newline, so the result is the text and one
    newline. *)
Theorem removeComments_without_slash (code : str) :
  "/"%char ∉ code → removeComments code = code ++ [NL].
Proof.
  intros Hcode. unfold removeComments. rewrite linesLoop_trace. cbn [app].
  rewrite trace_no_slash.
  2:{ intros l Hl Hx. apply Hcode. by apply (split_bytes NL code l). }
  rewrite <- list_fmap_compose.
  rewrite (list_fmap_ext _ (λ o, o ++ [NL]) (split NL code)).
  2:{ intros i l _. unfold contribution, emits. cbn. by rewrite orb_true_r. }
  destruct (split_cons NL code) as (l & ls & Hs).
  rewrite concat_terminated by (by rewrite Hs).
  by rewrite join_split.
Qed.

Lemma removeComments_without_slash_witness :
  removeComments (lit "float a;") = lit "float a;" ++ [NL].
Proof.
  apply removeComments_without_slash. vm_compute.
  intros H. repeat (apply elem_of_cons in H as [H|H]; [discriminate H|]).
  by apply elem_of_nil in H.
Defined.

Lemma scanLine_sublist_aux (n : nat) :
  ∀ (l : str) (b : bool), length l ≤ n → (scanLine b l).1 `sublist_of` l.
Proof.
  induction n as [|n IH]; intros l b Hlen.
  - destruct l; [|simpl in Hlen; lia]. by destruct b.
  - destruct l as [|c [|d rest]].
    + by destruct b.
    + destruct b; [apply sublist_nil_l|done].
    + simpl in Hlen. destruct b.
      * rewrite scanLine_block.
        destruct (byteEq c "*" && byteEq d "/").
        -- do 2 apply sublist_cons. apply IH. lia.
        -- apply sublist_cons. apply IH. simpl. lia.
      * rewrite scanLine_normal.
        destruct (byteEq c "/" && byteEq d "*").
        { do 2 apply sublist_cons. apply IH. lia. }
        destruct (byteEq c "/" && byteEq d "/"); [apply sublist_nil_l|].
        cbn [fst]. apply sublist_skip. apply IH. simpl. lia.
Qed.

Lemma scanLine_sublist (l : str) (b : bool) : (scanLine b l).1 `sublist_of` l.
Proof. by apply (scanLine_sublist_aux (length l)). Qed.

Lemma trace_sublist (lines : list str) (b : bool) :
  concat (contribution emits <$> trace b lines)
  `sublist_of` concat ((λ o, o ++ [NL]) <$> lines).
Proof.
  revert b. induction lines as [|l lines IH]; intros b; [done|].
  cbn [trace]. rewrite !fmap_cons, !concat_cons.
  apply sublist_app; [|apply IH].
  unfold contribution. destruct (emits _ _); [|apply sublist_nil_l].
  apply sublist_app; [apply scanLine_sublist|done].
Qed.

(** The stripper only deletes: its output is a subsequence of the input
    followed by one newline. *)
Theorem removeComments_only_deletes (code : str) :
  removeComments code `sublist_of` code ++ [NL].
Proof.
  unfold removeComments. rewrite linesLoop_trace. cbn [app].
  destruct (split_cons NL code) as (l & ls & Hs).
  rewrite <- (join_split NL code) at 2.
  rewrite <- concat_terminated by (by rewrite Hs).
  apply trace_sublist.
Qed.

(** *** No comment opener is left *)

Lemma noPair_nil a b : noPair a b [].
Proof. intros [|] r; done. Qed.

Lemma noPair_single a b c : noPair a b [c].
Proof. intros [|? [|]] r; done. Qed.

Lemma noPair_cons a b c t :
  ¬ (c = a ∧ head t = Some b) → noPair a b t → noPair a b (c :: t).
Proof.
  intros Hc Ht [|x p] r E.
  - injection E as -> ->. by apply Hc.
  - injection E as -> E. by apply (Ht p r).
Qed.

Lemma noPair_lines (a b : ascii) (o t : str) :
  a ≠ NL → b ≠ NL → noPair a b o → noPair a b t → noPair a b (o ++ NL :: t).
Proof.
  intros Ha Hb Ho. revert Ho. induction o as [|c o IH]; intros Ho Ht.
  - apply noPair_cons; [|done]. intros [E _]. by subst.
  - cbn [app]. apply noPair_cons.
    + intros [-> Hh]. destruct o as [|d o].
      * simpl in Hh. injection Hh as Hh. by subst.
      * simpl in Hh. injection Hh as ->. by apply (Ho [] o).
    + apply IH; [|done]. intros p r E. apply (Ho (c :: p) r). by rewrite E.
Qed.

Lemma noPair_terminated (a b : ascii) (os : list str) :
  a ≠ NL → b ≠ NL → (∀ o, o ∈ os → noPair a b o) →
  noPair a b (concat ((λ o, o ++ [NL]) <$> os)).
Proof.
  intros Ha Hb. induction os as [|o os IH]; intros Hos; [apply noPair_nil|].
  rewrite fmap_cons, concat_cons, <- app_assoc. cbn [app].
  apply noPair_lines; [done|done|apply Hos; by left|].
  apply IH. intros o' Ho'. apply Hos. by right.
Qed.

Lemma scanLine_length (l : str) (b : bool) : length (scanLine b l).1 ≤ length l.
Proof. apply sublist_length, scanLine_sublist. Qed.

Lemma clean_noPair (d : ascii) (o : str) :
  d = "/"%char ∨ d = "*"%char →
  scanLine false o = (o, false) → noPair "/" d o.
Proof.
  intros Hd. induction o as [|c o IH]; intros Hclean; [apply noPair_nil|].
  destruct o as [|e o]; [apply noPair_single|].
  rewrite scanLine_normal in Hclean.
  destruct (byteEq c "/" && byteEq e "*") eqn:Hblock.
  { pose proof (scanLine_length o true) as Hlen. rewrite Hclean in Hlen.
    simpl in Hlen. lia. }
  destruct (byteEq c "/" && byteEq e "/") eqn:Hline; [done|].
  injection Hclean as Ho Hb.
  apply noPair_cons.
  - intros [-> [= ->]]. destruct Hd as [->| ->]; [by vm_compute in Hline|by vm_compute in Hblock].
  - apply IH. by destruct (scanLine false (e :: o)); simpl in *; subst.
Qed.

Lemma removeComments_noPair (code : str) (d : ascii) :
  d = "/"%char ∨ d = "*"%char → noPair "/" d (removeComments code).
Proof.
  intros Hd. unfold removeComments. rewrite linesLoop_trace. cbn [app].
  rewrite contribution_written.
  apply noPair_terminated; [done|by destruct Hd as [->| ->]|].
  intros o Ho. unfold written in Ho.
  apply list_elem_of_fmap in Ho as (r & -> & Hr).
  apply list_elem_of_filter in Hr as [_ Hr].
  apply trace_scanned in Hr as (b & line & _ & ->).
  apply clean_noPair; [done|apply scanLine_clean].
Qed.

(** The output contains neither of the two comment openers: no two
    slashes in a row and no slash followed by a star. *)
Theorem removeComments_leaves_no_opener (code : str) :
  contains (removeComments code) (lit "//") = false
  ∧ contains (removeComments code) (lit "/*") = false.
Proof.
  split; apply contains_false; intros p r; apply removeComments_noPair; auto.
Qed.

(** Every write ends in a newline, so the output is empty or ends in a
    newline. *)
Lemma removeComments_ends (code : str) :
  removeComments code = [] ∨ ∃ t, removeComments code = t ++ [NL].
Proof.
  unfold removeComments. rewrite linesLoop_trace. cbn [app].
  rewrite contribution_written.
  induction (written _) as [|o os IH] using rev_ind; [by left|].
  right. rewrite fmap_app, concat_app. cbn. rewrite app_nil_r, app_assoc. by eexists.
Qed.

End StripperFacts.

(** ** String-literal escaper: texts it leaves alone *)

Module EscaperFixpoint.
Import Escaper EscaperFacts.

Lemma escapeOf_control (c : ascii) :
  isControl c = true →
  2 ≤ length (escapeOf c)
  ∧ Forall (λ b, b ≠ DQUOTE) (escapeOf c)
  ∧ ∃ y t, rev (escapeOf c) = y :: t ∧ y ≠ BACKSLASH.
Proof.
  destruct c as [[] [] [] [] [] [] [] []]; vm_compute; intros H;
    try discriminate H;
    (split_and!; [lia|repeat constructor; discriminate|
                  eexists _, _; split; [reflexivity|discriminate]]).
Qed.

Lemma emitted_cases (before : str) (c : ascii) :
  (emitted before c = [c]
   ∧ (isControl c = true → insideString before = true → escapeConsumed before = true))
  ∨ (isControl c = true ∧ insideString before = true
     ∧ escapeConsumed before = false ∧ emitted before c = escapeOf c).
Proof.
  unfold emitted.
  destruct (insideString before); [|by left].
  destruct (escapeConsumed before); [by left|].
  destruct (isControl c) eqn:Hc; [by right|].
  left. split; [by apply escapeOf_plain|done].
Qed.

Lemma emittedFrom_length (rest before : str) :
  length rest ≤ length (emittedFrom before rest).
Proof.
  revert before. induction rest as [|c rest IH]; intros before; [done|].
  cbn [emittedFrom]. rewrite length_app. specialize (IH (c :: before)).
  destruct (emitted_cases before c) as [[-> _]|(Hc & _ & _ & ->)].
  - simpl. lia.
  - apply escapeOf_control in Hc as [Hlen _]. simpl. lia.
Qed.

Lemma emittedFrom_app (x y before : str) :
  emittedFrom before (x ++ y) = emittedFrom before x ++ emittedFrom (rev x ++ before) y.
Proof.
  revert before. induction x as [|c x IH]; intros before; [done|].
  cbn [app emittedFrom]. rewrite IH, <- !app_assoc. cbn [rev].
  by rewrite <- app_assoc.
Qed.

Lemma untouched_cons (before : str) (c : ascii) (rest : str) :
  untouched before (c :: rest)
  ↔ (isControl c = true → insideString before = true → escapeConsumed before = true)
    ∧ untouched (c :: before) rest.
Proof.
  unfold untouched. split.
  - intros H. split; [apply (H 0 c); done|].
    intros i x Hx Hc. specialize (H (S i) x Hx Hc).
    cbn [take rev] in H. by rewrite <- app_assoc in H.
  - intros [H0 H] [|i] x Hx Hc.
    + injection Hx as ->. by apply H0.
    + cbn [take rev]. rewrite <- app_assoc. by apply (H i x).
Qed.

Lemma emittedFrom_fixed (rest before : str) :
  emittedFrom before rest = rest ↔ untouched before rest.
Proof.
  revert before. induction rest as [|c rest IH]; intros before.
  - split; [intros _ i c; done|done].
  - rewrite untouched_cons, <- IH. cbn [emittedFrom].
    pose proof (emittedFrom_length rest (c :: before)) as Hlen.
    destruct (emitted_cases before c) as [[-> Hok]|(Hc & Hin & Hesc & ->)].
    + cbn [app]. split; [by intros [= E]|by intros [_ ->]].
    + split.
      * intros E. exfalso. apply (f_equal length) in E.
        rewrite length_app in E. cbn [length] in E.
        apply escapeOf_control in Hc as [Hc _]. lia.
      * intros [H _]. rewrite H in Hesc; done.
Qed.

(** The escaper changes a text exactly when the text has a control byte
    inside a string literal that does not directly follow an escaping
    backslash; any other text, valid JSON in particular, comes back
    byte for byte. *)
Theorem preprocessJSON_unchanged_iff (data : str) :
  escaped data = data
  ↔ ∀ i c, data !! i = Some c → isControl c = true →
      insideString (rev (take i data)) = true →
      escapeConsumed (rev (take i data)) = true.
Proof.
  rewrite escaped_emittedFrom, emittedFrom_fixed. unfold untouched.
  by setoid_rewrite app_nil_r.
Qed.

(** *** Escaping twice *)

Lemma emittedFrom_no_control (l before : str) :
  Forall (λ b, isControl b = false) l → emittedFrom before l = l.
Proof.
  intros Hl. apply emittedFrom_fixed. intros i c Hi Hc.
  rewrite Forall_lookup in Hl. rewrite (Hl i c Hi) in Hc. done.
Qed.

Lemma realQuotes_no_quote (l before : str) :
  Forall (λ b, b ≠ DQUOTE) l → realQuotes (l ++ before) = realQuotes before.
Proof.
  induction 1 as [|c l Hc Hl IH]; [done|]. cbn [app realQuotes].
  assert (byteEq c DQUOTE = false) as -> by by apply byteEq_false.
  by rewrite IH.
Qed.

Lemma emitted_inStep (before out : str) (c : ascii) :
  inStep before out →
  emittedFrom out (emitted before c) = emitted before c
  ∧ inStep (c :: before) (rev (emitted before c) ++ out).
Proof.
  intros [Hb Hq].
  assert (insideString out = insideString before) as Hin.
  { unfold insideString. by rewrite Hq. }
  assert (escapeConsumed out = escapeConsumed before) as Hesc.
  { unfold escapeConsumed. by rewrite Hb. }
  destruct (emitted_cases before c) as [[E Hok]|(Hc & Hi & He & E)]; rewrite E.
  - split.
    + cbn [emittedFrom]. rewrite app_nil_r.
      unfold emitted in E |- *. by rewrite Hin, Hesc.
    + split; cbn; by rewrite Hb, ?Hq.
  - destruct (escapeOf_control c Hc) as (_ & Hnq & y & t & Hrev & Hy).
    split.
    + apply emittedFrom_no_control.
      pose proof (escapeOf_no_control c) as Hnc.
      rewrite forallb_forall in Hnc. apply Forall_forall. intros b Hb'.
      apply list_elem_of_In, Hnc in Hb'. by apply negb_true_iff in Hb'.
    + split.
      * rewrite Hrev. cbn.
        assert (byteEq y BACKSLASH = false) as -> by by apply byteEq_false.
        assert (byteEq c BACKSLASH = false) as ->; [|done].
        apply byteEq_false. intros ->. done.
      * rewrite realQuotes_no_quote by (by apply Forall_rev).
        cbn. assert (byteEq c DQUOTE = false) as ->; [|done].
        apply byteEq_false. intros ->. done.
Qed.

Lemma emittedFrom_twice (rest before out : str) :
  inStep before out →
  emittedFrom out (emittedFrom before rest) = emittedFrom before rest.
Proof.
  revert before out. induction rest as [|c rest IH]; intros before out Hs; [done|].
  cbn [emittedFrom]. rewrite emittedFrom_app.
  destruct (emitted_inStep before out c Hs) as [-> Hs'].
  by rewrite (IH _ _ Hs').
Qed.

(** Escaping is idempotent: the escapes written hold no control byte,
    and they leave the scanner in the state it had in the input, so a
    second run finds nothing to rewrite. *)
Theorem preprocessJSON_idempotent (data : str) :
  escaped (escaped data) = escaped data.
Proof.
  rewrite !escaped_emittedFrom. by apply emittedFrom_twice.
Qed.

End EscaperFixpoint.

(** ** Function-scope locator *)

Module ScopeFacts.
Import Scope.

(** On a line index inside the array the locator returns the nearest
    line at or above the index that passes the function-line test, with
    the flag telling whether that line mentions [mainImage]; when no such
    line exists it returns [-1] and [false]. *)
Theorem findFunctionScope_nearest (lines : list str) (lineIndex : nat) :
  lineIndex < length lines →
  ∃ idx isMainImage,
    findFunctionScope lines lineIndex = Some (idx, isMainImage)
    ∧ ((idx = (-1)%Z ∧ isMainImage = false
        ∧ ∀ j l, j ≤ lineIndex → lines !! j = Some l →
                 isFunctionLine (trimSpace l) = false)
       ∨ (∃ k l, idx = Z.of_nat k ∧ k ≤ lineIndex ∧ lines !! k = Some l
                 ∧ isFunctionLine (trimSpace l) = true
                 ∧ isMainImage = contains (trimSpace l) (lit "mainImage")
                 ∧ ∀ j l', k < j ≤ lineIndex → lines !! j = Some l' →
                           isFunctionLine (trimSpace l') = false)).
Proof.
  induction lineIndex as [|i IH]; intros Hlen.
  - destruct (lookup_lt_is_Some_2 lines 0 Hlen) as [l Hl].
    cbn [findFunctionScope]. rewrite Hl. cbn [mbind option_bind].
    destruct (isFunctionLine (trimSpace l)) eqn:Hf.
    + exists 0%Z, (contains (trimSpace l) (lit "mainImage")).
      split; [by destruct (contains _ _)|].
      right. exists 0, l. split_and!; try done. intros j l' Hj. lia.
    + exists (-1)%Z, false. split; [done|]. left. split_and!; try done.
      intros j l' Hj Hl'. assert (j = 0) as -> by lia. congruence.
  - destruct (lookup_lt_is_Some_2 lines (S i) Hlen) as [l Hl].
    cbn [findFunctionScope]. rewrite Hl. cbn [mbind option_bind].
    destruct (isFunctionLine (trimSpace l)) eqn:Hf.
    + exists (Z.of_nat (S i)), (contains (trimSpace l) (lit "mainImage")).
      split; [by destruct (contains _ _)|].
      right. exists (S i), l. split_and!; try done. intros j l' Hj. lia.
    + destruct (IH ltac:(lia)) as (idx & b & -> & Hcases).
      exists idx, b. split; [done|].
      destruct Hcases as [(-> & -> & Hnone)|(k & l0 & -> & Hk & Hl0 & Hf0 & -> & Hbetween)].
      * left. split_and!; try done. intros j l' Hj Hl'.
        destruct (decide (j = S i)) as [->|Hne]; [congruence|].
        apply (Hnone j); [lia|done].
      * right. exists k, l0. split_and!; try done; [lia|].
        intros j l' Hj Hl'.
        destruct (decide (j = S i)) as [->|Hne]; [congruence|].
        apply (Hbetween j); [lia|done].
Qed.

Lemma findFunctionScope_nearest_witness :
  ∃ idx isMainImage,
    findFunctionScope [lit "void f() {"; lit "  x;"] 1 = Some (idx, isMainImage).
Proof.
  destruct (findFunctionScope_nearest [lit "void f() {"; lit "  x;"] 1)
    as (idx & b & H & _); [simpl; lia|].
  by exists idx, b.
Defined.

Lemma findFunctionScope_in_range (lines : list str) (lineIndex : nat) :
  lineIndex < length lines → is_Some (findFunctionScope lines lineIndex).
Proof.
  induction lineIndex as [|i IH]; intros Hlt;
    destruct (lookup_lt_is_Some_2 lines _ Hlt) as [l Hl];
    cbn [findFunctionScope]; rewrite Hl; cbn [mbind option_bind];
    (destruct (isFunctionLine (trimSpace l)); [by destruct (contains _ _)|]).
  - done.
  - apply IH. lia.
Qed.

(** The locator panics exactly on a line index past the end of the
    array. *)
Theorem findFunctionScope_panics_iff (lines : list str) (lineIndex : nat) :
  findFunctionScope lines lineIndex = None ↔ length lines ≤ lineIndex.
Proof.
  split.
  - intros Hnone. destruct (decide (lineIndex < length lines)) as [Hlt|]; [|lia].
    apply findFunctionScope_in_range in Hlt as [r Hr]. congruence.
  - intros Hlen. apply lookup_ge_None in Hlen.
    destruct lineIndex; cbn [findFunctionScope]; by rewrite Hlen.
Qed.

End ScopeFacts.

(** ** Variable-type inferencer: what the answer depends on *)

Module InferencerWindow.
Import Inferencer InferencerFacts.

Lemma chainLoop_window (fuel : nat) (lines lines' : list str) (low j : Z) :
  (∀ k, (low <= k)%Z → (0 <= k <= j)%Z →
        lines !! Z.to_nat k = lines' !! Z.to_nat k) →
  chainLoop fuel lines low j = chainLoop fuel lines' low j.
Proof.
  revert j. induction fuel as [|fuel IH]; intros j Hsame; [done|].
  cbn [chainLoop].
  destruct ((0 <=? j)%Z && (low <=? j)%Z) eqn:Hcond; [|done].
  apply andb_true_iff in Hcond as [H0 H20].
  apply Z.leb_le in H0. apply Z.leb_le in H20.
  unfold lineAt. rewrite <- (Hsame j) by lia.
  rewrite (IH (j - 1)%Z) by (intros k ? ?; apply Hsame; lia).
  done.
Qed.

(** The inferencer reads at most the twenty lines in front of the line
    index: two line arrays that agree there give the same answer. *)
Theorem determineVariableType_reads_twenty_lines (regexpCompiles : str → bool)
    (varName code : str) (lines lines' : list str) (lineIndex : Z) :
  (∀ k, (0 <= k)%Z → (lineIndex - 20 <= k < lineIndex)%Z →
        lines !! Z.to_nat k = lines' !! Z.to_nat k) →
  determineVariableType regexpCompiles varName code lines lineIndex
  = determineVariableType regexpCompiles varName code lines' lineIndex.
Proof.
  intros Hsame. unfold determineVariableType.
  assert (chainLoop 21 lines (subInt lineIndex 20) (subInt lineIndex 1)
          = chainLoop 21 lines' (subInt lineIndex 20) (subInt lineIndex 1)) as ->; [|done].
  destruct (decide (lineIndex < minInt)%Z) as [Hbelow|Hint].
  { rewrite !(chainLoop_negative 21); [done|..];
      rewrite (subInt_below lineIndex 1) by done; unfold minInt in Hbelow; lia. }
  destruct (decide (lineIndex = minInt)) as [->|Hne].
  { rewrite !(chainLoop_out_of_range 20); [done|..]; try done; by right. }
  destruct (decide (lineIndex < minInt + 20)%Z) as [Hlow|Hhigh].
  { rewrite !(chainLoop_negative 21); [done|..];
      rewrite (subInt_plain lineIndex 1) by lia; unfold minInt in Hlow; lia. }
  rewrite (subInt_plain lineIndex 1), (subInt_plain lineIndex 20) by lia.
  apply chainLoop_window. intros k ? ?. apply Hsame; lia.
Qed.

Lemma determineVariableType_reads_twenty_lines_witness :
  determineVariableType sampleCompiles (lit "a") (lit "a.x")
    (lit "float b = 1.0;" :: replicate 21 []) 21
  = determineVariableType sampleCompiles (lit "a") (lit "a.x")
      (lit "vec3 b = c;" :: replicate 21 []) 21.
Proof.
  apply determineVariableType_reads_twenty_lines.
  intros k H0 Hk.
  assert (Z.to_nat k = S (Z.to_nat (k - 1))) as -> by lia.
  reflexivity.
Defined.

(** Without a declaration chain to read (a line index of zero or below,
    above the least [int]) the searches for component reads and
    arithmetic decide nothing: the answer is [vec4(0.0)] when the name
    occurs in the code followed by [.w] or [.z]; otherwise the swizzle
    pattern is compiled, and the answer is [vec2(0.0)] when the compiler
    accepts it and a panic when it does not. *)
Theorem determineVariableType_without_chain (regexpCompiles : str → bool)
    (varName code : str) (lines : list str) (lineIndex : Z) :
  (minInt < lineIndex <= 0)%Z →
  determineVariableType regexpCompiles varName code lines lineIndex
  = if contains code (varName ++ lit ".w") || contains code (varName ++ lit ".z")
    then Ok (lit "vec4(0.0)")
    else if regexpCompiles (swizzleText varName) then Ok (lit "vec2(0.0)")
         else Err BadPattern.
Proof.
  intros Hidx. unfold determineVariableType, mustCompile.
  rewrite chainLoop_negative by (rewrite subInt_plain by lia; lia).
  rewrite <- !app_assoc.
  change (lit "." ++ lit "w") with (lit ".w").
  change (lit "." ++ lit "z") with (lit ".z").
  rewrite !orb_diag.
  destruct (contains code (varName ++ lit ".w")); [done|].
  destruct (contains code (varName ++ lit ".z")); [done|]. cbn [orb].
  destruct (regexpCompiles _); [|done]. cbn [mbind result_bind].
  repeat match goal with
         | |- context [if ?b then _ else _] => destruct b
         end; done.
Qed.

Lemma determineVariableType_without_chain_witness :
  determineVariableType sampleCompiles (lit "a") (lit "a.z += 1.0;") [] 0
  = Ok (lit "vec4(0.0)").
Proof.
  rewrite determineVariableType_without_chain by (unfold minInt; lia).
  vm_compute. reflexivity.
Defined.

End InferencerWindow.

(** ** Substrings *)

Lemma contains_infix (outer inner sub a b : str) :
  outer = a ++ inner ++ b → contains inner sub = true → contains outer sub = true.
Proof.
  intros -> (p & r & ->)%contains_true. apply contains_true.
  exists (a ++ p), (r ++ b). by rewrite <- !app_assoc.
Qed.

Lemma contains_infix_false (outer inner sub a b : str) :
  outer = a ++ inner ++ b → contains outer sub = false → contains inner sub = false.
Proof.
  intros Ho Hc. destruct (contains inner sub) eqn:Hi; [|done].
  by rewrite (contains_infix _ _ _ _ _ Ho Hi) in Hc.
Qed.

Lemma join_infix (sep l : str) (ls : list str) :
  l ∈ ls → ∃ a b, join sep ls = a ++ l ++ b.
Proof.
  induction ls as [|e es IH]; intros Hl; [by apply elem_of_nil in Hl|].
  destruct es as [|e' es].
  - apply list_elem_of_singleton in Hl as ->. exists [], []. simpl. by rewrite app_nil_r.
  - rewrite join_cons by done.
    apply elem_of_cons in Hl as [->|Hl]; [by exists [], (sep ++ join sep (e' :: es))|].
    destruct (IH Hl) as (a & b & ->).
    exists (e ++ sep ++ a), b. by rewrite <- !app_assoc.
Qed.

Lemma split_infix (sep : ascii) (s l : str) :
  l ∈ split sep s → ∃ a b, s = a ++ l ++ b.
Proof.
  intros Hl. destruct (join_infix [sep] l (split sep s) Hl) as (a & b & E).
  rewrite join_split in E. by exists a, b.
Qed.

Lemma trimLeftSpaceFuel_suffix (fuel : nat) (s : str) :
  ∃ a, s = a ++ trimLeftSpaceFuel fuel s.
Proof.
  revert s. induction fuel as [|fuel IH]; intros s; [by exists []|].
  cbn [trimLeftSpaceFuel]. destruct (spaceWidth s) as [|w]; [by exists []|].
  destruct (IH (drop (S w) s)) as [a Ha].
  exists (take (S w) s ++ a). rewrite <- app_assoc, <- Ha. by rewrite take_drop.
Qed.

Lemma trimRevSpaceFuel_suffix (fuel : nat) (s : str) :
  ∃ a, s = a ++ trimRevSpaceFuel fuel s.
Proof.
  revert s. induction fuel as [|fuel IH]; intros s; [by exists []|].
  cbn [trimRevSpaceFuel]. destruct (spaceWidthRev s) as [|w]; [by exists []|].
  destruct (IH (drop (S w) s)) as [a Ha].
  exists (take (S w) s ++ a). rewrite <- app_assoc, <- Ha. by rewrite take_drop.
Qed.

(** [TrimSpace] cuts a text out of its argument. *)
Lemma trimSpace_infix (s : str) : ∃ a b, s = a ++ trimSpace s ++ b.
Proof.
  unfold trimSpace.
  destruct (trimLeftSpaceFuel_suffix (length s) s) as [a Ha].
  set (l := trimLeftSpaceFuel (length s) s) in *.
  destruct (trimRevSpaceFuel_suffix (length l) (rev l)) as [b Hb].
  exists a, (rev b). rewrite <- rev_app_distr, <- Hb, rev_involutive. done.
Qed.

Lemma trimSpace_contains (s sub : str) :
  contains s sub = false → contains (trimSpace s) sub = false.
Proof.
  intros Hc. destruct (trimSpace_infix s) as (a & b & E).
  exact (contains_infix_false _ _ _ _ _ E Hc).
Qed.

Lemma line_contains (code l sub : str) :
  l ∈ split NL code → contains code sub = false → contains (trimSpace l) sub = false.
Proof.
  intros (a & b & E)%split_infix Hc.
  apply trimSpace_contains. exact (contains_infix_false _ _ _ _ _ E Hc).
Qed.

(** ** Where a pattern matches *)

Lemma searchFrom_sound (r : regex) (s : str) :
  ∀ (pos : nat) (prev : option ascii) (b e : nat) (caps : captures),
    searchFrom r pos prev s = Some (b, e, caps) →
    ∃ p m t, s = p ++ m ++ t ∧ lang r m.
Proof.
  induction s as [|c s IH]; intros pos prev b e caps; simpl.
  - destruct (matchHere r prev []) as [[s' caps']|] eqn:Hm; [|done].
    intros _. apply RegexpFacts.matchHere_sound in Hm as (m & Hs & Hlang).
    by exists [], m, s'.
  - destruct (matchHere r prev (c :: s)) as [[s' caps']|] eqn:Hm.
    + intros _. apply RegexpFacts.matchHere_sound in Hm as (m & Hs & Hlang).
      by exists [], m, s'.
    + intros H. apply IH in H as (p & m & t & -> & Hlang).
      by exists (c :: p), m, t.
Qed.

Lemma matchString_findStringSubmatch (r : regex) (s : str) :
  matchString r s = false ↔ findStringSubmatch r s = None.
Proof.
  unfold matchString, findStringSubmatch.
  destruct (searchFrom r 0 None s) as [[[b e] caps]|]; split; done.
Qed.

Lemma lang_rseq_elem (c : ascii) (rs1 rs2 : list regex) (m : str) :
  lang (rseq (rs1 ++ chr c :: rs2)) m → c ∈ m.
Proof.
  revert m. induction rs1 as [|r rs1 IH]; intros m H.
  - cbn in H. apply RegexpFacts.lang_cat_inv in H as (m1 & m2 & -> & H1 & _).
    apply RegexpFacts.lang_class_inv in H1 as (d & -> & Hd).
    apply byteEq_true in Hd as ->. by left.
  - cbn in H. apply RegexpFacts.lang_cat_inv in H as (m1 & m2 & -> & _ & H2).
    apply elem_of_app. right. by apply IH.
Qed.

(** ** Orphaned-assignment remover *)

Module OrphansFacts.
Import Orphans.

Lemma orphanedPattern_needs_equals (line : str) :
  "="%char ∉ line → findStringSubmatch orphanedPattern line = None.
Proof.
  intros Hline. unfold findStringSubmatch.
  destruct (searchFrom orphanedPattern 0 None line) as [[[b e] caps]|] eqn:Hs; [|done].
  exfalso. apply searchFrom_sound in Hs as (p & m & t & -> & Hm).
  apply Hline. rewrite !elem_of_app. right. left.
  by apply (lang_rseq_elem "=" [BeginText; spaces0; Group 1 identifier; spaces0]
              [spaces0; Group 2 notSemicolon1; chr ";"]).
Qed.

Section WithCompiler.
Variable regexpCompiles : str → bool.

Lemma filterLines_spec (lines : list str) (rest : list str) :
  ∀ (i : nat) (filteredLines out : list str),
    filterLines regexpCompiles lines i rest filteredLines = Ok out →
    ∃ mask, length mask = length rest
            ∧ out = filteredLines ++ selected mask rest
            ∧ ∀ j l, rest !! j = Some l →
                ∃ keep, keeps regexpCompiles lines (i + j) l = Ok keep
                        ∧ mask !! j = Some keep.
Proof.
  induction rest as [|line rest IH]; intros i acc out.
  - intros [= <-]. exists []. split_and!; [done|by rewrite app_nil_r|]. intros j l Hl. done.
  - cbn [filterLines]. destruct (keeps regexpCompiles lines i line) as [keep|e] eqn:Hk;
      [|done].
    cbn [mbind result_bind]. intros Hrest.
    apply IH in Hrest as (mask & Hlen & -> & Hmask).
    exists (keep :: mask). split_and!.
    + cbn. by rewrite Hlen.
    + destruct keep; cbn [selected]; [by rewrite <- app_assoc|done].
    + intros [|j] l Hl.
      * injection Hl as <-. exists keep. by rewrite Nat.add_0_r.
      * destruct (Hmask j l Hl) as (keep' & Hkeep' & Hj).
        exists keep'. by replace (i + S j) with (S i + j) by lia.
Qed.

Lemma isOrphaned_skipped (varName beforeCode : str) (varRefs : list str) :
  Forall (λ ref, skipped varName ref = true) varRefs →
  isOrphaned regexpCompiles varName beforeCode varRefs = Ok false.
Proof.
  induction 1 as [|ref refs Hr _ IH]; [done|].
  cbn [isOrphaned]. by rewrite Hr.
Qed.

(** The remover only drops whole lines; and when it returns, it has
    kept every line that is not an assignment statement, every line that
    starts with a type token, every assignment to a keyword and every
    assignment whose right-hand side names only allow-listed identifiers
    and the assigned name itself, each at its place. *)
Theorem removeOrphanedAssignments_keeps (code out : str) :
  removeOrphanedAssignments regexpCompiles code = Ok out →
  ∃ mask,
    length mask = length (split NL code)
    ∧ out = join [NL] (selected mask (split NL code))
    ∧ ∀ i line, split NL code !! i = Some line →
        (findStringSubmatch orphanedPattern line = None
         ∨ matchString typePattern line = true
         ∨ ∃ matches, findStringSubmatch orphanedPattern line = Some matches
             ∧ (isKeyword (group 1 matches) = true
                ∨ Forall (λ ref, skipped (group 1 matches) ref = true)
                    (findAllString varRefPattern (group 2 matches)))) →
        mask !! i = Some true.
Proof.
  unfold removeOrphanedAssignments.
  destruct (filterLines _ _ _ _ _) as [kept|e] eqn:Hf; [|done].
  cbn [mbind result_bind]. intros [= <-].
  apply filterLines_spec in Hf as (mask & Hlen & -> & Hmask).
  exists mask. split_and!; [done..|].
  intros i line Hi Hcase.
  destruct (Hmask i line Hi) as (keep & Hkeep & ->). f_equal.
  cbn [Nat.add] in Hkeep. revert Hkeep. unfold keeps.
  destruct Hcase as [->|[Ht|(matches & -> & Hm)]]; [by intros [= <-]| |].
  - destruct (findStringSubmatch _ _); [|by intros [= <-]].
    rewrite Ht. by intros [= <-].
  - destruct (matchString typePattern line); [by intros [= <-]|].
    destruct Hm as [->|Hrefs]; [by intros [= <-]|].
    destruct (isKeyword _); [by intros [= <-]|].
    unfold mustCompile.
    destruct (regexpCompiles (paramText _)); [|done]. cbn [mbind result_bind].
    destruct (matchString (paramOf _) _); [by intros [= <-]|].
    destruct (regexpCompiles (declMatText _)); [|done]. cbn [mbind result_bind].
    destruct (matchString (declMatOf _) _); cbn [negb]; [by intros [= <-]|].
    rewrite isOrphaned_skipped by done. cbn [mbind result_bind]. by intros [= <-].
Qed.

(** A text without an equals sign holds no assignment: it comes back
    unchanged, and no pattern is compiled for it. *)
Theorem removeOrphanedAssignments_without_equals (code : str) :
  "="%char ∉ code → removeOrphanedAssignments regexpCompiles code = Ok code.
Proof.
  intros Hcode. unfold removeOrphanedAssignments.
  assert (∀ rest i acc,
            (∀ l, l ∈ rest → "="%char ∉ l) →
            filterLines regexpCompiles (split NL code) i rest acc = Ok (acc ++ rest))
    as Hall.
  { induction rest as [|l rest IH]; intros i acc Hrest.
    - by rewrite app_nil_r.
    - cbn [filterLines]. unfold keeps at 1.
      rewrite orphanedPattern_needs_equals by (apply Hrest; by left).
      cbn [mbind result_bind].
      rewrite IH by (intros l' Hl'; apply Hrest; by right).
      by rewrite <- app_assoc. }
  rewrite Hall; [cbn [mbind result_bind app]; by rewrite join_split|].
  intros l Hl Hx. apply Hcode. by apply (split_bytes NL code l).
Qed.

End WithCompiler.

Lemma removeOrphanedAssignments_keeps_witness :
  ∃ mask,
    length mask = 2
    ∧ lit "float a;" ++ [NL] ++ lit "}"
      = join [NL] (selected mask [lit "float a;"; lit "}"])
    ∧ mask !! 1 = Some true.
Proof.
  destruct (removeOrphanedAssignments_keeps sampleCompiles
              (lit "float a;" ++ [NL] ++ lit "}") (lit "float a;" ++ [NL] ++ lit "}"))
    as (mask & Hlen & Hout & Hmask); [vm_compute; reflexivity|].
  exists mask. split_and!; [exact Hlen|exact Hout|].
  apply (Hmask 1 (lit "}")); [reflexivity|]. left. vm_compute. reflexivity.
Defined.

Lemma removeOrphanedAssignments_without_equals_witness :
  removeOrphanedAssignments sampleCompiles (lit "float a;") = Ok (lit "float a;").
Proof.
  apply removeOrphanedAssignments_without_equals. vm_compute.
  intros H. repeat (apply elem_of_cons in H as [H|H]; [discriminate H|]).
  by apply elem_of_nil in H.
Defined.

End OrphansFacts.

(** ** Duplicate-output-declaration fixer: texts it leaves alone *)

Module FragColorMore.
Import FragColor.

Lemma findMainImage_None (rest : list str) (i : nat) :
  (∀ l, l ∈ rest → contains (trimSpace l) (lit "void mainImage") = false) →
  findMainImage i rest = None.
Proof.
  revert i. induction rest as [|l rest IH]; intros i Hrest; [done|].
  cbn [findMainImage]. rewrite (Hrest l) by by left.
  apply IH. intros l' Hl'. apply Hrest. by right.
Qed.

(** A text comes back unchanged when it nowhere contains
    [void mainImage], and also when it nowhere contains one of the two
    spellings of the redeclaration. *)
Theorem fixMainImageFragColor_unchanged (code : str) :
  contains code (lit "void mainImage") = false
  ∨ (contains code (lit "vec4 fragColor =") = false
     ∧ contains code (lit "vec4 fragColor=") = false) →
  fixMainImageFragColor code = code.
Proof.
  intros Hcase. unfold fixMainImageFragColor.
  destruct Hcase as [Hmain|[Hd1 Hd2]].
  - rewrite findMainImage_None; [done|].
    intros l Hl. by apply (line_contains code).
  - destruct (findMainImage 0 (split NL code)) as [start|]; [|done].
    rewrite (imap_ext _ (const id)).
    + rewrite imap_const, list_fmap_id. apply join_split.
    + intros i l Hl. apply list_elem_of_lookup_2 in Hl.
      assert (rewriteLine l = l) as ->; [|cbn; by destruct (_ && _)].
      unfold rewriteLine, declares.
      by rewrite (line_contains code l _ Hl Hd1), (line_contains code l _ Hl Hd2).
Qed.

Lemma fixMainImageFragColor_unchanged_witness :
  fixMainImageFragColor (lit "void mainImage() { fragColor = vec4(1.0); }")
  = lit "void mainImage() { fragColor = vec4(1.0); }".
Proof.
  apply fixMainImageFragColor_unchanged. right. vm_compute. done.
Defined.

(** A line inside the entry function that starts, after its white
    space, with the redeclaration loses the type token: what is left is
    one space for every leading space or tab, and the trimmed text from
    [fragColor] on. *)
Theorem rewriteLine_drops_type (line rest : str) :
  trimSpace line = lit "vec4 fragColor" ++ rest →
  hasPrefix rest (lit " =") = true ∨ hasPrefix rest (lit "=") = true →
  rewriteLine line
  = spaces (length line - length (trimLeftBlank line)) ++ lit "fragColor" ++ rest.
Proof.
  intros Htrim Hrest. unfold rewriteLine. rewrite Htrim.
  assert (declares (lit "vec4 fragColor" ++ rest) = true) as ->.
  { unfold declares. apply orb_true_iff.
    destruct Hrest as [[r ->]%hasPrefix_true|[r ->]%hasPrefix_true]; [left|right];
      apply contains_true; exists [], r; done. }
  done.
Qed.

Lemma rewriteLine_drops_type_witness :
  rewriteLine (TAB :: lit " vec4 fragColor = vec4(0.0);")
  = lit "  fragColor = vec4(0.0);".
Proof.
  apply (rewriteLine_drops_type (TAB :: lit " vec4 fragColor = vec4(0.0);")
           (lit " = vec4(0.0);")).
  - vm_compute. reflexivity.
  - left. reflexivity.
Defined.

End FragColorMore.

(** ** Loop pre-initialization only inserts *)

Module LoopMore.
Import Fixer.

Lemma initVars_sublist (loopStart : nat) (beforeLoop loopBodyCode : str)
    (vars : list (str * str)) (code : str) :
  code `sublist_of` initVars loopStart beforeLoop loopBodyCode vars code.
Proof.
  revert code. induction vars as [|[varName defaultValue] vars IH]; intros code; [done|].
  cbn [initVars]. etrans; [|apply IH].
  destruct (usedInLoop _ _ && negb _); [|done].
  rewrite <- (take_drop loopStart code) at 1.
  apply sublist_app; [done|]. by apply sublist_inserts_l.
Qed.

Lemma processLoop_sublist (vars : list (str * str)) (code : str) (m : nat * nat) :
  code `sublist_of` processLoop vars code m.
Proof.
  unfold processLoop. destruct (index _ _); [apply initVars_sublist|done].
Qed.

(** The loop pass only inserts text: the text it is given is a
    subsequence of the text it returns; and with no recorded variable it
    returns its text unchanged. *)
Theorem loopPass_only_inserts (orders : nat → list (str * str)) (code : str) :
  code `sublist_of` loopPass orders code ∧ loopPass (λ _, []) code = code.
Proof.
  split.
  - unfold loopPass. destruct (contains code _); [|done].
    generalize (findAllStringIndex loopPattern code). generalize 0.
    intros idx ms. revert idx. induction ms as [|m ms IH]; intros idx; [done|].
    cbn [processLoops]. etrans; [apply (IH (S idx))|apply processLoop_sublist].
  - unfold loopPass. destruct (contains code _); [|done].
    generalize (findAllStringIndex loopPattern code). generalize 0.
    intros idx ms. revert idx. induction ms as [|m ms IH]; intros idx; [done|].
    cbn [processLoops]. rewrite IH. unfold processLoop. cbn [initVars].
    by destruct (index _ _).
Qed.

End LoopMore.

(** ** What the groups of a match hold *)

Module CaptureFacts.
Import Regexp RegexpFacts.

Section Captures.
Context {A : Type}.
Variable Q : nat → str → Prop.
Implicit Types k : option ascii → str → captures → option A.

Lemma starLoop_caps (r : regex) (fuel : nat) :
  caps_at (A:=A) Q r →
  ∀ prev s caps k a,
    capsOk Q caps →
    starLoop (run r) fuel prev s caps k = Some a →
    ∃ m s' prev' caps',
      s = m ++ s' ∧ lang (Star r) m ∧ capsOk Q caps' ∧ k prev' s' caps' = Some a.
Proof.
  intros Hr. induction fuel as [|fuel IH]; intros prev s caps k a Hcaps; simpl.
  - intros Hk. exists [], s, prev, caps. split_and!; [done|constructor|done..].
  - destruct (run r prev s caps _) as [a'|] eqn:Hbody.
    + intros [= ->].
      apply Hr in Hbody as (m1 & s1 & prev1 & caps1 & -> & Hm1 & Hc1 & Hcont); [|done].
      destruct (length s1 <? length (m1 ++ s1)); [|done].
      apply IH in Hcont as (m2 & s2 & prev2 & caps2 & -> & Hm2 & Hc2 & Hk); [|done].
      exists (m1 ++ m2), s2, prev2, caps2.
      split_and!; [by rewrite app_assoc|by constructor|done..].
    + intros Hk. exists [], s, prev, caps. split_and!; [done|constructor|done..].
Qed.

Lemma run_caps (r : regex) : groupsOk Q r → caps_at (A:=A) Q r.
Proof.
  induction r as [|p|r1 IH1 r2 IH2|r1 IH1 r2 IH2|r IH|n r IH| |];
    intros Hok prev s caps k a Hcaps; simpl.
  - intros Hk. exists [], s, prev, caps. split_and!; [done|constructor|done..].
  - destruct s as [|c s]; [done|]. destruct (p c) eqn:Hp; [|done].
    intros Hk. exists [c], s, (Some c), caps. split_and!; [done|by constructor|done..].
  - destruct Hok as [Hok1 Hok2]. intros H.
    apply (IH1 Hok1) in H as (m1 & s1 & prev1 & caps1 & -> & Hm1 & Hc1 & H); [|done].
    apply (IH2 Hok2) in H as (m2 & s2 & prev2 & caps2 & -> & Hm2 & Hc2 & H); [|done].
    exists (m1 ++ m2), s2, prev2, caps2.
    split_and!; [by rewrite app_assoc|by constructor|done..].
  - destruct Hok as [Hok1 Hok2].
    destruct (run r1 prev s caps k) as [a'|] eqn:H1.
    + intros [= ->].
      apply (IH1 Hok1) in H1 as (m & s' & prev' & caps' & -> & Hm & Hc & H); [|done].
      exists m, s', prev', caps'. split_and!; [done|by apply lang_alt_l|done..].
    + intros H.
      apply (IH2 Hok2) in H as (m & s' & prev' & caps' & -> & Hm & Hc & H); [|done].
      exists m, s', prev', caps'. split_and!; [done|by apply lang_alt_r|done..].
  - apply starLoop_caps; [by apply IH|done].
  - destruct Hok as [HQ Hok]. intros H.
    apply (IH Hok) in H as (m & s' & prev' & caps' & -> & Hm & Hc & H); [|done].
    eexists m, s', prev', _. split_and!; [done|by constructor| |done].
    apply Forall_cons. split; [|done]. cbn [fst snd].
    rewrite length_app, Nat.add_sub, take_app_length. by apply HQ.
  - destruct prev; [done|]. intros Hk.
    exists [], s, None, caps. split_and!; [done|constructor|done..].
  - destruct (atWordBoundary prev s); [|done]. intros Hk.
    exists [], s, prev, caps. split_and!; [done|constructor|done..].
Qed.

End Captures.

Lemma findStringSubmatch_caps (Q : nat → str → Prop) (r : regex) (s : str)
    (caps : captures) :
  groupsOk Q r → findStringSubmatch r s = Some caps → capsOk Q caps.
Proof.
  intros Hok. unfold findStringSubmatch.
  generalize 0 at 1. generalize (@None ascii).
  induction s as [|c s IH]; intros prev pos; simpl.
  - destruct (matchHere r prev []) as [[s' caps']|] eqn:Hm; [|done].
    intros [= <-]. unfold matchHere in Hm.
    apply (run_caps Q r Hok) in Hm as (? & ? & ? & ? & _ & _ & Hc & [= <- <-]); [done|].
    constructor.
  - destruct (matchHere r prev (c :: s)) as [[s' caps']|] eqn:Hm.
    + intros [= <-]. unfold matchHere in Hm.
      apply (run_caps Q r Hok) in Hm as (? & ? & ? & ? & _ & _ & Hc & [= <- <-]); [done|].
      constructor.
    + apply IH.
Qed.

Lemma group_caps (Q : nat → str → Prop) (n : nat) (caps : captures) :
  Q n [] → capsOk Q caps → Q n (group n caps).
Proof.
  intros Hnil. induction 1 as [|[k v] caps Hv _ IH]; [done|].
  cbn [group]. destruct (k =? n) eqn:Hk; [|done].
  apply Nat.eqb_eq in Hk as <-. done.
Qed.

Lemma group_word (r : regex) (s : str) (caps : captures) (n : nat) :
  groupsOk wordCapture r → findStringSubmatch r s = Some caps →
  Forall (λ c, isWord c = true) (group n caps).
Proof.
  intros Hok Hfind.
  apply (group_caps wordCapture n caps); [by constructor|].
  by apply (findStringSubmatch_caps _ r s).
Qed.

Lemma word1_wordCapture (n : nat) (m : str) : lang word1 m → wordCapture n m.
Proof. by intros [_ H]%lang_plus_class. Qed.

End CaptureFacts.

(** ** The line loops stay inside the line array *)

Module PipelineFacts.
Import Regexp RegexpFacts Fixer CaptureFacts MainShader.

Lemma bind_no_index_panic {A B : Type} (r : result panic A) (f : A → result panic B) :
  r ≠ Err IndexOutOfRange → (∀ a, f a ≠ Err IndexOutOfRange) →
  r ≫= f ≠ Err IndexOutOfRange.
Proof. intros Hr Hf. destruct r as [a|[|]]; cbn [mbind result_bind]; [apply Hf|done..]. Qed.

Lemma bind_Ok {A B : Type} (r : result panic A) (f : A → result panic B) (b : B) :
  r ≫= f = Ok b → ∃ a, r = Ok a ∧ f a = Ok b.
Proof. destruct r as [a|e]; cbn [mbind result_bind]; [by exists a|done]. Qed.

Section WithCompiler.
Variable regexpCompiles : str → bool.

Lemma mustCompile_no_index_panic (text : str) (re : regex) :
  mustCompile regexpCompiles text re ≠ Err IndexOutOfRange.
Proof. unfold mustCompile. by destruct (regexpCompiles text). Qed.

Lemma declaredInMainImage_no_index_panic (ls : list str) (varName : str) :
  declaredInMainImage regexpCompiles ls varName ≠ Err IndexOutOfRange.
Proof.
  unfold declaredInMainImage. destruct (mainImageCode ls); [|done].
  apply bind_no_index_panic; [apply mustCompile_no_index_panic|done].
Qed.

Lemma determineVariableType_no_index_panic (varName code : str) (ls : list str)
    (lineIndex : Z) :
  (0 <= lineIndex <= Z.of_nat (length ls))%Z → (lineIndex <= maxInt)%Z →
  determineVariableType regexpCompiles varName code ls lineIndex ≠ Err IndexOutOfRange.
Proof.
  intros Hidx Hmax. unfold determineVariableType.
  rewrite (InferencerFacts.subInt_plain lineIndex 1) by (unfold minInt; lia).
  pose proof (InferencerFacts.chainLoop_in_range 21 ls (subInt lineIndex 20)
                (lineIndex - 1) ltac:(lia) ltac:(lia)) as Hchain.
  destruct (chainLoop 21 ls _ (lineIndex - 1)) as [zero| |]; [done| |done].
  repeat match goal with
         | |- context [if ?b then _ else _] => destruct b
         end; try done.
  all: apply bind_no_index_panic; [apply mustCompile_no_index_panic|].
  all: intros re;
    repeat match goal with
           | |- context [if ?b then _ else _] => destruct b
           end; done.
Qed.

Lemma determineVariableType_runs (varName code : str) (ls : list str) (lineIndex : Z) :
  regexpCompiles (swizzleText varName) = true →
  (0 <= lineIndex <= Z.of_nat (length ls))%Z → (lineIndex <= maxInt)%Z →
  ∃ zero, determineVariableType regexpCompiles varName code ls lineIndex = Ok zero
          ∧ zero ∈ zeroValues.
Proof.
  intros Hre Hidx Hmax. unfold determineVariableType, mustCompile.
  rewrite (InferencerFacts.subInt_plain lineIndex 1) by (unfold minInt; lia).
  pose proof (InferencerFacts.chainLoop_in_range 21 ls (subInt lineIndex 20)
                (lineIndex - 1) ltac:(lia) ltac:(lia)) as Hchain.
  destruct (chainLoop 21 ls _ (lineIndex - 1)) as [zero| |]; [by exists zero| |done].
  rewrite Hre. cbn [mbind result_bind].
  assert (lit "vec4(0.0)" ∈ zeroValues) as H4.
  { unfold zeroValues. rewrite !elem_of_cons. auto. }
  assert (lit "vec2(0.0)" ∈ zeroValues) as H2.
  { unfold zeroValues. rewrite !elem_of_cons. auto. }
  repeat match goal with
         | |- context [if ?b then _ else _] => destruct b
         end; eauto.
Qed.

Lemma declaredInMainImage_false (ls : list str) (varName : str) :
  regexpCompiles (declText varName) = true →
  (∀ code, mainImageCode ls = Some code → matchString (declOf varName) code = false) →
  declaredInMainImage regexpCompiles ls varName = Ok false.
Proof.
  intros Hre Hmain. unfold declaredInMainImage, mustCompile.
  destruct (mainImageCode ls) as [code|]; [|done].
  rewrite Hre. cbn [mbind result_bind]. by rewrite Hmain.
Qed.

Lemma keepsLength_same (st : state) : keepsLength st (Ok st).
Proof. right. by exists st. Qed.

Lemma keepsLength_insert (st : state) (i : nat) (l : str) (vars : gmap str str) :
  keepsLength st (Ok {| lines := <[i := l]> (lines st); uninitializedVars := vars |}).
Proof. right. eexists. split; [done|]. cbn. apply length_insert. Qed.

Lemma keepsLength_bind {A : Type} (st : state) (r : result panic A)
    (f : A → result panic state) :
  r ≠ Err IndexOutOfRange → (∀ a, keepsLength st (f a)) → keepsLength st (r ≫= f).
Proof.
  intros Hr Hf. destruct r as [a|[|]]; cbn [mbind result_bind]; [apply Hf|done|by left].
Qed.

Lemma inferred_keepsLength (st : state) (i : nat) (varName code : str)
    (f : str → str) (g : str → gmap str str) :
  i < length (lines st) → (Z.of_nat (length (lines st)) <= maxInt)%Z →
  keepsLength st
    (varType ← determineVariableType regexpCompiles varName code (lines st) (Z.of_nat i);
     Ok {| lines := <[i := f varType]> (lines st); uninitializedVars := g varType |}).
Proof.
  intros Hi Hmax. apply keepsLength_bind.
  - apply determineVariableType_no_index_panic; lia.
  - intros varType. apply keepsLength_insert.
Qed.

Lemma firstPassLine_in_range (code : str) (st : state) (i : nat) :
  i < length (lines st) → (Z.of_nat (length (lines st)) <= maxInt)%Z →
  keepsLength st (firstPassLine regexpCompiles code st i).
Proof.
  intros Hi Hmax. unfold firstPassLine.
  destruct (lookup_lt_is_Some_2 (lines st) i Hi) as [line ->].
  cbn [indexed mbind result_bind].
  destruct (streq (trimSpace line) []); [apply keepsLength_same|].
  destruct (findStringSubmatch chainVarPattern line) as [matches|].
  { unfold fixChain.
    destruct (contains line _); [apply keepsLength_same|].
    destruct (streq _ []).
    - by apply (inferred_keepsLength st i (group 1 matches) code
                  (λ varType, replace1 line _ (_ ++ _ ++ _ ++ varType ++ _))
                  (λ varType, <[_ := varType]> _)).
    - cbn [mbind result_bind]. apply keepsLength_insert. }
  destruct (findStringSubmatch standaloneVarPattern line) as [matches|].
  { unfold fixStandalone.
    destruct (isKeyword _ || contains line _); [apply keepsLength_same|].
    destruct (ScopeFacts.findFunctionScope_in_range (lines st) i Hi) as [[funcStart isMain] ->].
    cbn [indexed mbind result_bind].
    apply keepsLength_bind.
    { destruct (negb isMain && _); [apply declaredInMainImage_no_index_panic|done]. }
    intros [|]; [apply keepsLength_same|].
    apply keepsLength_bind; [apply declaredInMainImage_no_index_panic|].
    intros declaredInMain. apply keepsLength_bind.
    { destruct declaredInMain; [done|].
      destruct (findFirstFunctionLine _ _); [|done].
      apply bind_no_index_panic; [apply mustCompile_no_index_panic|done]. }
    intros [|]; [apply keepsLength_same|].
    destruct (usedIn code _); [|apply keepsLength_same].
    by apply (inferred_keepsLength st i (group 1 matches) code
                (λ varType, _ ++ _ ++ _ ++ varType ++ _)
                (λ varType, <[_ := varType]> _)). }
  destruct (findStringSubmatch bareDeclPattern (trimSpace line)) as [matches|];
    [|apply keepsLength_same].
  unfold fixBareDecl.
  destruct (contains _ _); [apply keepsLength_same|].
  destruct (ScopeFacts.findFunctionScope_in_range (lines st) i Hi) as [[funcStart isMain] ->].
  cbn [indexed mbind result_bind].
  apply keepsLength_bind.
  { destruct (negb isMain && _); [|done].
    apply bind_no_index_panic; [apply declaredInMainImage_no_index_panic|].
    intros [|]; [done|].
    apply bind_no_index_panic; [apply mustCompile_no_index_panic|done]. }
  intros [|]; [apply keepsLength_same|].
  destruct (usedIn _ _); [apply keepsLength_insert|apply keepsLength_same].
Qed.

Lemma secondPassLine_in_range (code : str) (st : state) (i : nat) :
  i < length (lines st) → (Z.of_nat (length (lines st)) <= maxInt)%Z →
  keepsLength st (secondPassLine regexpCompiles code st i).
Proof.
  intros Hi Hmax. unfold secondPassLine.
  destruct (lookup_lt_is_Some_2 (lines st) i Hi) as [line ->].
  cbn [indexed mbind result_bind].
  destruct (streq (trimSpace line) []); [apply keepsLength_same|].
  destruct (findStringSubmatch standaloneVarPattern line) as [matches|];
    [|apply keepsLength_same].
  destruct (contains line _ || isKeyword _); [apply keepsLength_same|].
  destruct (usedInSweep code _); [|apply keepsLength_same].
  destruct (uninitializedVars st !! _); [apply keepsLength_same|].
  destruct (negb _ && negb _); [|apply keepsLength_same].
  by apply (inferred_keepsLength st i (group 1 matches) code
              (λ varType, _ ++ _ ++ _ ++ varType ++ _)
              (λ varType, <[_ := varType]> _)).
Qed.

Lemma forLines_in_range (body : state → nat → result panic state) (st : state) :
  (∀ st' i, length (lines st') = length (lines st) → i < length (lines st') →
            keepsLength st' (body st' i)) →
  keepsLength st (forLines body st).
Proof.
  intros Hbody. unfold forLines.
  assert (∀ (idx : list nat) st0,
            length (lines st0) = length (lines st) →
            Forall (λ i, i < length (lines st)) idx →
            keepsLength st (foldl (λ acc i, st' ← acc; body st' i) (Ok st0) idx)) as Hfold.
  { induction idx as [|i idx IH]; intros st0 Hlen Hidx.
    - right. by exists st0.
    - apply Forall_cons in Hidx as [Hi Hidx]. cbn [foldl mbind result_bind].
      destruct (Hbody st0 i Hlen ltac:(lia)) as [->|(st1 & -> & Hlen1)].
      + left. clear. induction idx as [|j idx IHidx]; [done|]. apply IHidx.
      + apply IH; [congruence|done]. }
  apply Hfold; [done|]. apply Forall_forall. intros i Hi%elem_of_seq. lia.
Qed.

Lemma cleanupLine_in_range (ls : list str) (i : nat) :
  i < length ls →
  cleanupLine regexpCompiles ls i = Err BadPattern
  ∨ ∃ ls', cleanupLine regexpCompiles ls i = Ok ls' ∧ length ls' = length ls.
Proof.
  intros Hi. unfold cleanupLine, mustCompile.
  destruct (lookup_lt_is_Some_2 ls i Hi) as [line ->]. cbn [indexed mbind result_bind].
  destruct (streq (trimSpace line) []); [right; by exists ls|].
  destruct (findStringSubmatch assignPattern line) as [matches|]; [|right; by exists ls].
  destruct (isKeyword _); [right; by exists ls|].
  destruct (regexpCompiles _); [|by left]. cbn [mbind result_bind].
  destruct (matchString _ _); [right; by exists ls|].
  destruct (ScopeFacts.findFunctionScope_in_range ls i Hi) as [[funcStart isMain] ->].
  cbn [indexed mbind result_bind].
  destruct (negb isMain && _); [|right; by exists ls].
  destruct (from_option _ _ _); right; eexists; (split; [done|apply length_insert]).
Qed.

Lemma cleanupPass_in_range (ls : list str) :
  cleanupPass regexpCompiles ls = Err BadPattern
  ∨ ∃ ls', cleanupPass regexpCompiles ls = Ok ls' ∧ length ls' = length ls.
Proof.
  unfold cleanupPass.
  assert (∀ (idx : list nat) ls0,
            length ls0 = length ls →
            Forall (λ i, i < length ls) idx →
            let r := foldl (λ acc i, ls' ← acc; cleanupLine regexpCompiles ls' i)
                       (Ok ls0) idx in
            r = Err BadPattern ∨ ∃ ls', r = Ok ls' ∧ length ls' = length ls) as Hfold.
  { induction idx as [|i idx IH]; intros ls0 Hlen Hidx.
    - right. by exists ls0.
    - apply Forall_cons in Hidx as [Hi Hidx]. cbn [foldl mbind result_bind].
      destruct (cleanupLine_in_range ls0 i ltac:(lia)) as [->|(ls1 & -> & Hlen1)].
      + left. clear. induction idx as [|j idx IHidx]; [done|]. apply IHidx.
      + apply IH; [congruence|done]. }
  apply Hfold; [done|]. apply Forall_forall. intros i Hi%elem_of_seq. lia.
Qed.

(** Each of the three line loops of the repair pipeline, started on a
    line array that fits a slice, ends without an index panic: it either
    panics in [regexp.MustCompile] or returns a line array of the same
    length.  Each line index handed to the type inferencer and to the
    scope locator lies inside the line array. *)
Theorem line_loops_stay_in_range (code : str) (st : state) :
  (Z.of_nat (length (lines st)) <= maxInt)%Z →
  keepsLength st (forLines (firstPassLine regexpCompiles code) st)
  ∧ keepsLength st (forLines (secondPassLine regexpCompiles code) st)
  ∧ (cleanupPass regexpCompiles (lines st) = Err BadPattern
     ∨ ∃ ls', cleanupPass regexpCompiles (lines st) = Ok ls'
              ∧ length ls' = length (lines st)).
Proof.
  intros Hmax. split_and!.
  - apply forLines_in_range. intros st' i Hlen Hi.
    apply firstPassLine_in_range; [done|]. by rewrite Hlen.
  - apply forLines_in_range. intros st' i Hlen Hi.
    apply secondPassLine_in_range; [done|]. by rewrite Hlen.
  - apply cleanupPass_in_range.
Qed.

End WithCompiler.

Lemma line_loops_stay_in_range_witness :
  keepsLength {| lines := [lit "  w;"; lit "w.x = 1.0;"]; uninitializedVars := ∅ |}
    (forLines (firstPassLine sampleCompiles (lit "  w;" ++ [NL] ++ lit "w.x = 1.0;"))
       {| lines := [lit "  w;"; lit "w.x = 1.0;"]; uninitializedVars := ∅ |}).
Proof.
  destruct (line_loops_stay_in_range sampleCompiles
              (lit "  w;" ++ [NL] ++ lit "w.x = 1.0;")
              {| lines := [lit "  w;"; lit "w.x = 1.0;"]; uninitializedVars := ∅ |})
    as [H _]; [|exact H].
  cbn [lines length]. unfold maxInt. lia.
Defined.

Lemma loaded_has_pass (jsonUnmarshal : str → option ShaderData) (data : str)
    (shaderData : ShaderData) :
  loadEmbeddedShader jsonUnmarshal data = Ok shaderData → Passes shaderData ≠ [].
Proof.
  unfold loadEmbeddedShader.
  destruct (length data =? 0); [done|]. cbn.
  destruct (jsonUnmarshal _) as [d|]; [|done].
  destruct (length (Passes d) =? 0) eqn:Hp; [done|].
  intros [= <-] Hnil. by rewrite Hnil in Hp.
Qed.

Lemma mainPass_in_list (shaderData : ShaderData) :
  Passes shaderData ≠ [] →
  ∃ pass, mainPass shaderData = Some pass ∧ pass ∈ Passes shaderData.
Proof.
  unfold mainPass. intros Hp.
  destruct (findImagePass (Passes shaderData)) as [p|] eqn:Hfind.
  - exists p. split; [done|].
    apply MainShaderFacts.findImagePass_Some in Hfind as (i & Hi & _).
    by eapply list_elem_of_lookup_2.
  - destruct (Passes shaderData) as [|p0 rest]; [done|]. exists p0. split; [done|by left].
Qed.

Lemma Ok_pair_inj {E A B : Type} (a a' : A) (b b' : B) :
  Ok (E:=E) (a, b) = Ok (a', b') → a = a' ∧ b = b'.
Proof. by intros [= -> ->]. Qed.

Lemma template_first_line (shaderCode : str) :
  fragmentShaderTemplate shaderCode
  = lit "#version 330 core" ++ NL :: drop 18 (fragmentShaderTemplate shaderCode).
Proof. reflexivity. Qed.

Lemma removeComments_first_line (o t : str) :
  NL ∉ o → "/"%char ∉ o →
  ∃ out, removeComments (o ++ NL :: t) = o ++ NL :: out.
Proof.
  intros Hnl Hslash. unfold removeComments.
  rewrite CommentsFacts.split_line_app by done. cbn [linesLoop].
  rewrite StripperFacts.scanLine_no_slash by done.
  assert (emits o false = true) as -> by (unfold emits; by rewrite orb_true_r).
  rewrite CommentsFacts.linesLoop_trace. cbn [app]. rewrite <- app_assoc. by eexists.
Qed.

(** When the shader texts are built, the vertex shader is the fixed
    text, and the fragment shader is the template around the repaired code
    of the selected pass, sent through the comment stripper: it holds no
    comment opener, it still starts with the version directive, and it
    ends in a newline, not in the NUL byte the template ends in. *)
Theorem getMainShaderCode_builds (regexpCompiles : str → bool)
    (mapOrder : nat → gmap str str → list (str * str)) (shaderData : ShaderData)
    (vertex fragmentShader : str) :
  getMainShaderCode regexpCompiles mapOrder shaderData = Ok (vertex, fragmentShader) →
  vertex = vertexShader
  ∧ (∃ pass shaderCode,
       mainPass shaderData = Some pass
       ∧ fixShaderCode regexpCompiles mapOrder (Code pass) = Ok shaderCode
       ∧ fragmentShader = removeComments (fragmentShaderTemplate shaderCode))
  ∧ contains fragmentShader (lit "//") = false
  ∧ contains fragmentShader (lit "/*") = false
  ∧ hasPrefix fragmentShader (lit "#version 330 core" ++ [NL]) = true
  ∧ last fragmentShader = Some NL.
Proof.
  unfold getMainShaderCode.
  destruct (mainPass shaderData) as [pass|] eqn:Hpass; [|done].
  cbn [indexed mbind result_bind].
  destruct (fixShaderCode regexpCompiles mapOrder (Code pass)) as [shaderCode|e] eqn:Hfix;
    [|done].
  cbn [mbind result_bind]. intros [Hvertex Hfragment]%Ok_pair_inj.
  subst vertex fragmentShader.
  split; [done|]. split; [by exists pass, shaderCode|].
  set (template := fragmentShaderTemplate shaderCode).
  destruct (removeComments_first_line (lit "#version 330 core") (drop 18 template))
    as [out Hout].
  { vm_compute. intros H. repeat (apply elem_of_cons in H as [H|H]; [discriminate H|]).
    by apply elem_of_nil in H. }
  { vm_compute. intros H. repeat (apply elem_of_cons in H as [H|H]; [discriminate H|]).
    by apply elem_of_nil in H. }
  unfold template in Hout. rewrite <- template_first_line in Hout. fold template in Hout.
  split_and!.
  - apply contains_false. intros p r. apply StripperFacts.removeComments_noPair. auto.
  - apply contains_false. intros p r. apply StripperFacts.removeComments_noPair. auto.
  - rewrite Hout. apply hasPrefix_true. exists out. by rewrite <- app_assoc.
  - destruct (StripperFacts.removeComments_ends template) as [Hnil|[t Ht]].
    + rewrite Hout in Hnil. by destruct (lit "#version 330 core").
    + rewrite Ht. apply last_snoc.
Qed.

Lemma getMainShaderCode_builds_witness :
  ∃ fragmentShader,
    getMainShaderCode sampleCompiles (λ _, map_to_list) twoPasses
    = Ok (vertexShader, fragmentShader)
    ∧ last fragmentShader = Some NL.
Proof.
  destruct (getMainShaderCode sampleCompiles (λ _, map_to_list) twoPasses)
    as [[vertex fragmentShader]|e] eqn:H.
  - destruct (getMainShaderCode_builds _ _ _ _ _ H) as (Hvertex & _ & _ & _ & _ & Hlast).
    exists fragmentShader. split; [|exact Hlast]. f_equal. f_equal. exact Hvertex.
  - vm_compute in H. discriminate H.
Defined.

(** A container the loader accepts has a pass, so the pass selection
    that follows the loader finds one in the list: its fallback to the
    first pass cannot go out of range, and the start-up sequence ends with
    what the repair of that pass's code gives. *)
Theorem loaded_container_has_main_pass (jsonUnmarshal : str → option ShaderData)
    (data : str) (shaderData : ShaderData) :
  loadEmbeddedShader jsonUnmarshal data = Ok shaderData →
  ∃ pass,
    mainPass shaderData = Some pass
    ∧ pass ∈ Passes shaderData
    ∧ ∀ regexpCompiles mapOrder,
        startupShaders jsonUnmarshal regexpCompiles mapOrder data
        = Ok (shaderCode ← fixShaderCode regexpCompiles mapOrder (Code pass);
              Ok (vertexShader, removeComments (fragmentShaderTemplate shaderCode))).
Proof.
  intros Hload.
  destruct (mainPass_in_list shaderData (loaded_has_pass _ _ _ Hload))
    as (pass & Hpass & Hin).
  exists pass. split_and!; [done..|].
  intros regexpCompiles mapOrder. unfold startupShaders, getMainShaderCode.
  by rewrite Hload, Hpass.
Qed.

Lemma loaded_container_has_main_pass_witness :
  ∃ pass, mainPass twoPasses = Some pass ∧ pass ∈ Passes twoPasses.
Proof.
  destruct (loaded_container_has_main_pass sampleUnmarshal twoPassesJSON twoPasses)
    as (pass & Hpass & Hin & _); [vm_compute; reflexivity|].
  by exists pass.
Defined.

End PipelineFacts.

(** ** What the repair-state map holds *)

Module RepairStateFacts.
Import Regexp RegexpFacts Fixer CaptureFacts PipelineFacts.

Lemma chainVarPattern_groups : groupsOk wordCapture chainVarPattern.
Proof. cbn. split_and!; try done. apply word1_wordCapture. Qed.

Lemma standaloneVarPattern_groups : groupsOk wordCapture standaloneVarPattern.
Proof. cbn. split_and!; try done. apply word1_wordCapture. Qed.

Lemma chainLoop_found (fuel : nat) (lines : list str) (low j : Z) (zero : str) :
  chainLoop fuel lines low j = ChainFound zero → zero ∈ zeroValues.
Proof.
  revert j. induction fuel as [|fuel IH]; intros j; [done|]. cbn [chainLoop].
  destruct (_ && _); [|done].
  destruct (lineAt lines j) as [l|]; [|done].
  destruct (streq (trimSpace l) []); [apply IH|].
  destruct (negb _);
    (destruct (findStringSubmatch typeDeclPattern (trimSpace l)) as [m|];
     [destruct (zeroValue (group 1 m)) eqn:Hz;
      [intros [= <-]; by eapply InferencerFacts.zeroValue_in|]|]);
    try done; apply IH.
Qed.

Section WithCompiler.
Variable regexpCompiles : str → bool.

Lemma determineVariableType_found (varName code : str) (lines : list str)
    (lineIndex : Z) (zero : str) :
  determineVariableType regexpCompiles varName code lines lineIndex = Ok zero →
  zero ∈ zeroValues.
Proof.
  unfold determineVariableType, mustCompile.
  destruct (chainLoop 21 lines _ _) as [z| |] eqn:Hchain; [|clear Hchain|done].
  { intros [= <-]. by eapply chainLoop_found. }
  assert (lit "vec4(0.0)" ∈ zeroValues) as H4.
  { unfold zeroValues. rewrite !elem_of_cons. auto. }
  assert (lit "vec2(0.0)" ∈ zeroValues) as H2.
  { unfold zeroValues. rewrite !elem_of_cons. auto. }
  destruct (regexpCompiles _); cbn [mbind result_bind];
    repeat match goal with
           | |- context [if ?b then _ else _] => destruct b
           end; intros [= <-]; done.
Qed.

Lemma bareDeclPattern_groups :
  groupsOk (λ n v, n = 2 → Forall (λ c, isWord c = true) v) bareDeclPattern.
Proof. cbn. split_and!; try done. intros m Hm _. by apply (word1_wordCapture 2). Qed.

Lemma recorded_insert (vars : gmap str str) (varName zero : str) :
  Forall (λ c, isWord c = true) varName → zero ∈ zeroValues →
  recorded vars → recorded (<[varName := zero]> vars).
Proof. intros Hw Hz Hvars. by apply map_Forall_insert_2. Qed.

Lemma inferred_recorded (st st' : state) (i : nat) (varName code : str)
    (f : str → str) :
  Forall (λ c, isWord c = true) varName →
  recorded (uninitializedVars st) →
  (varType ← determineVariableType regexpCompiles varName code (lines st) (Z.of_nat i);
   Ok {| lines := <[i := f varType]> (lines st);
         uninitializedVars := <[varName := varType]> (uninitializedVars st) |})
  = Ok st' →
  recorded (uninitializedVars st').
Proof.
  intros Hw Hrec.
  destruct (determineVariableType _ _ _ _ _) as [varType|] eqn:Hd; [|done].
  intros [= <-]. cbn. apply recorded_insert; [done| |done].
  by eapply determineVariableType_found.
Qed.

Lemma firstPassLine_recorded (code : str) (st st' : state) (i : nat) :
  recorded (uninitializedVars st) → firstPassLine regexpCompiles code st i = Ok st' →
  recorded (uninitializedVars st').
Proof.
  intros Hrec. unfold firstPassLine.
  destruct (lines st !! i) as [line|]; [|done]. cbn [indexed mbind result_bind].
  destruct (streq (trimSpace line) []); [by intros [= <-]|].
  destruct (findStringSubmatch chainVarPattern line) as [matches|] eqn:Hchain.
  { unfold fixChain.
    pose proof (group_word _ _ _ 1 chainVarPattern_groups Hchain) as Hw.
    destruct (contains line _); [by intros [= <-]|].
    destruct (findStringSubmatch sameLineTypePattern line) as [typeMatch|].
    - destruct (zeroValue (group 1 typeMatch)) as [zero|] eqn:Hz; cbn [from_option id].
      + rewrite (ChainFacts.zeroValue_nonempty _ _ Hz). cbn [mbind result_bind].
        intros [= <-]. cbn. apply recorded_insert; [done| |done].
        by eapply InferencerFacts.zeroValue_in.
      + cbn [streq]. by apply inferred_recorded.
    - cbn [streq]. by apply inferred_recorded. }
  destruct (findStringSubmatch standaloneVarPattern line) as [matches|] eqn:Hstand.
  { unfold fixStandalone.
    pose proof (group_word _ _ _ 1 standaloneVarPattern_groups Hstand) as Hw.
    destruct (isKeyword _ || contains line _); [by intros [= <-]|].
    destruct (findFunctionScope (lines st) i) as [[funcStart isMain]|]; [|done].
    cbn [indexed mbind result_bind].
    intros (declaredInMain & _ & H)%bind_Ok. revert H.
    destruct declaredInMain; [by intros [= <-]|].
    intros (declaredInMain & _ & H)%bind_Ok.
    apply bind_Ok in H as (varIsDeclaredElsewhere & _ & H). revert H.
    destruct varIsDeclaredElsewhere; [by intros [= <-]|].
    destruct (usedIn code _); [|by intros [= <-]].
    by apply inferred_recorded. }
  destruct (findStringSubmatch bareDeclPattern (trimSpace line)) as [matches|] eqn:Hbare;
    [|by intros [= <-]].
  unfold fixBareDecl.
  destruct (contains _ _); [by intros [= <-]|].
  destruct (findFunctionScope (lines st) i) as [[funcStart isMain]|]; [|done].
  cbn [indexed mbind result_bind].
  intros (varIsDeclaredElsewhere & _ & H)%bind_Ok. revert H.
  destruct varIsDeclaredElsewhere; [by intros [= <-]|].
  destruct (usedIn _ _); [|by intros [= <-]].
  intros [= <-]. cbn. apply recorded_insert; [| |done].
  - apply (group_caps (λ n v, n = 2 → Forall (λ c, isWord c = true) v) 2 matches);
      [done| |done].
    apply (findStringSubmatch_caps _ bareDeclPattern (trimSpace line));
      [apply bareDeclPattern_groups|done].
  - destruct (zeroValue (group 1 matches)) as [zero|] eqn:Hz; cbn [from_option id].
    + by eapply InferencerFacts.zeroValue_in.
    + unfold zeroValues. rewrite !elem_of_cons. auto 10.
Qed.

Lemma secondPassLine_recorded (code : str) (st st' : state) (i : nat) :
  recorded (uninitializedVars st) → secondPassLine regexpCompiles code st i = Ok st' →
  recorded (uninitializedVars st').
Proof.
  intros Hrec. unfold secondPassLine.
  destruct (lines st !! i) as [line|]; [|done]. cbn [indexed mbind result_bind].
  destruct (streq (trimSpace line) []); [by intros [= <-]|].
  destruct (findStringSubmatch standaloneVarPattern line) as [matches|] eqn:Hstand;
    [|by intros [= <-]].
  pose proof (group_word _ _ _ 1 standaloneVarPattern_groups Hstand) as Hw.
  destruct (contains line _ || isKeyword _); [by intros [= <-]|].
  destruct (usedInSweep code _); [|by intros [= <-]].
  destruct (uninitializedVars st !! _); [by intros [= <-]|].
  destruct (negb _ && negb _); [|by intros [= <-]].
  by apply inferred_recorded.
Qed.

Lemma forLines_recorded (body : state → nat → result panic state) (st st' : state) :
  (∀ st0 st1 i, recorded (uninitializedVars st0) → body st0 i = Ok st1 →
                recorded (uninitializedVars st1)) →
  recorded (uninitializedVars st) → forLines body st = Ok st' →
  recorded (uninitializedVars st').
Proof.
  intros Hbody. unfold forLines. generalize (seq 0 (length (lines st))). intros idx.
  revert st. induction idx as [|i idx IH]; intros st Hrec; cbn [foldl].
  - by intros [= <-].
  - cbn [mbind result_bind]. destruct (body st i) as [st1|e] eqn:Hb.
    + apply IH. by eapply Hbody.
    + intros Hnone. exfalso. clear -Hnone.
      induction idx as [|j idx IHidx]; [done|]. by apply IHidx.
Qed.

(** Every entry the passes record in the repair-state map pairs a name
    made of word bytes with one of the six zero-value initializers, so
    the loop pass can only insert statements of the form
    [name = zero;]. *)
Theorem repairPasses_records_zero_values (code code' : str) (vars : gmap str str) :
  repairPasses regexpCompiles code = Ok (code', vars) → recorded vars.
Proof.
  unfold repairPasses.
  destruct (forLines (firstPassLine _ _) _) as [st1|] eqn:H1; [|done].
  cbn [mbind result_bind].
  destruct (cleanupPass _ _) as [ls2|]; [|done]. cbn [mbind result_bind].
  destruct (forLines (secondPassLine _ _) _) as [st3|] eqn:H3; [|done].
  cbn [mbind result_bind].
  destruct (removeOrphanedAssignments _ _) as [code3|]; [|done].
  cbn [mbind result_bind]. intros [= _ <-].
  eapply forLines_recorded; [apply secondPassLine_recorded| |exact H3].
  cbn. eapply forLines_recorded; [apply firstPassLine_recorded| |exact H1].
  cbn. apply map_Forall_empty.
Qed.

End WithCompiler.

Lemma repairPasses_records_zero_values_witness :
  recorded ({[ lit "a" := lit "0.0" ]} : gmap str str).
Proof.
  apply (repairPasses_records_zero_values sampleCompiles scenarioB
           (lit "float i = .2, a = 0.0;" ++ [NL] ++ lit "for(int j=0;j<8;j++){ a += i; }")).
  vm_compute. reflexivity.
Defined.

End RepairStateFacts.

(** ** Start-up mode *)

Module LaunchFacts.
Import Launch.

Section Detect.
Variable unicodeLower : str → str.
Variable uintptrBits : N.

Local Abbreviation scan := (scanArgs unicodeLower uintptrBits).
Local Abbreviation detect := (detectScreensaverMode unicodeLower uintptrBits).

Lemma scanArgs_handle (args : list str) (mode : ScreensaverMode) (hwnd : N) :
  scan args = (mode, hwnd) → hwnd ≠ 0%N → mode = ModePreview.
Proof.
  induction args as [|arg rest IH]; cbn [scanArgs]; [by intros [= <- <-]|].
  destruct (streq _ _); [by intros [= <- <-]|].
  destruct (_ || _); [by intros [= <- <-]|].
  destruct (_ || _); [|done].
  destruct (negb _); by intros [= <- <-].
Qed.

(** A window handle other than zero is only ever returned together
    with the preview mode. *)
Theorem detectScreensaverMode_handle_only_in_preview (osArgs : list str)
    (mode : ScreensaverMode) (hwnd : N) :
  detect osArgs = Some (mode, hwnd) → hwnd ≠ 0%N → mode = ModePreview.
Proof.
  unfold detectScreensaverMode. destruct osArgs as [|prog args]; [done|].
  destruct (length args =? 0); [by intros [= <- <-]|].
  intros [= H]. by apply (scanArgs_handle args).
Qed.

Lemma scanArgs_skip (pre rest : list str) :
  Forall (λ arg, isSwitch unicodeLower arg = false) pre →
  scan (pre ++ rest) = scan rest.
Proof.
  induction 1 as [|arg pre Harg _ IH]; [done|].
  cbn [app scanArgs]. unfold isSwitch in Harg.
  apply orb_false_iff in Harg as [Harg Hp2].
  apply orb_false_iff in Harg as [Harg Hp1].
  apply orb_false_iff in Harg as [Harg Hc2].
  apply orb_false_iff in Harg as [Hs Hc1].
  by rewrite Hs, Hc1, Hc2, Hp1, Hp2.
Qed.

Lemma detect_scan (prog : str) (args : list str) :
  detect (prog :: args) = Some (scan args).
Proof. unfold detectScreensaverMode. by destruct args. Qed.

(** Arguments that are not switches are skipped: the first switch
    decides, and when there is none the screen saver runs. *)
Theorem detectScreensaverMode_first_switch_decides (prog : str) (pre rest : list str) :
  Forall (λ arg, isSwitch unicodeLower arg = false) pre →
  detect (prog :: pre ++ rest) = detect (prog :: rest)
  ∧ detect (prog :: pre) = Some (ModeScreensaver, 0%N)
  ∧ main unicodeLower uintptrBits (prog :: pre) = Some RunScreensaverMode.
Proof.
  intros Hpre. rewrite !detect_scan.
  pose proof (scanArgs_skip pre [] Hpre) as Hnone. rewrite app_nil_r in Hnone.
  split_and!.
  - by rewrite scanArgs_skip.
  - by rewrite Hnone.
  - unfold main. cbn [FORCE_SETTINGS_MODE]. by rewrite detect_scan, Hnone.
Qed.

(** *** Letter case *)

Lemma lowerByte_ascii (c : ascii) :
  (nat_of_ascii c <? 128) = true → (nat_of_ascii (lowerByte c) <? 128) = true.
Proof. destruct c as [[] [] [] [] [] [] [] []]; vm_compute; congruence. Qed.

Lemma lowerByte_idem (c : ascii) : lowerByte (lowerByte c) = lowerByte c.
Proof. destruct c as [[] [] [] [] [] [] [] []]; vm_compute; congruence. Qed.

Lemma lowerByte_digit (c : ascii) : digitValue (lowerByte c) = digitValue c.
Proof. destruct c as [[] [] [] [] [] [] [] []]; vm_compute; congruence. Qed.

Lemma isASCII_lower (s : str) : isASCII s = true → isASCII (lowerByte <$> s) = true.
Proof.
  unfold isASCII. induction s as [|c s IH]; [done|]. cbn [fmap list_fmap forallb].
  intros [Hc Hs]%andb_true_iff. by rewrite (lowerByte_ascii c Hc), IH.
Qed.

Lemma toLower_lower (s : str) :
  isASCII s = true →
  toLower unicodeLower (lowerByte <$> s) = toLower unicodeLower s.
Proof.
  intros Hs. unfold toLower. rewrite Hs, (isASCII_lower s Hs).
  rewrite <- list_fmap_compose. apply list_fmap_ext. intros _ c _. apply lowerByte_idem.
Qed.

Lemma parseDigits_lower (s : str) (n : N) :
  parseDigits (lowerByte <$> s) n = parseDigits s n.
Proof.
  revert n. induction s as [|c s IH]; intros n; [done|].
  cbn [fmap list_fmap parseDigits]. rewrite lowerByte_digit.
  destruct (digitValue c); [|done]. cbn [mbind option_bind].
  destruct (_ <=? _)%N; [done|]. destruct (_ <? _)%N; [done|]. apply IH.
Qed.

Lemma parseHandle_lower (s : str) :
  parseHandle uintptrBits (lowerByte <$> s) = parseHandle uintptrBits s.
Proof.
  unfold parseHandle.
  assert (parseUint (lowerByte <$> s) = parseUint s) as ->; [|done].
  destruct s as [|c s]; [done|]. exact (parseDigits_lower (c :: s) 0).
Qed.

(** The switches are read without regard to letter case: writing
    every ASCII argument in lower case changes nothing. *)
Theorem detectScreensaverMode_ignores_case (prog : str) (args : list str) :
  Forall (λ arg, isASCII arg = true) args →
  detect (prog :: ((λ arg : str, lowerByte <$> arg) <$> args)) = detect (prog :: args).
Proof.
  intros Hargs. rewrite !detect_scan. f_equal.
  induction Hargs as [|arg rest Harg Hrest IH]; [done|].
  cbn [fmap list_fmap scanArgs]. rewrite (toLower_lower arg Harg).
  change (list_fmap _ _ (λ arg : str, lowerByte <$> arg) rest)
    with ((λ arg : str, lowerByte <$> arg) <$> rest).
  rewrite IH.
  destruct rest as [|next rest']; [done|].
  cbn [fmap list_fmap]. by rewrite parseHandle_lower.
Qed.

(** *** The window handle *)

Lemma digitValue_Some (c : ascii) :
  inRange "0" "9" c = true →
  digitValue c = Some (N.of_nat (nat_of_ascii c - 48))
  ∧ (N.of_nat (nat_of_ascii c - 48) <= 9)%N.
Proof.
  unfold digitValue. intros Hc. rewrite Hc. split; [done|].
  unfold inRange in Hc. apply andb_true_iff in Hc as [_ Hc].
  apply Nat.leb_le in Hc. change (nat_of_ascii "9") with 57 in Hc. lia.
Qed.

Lemma decimalValue_from (s : str) (n : N) :
  (n <= foldl (λ n c, (n * 10 + N.of_nat (nat_of_ascii c - 48))%N) n s)%N.
Proof.
  revert n. induction s as [|c s IH]; intros n; [done|]. cbn [foldl].
  etrans; [|apply IH]. lia.
Qed.

Lemma parseDigits_value (s : str) (n : N) :
  Forall (λ c, inRange "0" "9" c = true) s →
  (foldl (λ n c, (n * 10 + N.of_nat (nat_of_ascii c - 48))%N) n s <= maxUint64)%N →
  parseDigits s n
  = Some (foldl (λ n c, (n * 10 + N.of_nat (nat_of_ascii c - 48))%N) n s).
Proof.
  intros Hs. revert n. induction Hs as [|c s Hc Hs IH]; intros n Hmax; [done|].
  cbn [parseDigits foldl] in *.
  destruct (digitValue_Some c Hc) as [-> Hd]. cbn [mbind option_bind].
  pose proof (decimalValue_from s (n * 10 + N.of_nat (nat_of_ascii c - 48))) as Hle.
  unfold maxUint64 in *.
  assert ((18446744073709551615 / 10 + 1 <=? n)%N = false) as ->.
  { apply N.leb_gt. change (18446744073709551615 / 10 + 1)%N with 1844674407370955162%N. lia. }
  assert ((18446744073709551615 <? n * 10 + N.of_nat (nat_of_ascii c - 48))%N = false) as ->.
  { apply N.ltb_ge. lia. }
  by apply IH.
Qed.

Lemma digits_lower (digits : str) :
  Forall (λ c, inRange "0" "9" c = true) digits →
  lowerByte <$> digits = digits ∧ isASCII digits = true.
Proof.
  induction 1 as [|c ds Hc _ [IH1 IH2]]; [done|].
  cbn [fmap list_fmap]. unfold isASCII in *. cbn [forallb].
  rewrite IH1, IH2.
  revert Hc. destruct c as [[] [] [] [] [] [] [] []]; vm_compute; intros Hc; done.
Qed.

(** A preview switch with the window handle written behind a colon,
    or in the next argument of a bare switch, as a non-empty text of
    decimal digits within the 64-bit range: the mode is the preview mode
    and the handle returned is that number cut to the width of
    [uintptr]. *)
Theorem detectScreensaverMode_preview_handle (prog digits : str) (rest : list str) :
  digits ≠ [] →
  Forall (λ c, inRange "0" "9" c = true) digits →
  (decimalValue digits <= maxUint64)%N →
  detect (prog :: (lit "/p:" ++ digits) :: rest)
  = Some (ModePreview, (decimalValue digits mod 2 ^ uintptrBits)%N)
  ∧ detect (prog :: lit "/p" :: digits :: rest)
    = Some (ModePreview, (decimalValue digits mod 2 ^ uintptrBits)%N).
Proof.
  intros Hne Hdigits Hmax.
  assert (parseHandle uintptrBits digits = (decimalValue digits mod 2 ^ uintptrBits)%N)
    as Hparse.
  { unfold parseHandle, parseUint. destruct digits as [|c digits]; [done|].
    by rewrite parseDigits_value. }
  assert (toLower unicodeLower (lit "/p:" ++ digits) = lit "/p:" ++ digits) as Hlower.
  { destruct (digits_lower digits Hdigits) as [Hlow Hascii].
    unfold toLower.
    assert (isASCII (lit "/p:" ++ digits) = true) as ->.
    { unfold isASCII in *. rewrite forallb_app. by apply andb_true_iff. }
    by rewrite fmap_app, Hlow. }
  rewrite !detect_scan. split.
  - cbn [scanArgs]. rewrite Hlower.
    change (streq (lit "/p:" ++ digits) (lit "/s")) with false.
    change (streq (lit "/p:" ++ digits) (lit "/c")) with false.
    change (hasPrefix (lit "/p:" ++ digits) (lit "/c:")) with false.
    change (streq (lit "/p:" ++ digits) (lit "/p")) with false.
    change (hasPrefix (lit "/p:" ++ digits) (lit "/p:")) with true.
    cbn [orb]. cbv iota.
    change (drop 3 (lit "/p:" ++ digits)) with digits. rewrite Hparse.
    by destruct (_ =? 0)%N eqn:E; [apply N.eqb_eq in E as ->|].
  - cbn [scanArgs].
    change (toLower unicodeLower (lit "/p")) with (lit "/p").
    change (streq (lit "/p") (lit "/s")) with false.
    change (streq (lit "/p") (lit "/c")) with false.
    change (hasPrefix (lit "/p") (lit "/c:")) with false.
    change (streq (lit "/p") (lit "/p")) with true.
    change (hasPrefix (lit "/p") (lit "/p:")) with false.
    cbn [orb]. cbv iota. rewrite Hparse.
    by destruct (_ =? 0)%N eqn:E; [apply N.eqb_eq in E as ->|].
Qed.

End Detect.

Lemma detectScreensaverMode_handle_only_in_preview_witness :
  detectScreensaverMode id 64 [lit "saver.scr"; lit "/p:4242"]
  = Some (ModePreview, 4242%N)
  ∧ ModePreview = ModePreview.
Proof.
  assert (detectScreensaverMode id 64 [lit "saver.scr"; lit "/p:4242"]
          = Some (ModePreview, 4242%N)) as H by (vm_compute; reflexivity).
  split; [exact H|].
  apply (detectScreensaverMode_handle_only_in_preview id 64
           [lit "saver.scr"; lit "/p:4242"] ModePreview 4242%N H).
  discriminate.
Defined.

Lemma detectScreensaverMode_first_switch_decides_witness :
  detectScreensaverMode id 64 [lit "saver.scr"; lit "-v"; lit "/C"]
  = detectScreensaverMode id 64 [lit "saver.scr"; lit "/C"].
Proof.
  destruct (detectScreensaverMode_first_switch_decides id 64 (lit "saver.scr")
              [lit "-v"] [lit "/C"]) as [H _]; [|exact H].
  repeat constructor.
Defined.

Lemma detectScreensaverMode_ignores_case_witness :
  detectScreensaverMode id 64 [lit "saver.scr"; lit "/s"]
  = detectScreensaverMode id 64 [lit "saver.scr"; lit "/S"].
Proof.
  apply (detectScreensaverMode_ignores_case id 64 (lit "saver.scr") [lit "/S"]).
  repeat constructor.
Defined.

Lemma detectScreensaverMode_preview_handle_witness :
  detectScreensaverMode id 64 [lit "saver.scr"; lit "/p"; lit "4242"]
  = Some (ModePreview, 4242%N).
Proof.
  destruct (detectScreensaverMode_preview_handle id 64 (lit "saver.scr") (lit "4242") [])
    as [_ H]; [done|repeat constructor|vm_compute; discriminate|exact H].
Defined.

End LaunchFacts.

(** ** The bare-declaration branch of the first pass *)

Module BareDeclFacts.
Import Regexp RegexpFacts Fixer ChainFacts.

(** A text is split in one way only into a run of bytes of a class and
    a rest that does not start with a byte of the class. *)
Lemma class_prefix_unique (p : ascii → bool) (a1 b1 a2 b2 : str) :
  Forall (λ c, p c = true) a1 → Forall (λ c, p c = true) a2 →
  from_option p false (head b1) = false →
  from_option p false (head b2) = false →
  a1 ++ b1 = a2 ++ b2 → a1 = a2 ∧ b1 = b2.
Proof.
  intros H1. revert a2. induction H1 as [|c a1 Hc _ IH]; intros a2 H2 Hb1 Hb2 Heq.
  - destruct H2 as [|d a2 Hd _]; [done|].
    cbn [app] in Heq. subst b1. cbn in Hb1. congruence.
  - destruct H2 as [|d a2 Hd H2].
    + cbn [app] in Heq. subst b2. cbn in Hb2. congruence.
    + cbn [app] in Heq. injection Heq as -> Heq.
      destruct (IH a2 H2 Hb1 Hb2 Heq) as [-> ->]. done.
Qed.

Lemma space_not_word (c : ascii) : isSpace c = true → isWord c = false.
Proof. destruct c as [[] [] [] [] [] [] [] []]; vm_compute; congruence. Qed.

Lemma searchFrom_anchored (r : regex) (s : str) :
  ∀ pos c, searchFrom (Cat BeginText r) pos (Some c) s = None.
Proof. induction s as [|d s IH]; intros pos c; [done|]. cbn. apply IH. Qed.

Lemma standaloneVarPattern_lang (m : str) :
  lang standaloneVarPattern m →
  ∃ ws w ws', m = ws ++ w ++ ws' ++ [";"%char]
              ∧ Forall (λ c, isSpace c = true) ws
              ∧ w ≠ [] ∧ Forall (λ c, isWord c = true) w
              ∧ Forall (λ c, isSpace c = true) ws'.
Proof.
  unfold standaloneVarPattern, rseq, spaces0, word1, chr. cbn [foldr].
  intros (m0 & m1 & -> & Hm0 & H)%lang_cat_inv.
  inversion Hm0; subst. clear Hm0.
  apply lang_cat_inv in H as (ws & m2 & -> & Hws%lang_star_class & H).
  apply lang_cat_inv in H as (w & m3 & -> & Hw%lang_group_inv & H).
  apply lang_plus_class in Hw as [Hwne Hw].
  apply lang_cat_inv in H as (ws' & m4 & -> & Hws'%lang_star_class & H).
  apply lang_cat_inv in H as (m5 & m6 & -> & (c & -> & Hc)%lang_class_inv & ->%lang_eps_inv).
  apply byteEq_true in Hc as <-.
  exists ws, w, ws'. by rewrite app_nil_r.
Qed.

Lemma indent_trimLeft (indent : str) (fuel : nat) (x : str) :
  Forall (λ c, c = " "%char ∨ c = TAB) indent →
  length indent ≤ fuel → spaceWidth x = 0 →
  trimLeftSpaceFuel fuel (indent ++ x) = x.
Proof.
  intros Hindent. revert fuel. induction Hindent as [|c ind Hc _ IH]; intros fuel Hfuel Hx.
  - cbn [app]. destruct fuel; cbn [trimLeftSpaceFuel]; [done|]. by rewrite Hx.
  - destruct fuel as [|fuel]; [cbn in Hfuel; lia|].
    cbn [app trimLeftSpaceFuel].
    assert (spaceWidth (c :: ind ++ x) = 1) as -> by (by destruct Hc as [->| ->]).
    cbn [drop]. apply IH; [cbn in Hfuel; lia|done].
Qed.

(** [TrimSpace] removes an indentation of spaces and tabs in front of a
    text that neither starts nor ends with white space. *)
Lemma indent_trimSpace (indent x : str) :
  Forall (λ c, c = " "%char ∨ c = TAB) indent →
  spaceWidth x = 0 → spaceWidthRev (rev x) = 0 →
  trimSpace (indent ++ x) = x.
Proof.
  intros Hindent Hleft Hright.
  unfold trimSpace. rewrite indent_trimLeft; [|done|rewrite length_app; lia|done].
  assert (trimRevSpaceFuel (length x) (rev x) = rev x) as ->.
  { destruct (length x); cbn [trimRevSpaceFuel]; [done|]. by rewrite Hright. }
  apply rev_involutive.
Qed.

Section BareLine.
Variables T zero v indent : str.
Hypothesis HT : zeroValue T = Some zero.
Hypothesis Hv : v ≠ [] ∧ Forall (λ c, isWord c = true) v.
Hypothesis Hindent : Forall (λ c, c = " "%char ∨ c = TAB) indent.

Local Abbreviation decl := (T ++ lit " " ++ v ++ lit ";").

Lemma indent_spaces : Forall (λ c, isSpace c = true) indent.
Proof. eapply Forall_impl; [exact Hindent|]. by intros c [->| ->]. Qed.

Lemma decl_front_no_punct (c : ascii) :
  isWord c = false → c ≠ " "%char → c ≠ TAB → c ∉ indent ++ T ++ lit " " ++ v.
Proof.
  intros Hc Hsp Htab. destruct (typeToken_word T zero HT) as [_ HTw].
  destruct Hv as [_ Hvw].
  rewrite !not_elem_of_app. split_and!.
  - intros Hin. eapply Forall_forall in Hindent; [|done]. by destruct Hindent.
  - by apply word_no_punct.
  - change (lit " ") with [" "%char]. rewrite not_elem_of_cons.
    split; [done|apply not_elem_of_nil].
  - by apply word_no_punct.
Qed.

Lemma bareLine_no_chainVar :
  findStringSubmatch chainVarPattern (indent ++ decl) = None.
Proof.
  unfold findStringSubmatch.
  destruct (searchFrom chainVarPattern 0 None _) as [[[b e] caps]|] eqn:Hs; [|done].
  exfalso. apply searchFrom_sound in Hs as (p & m & t & Heq & Hm).
  apply (lang_rseq_elem "," [] [spaces1; Group 1 word1; spaces0; chr ";"]) in Hm.
  assert (","%char ∈ indent ++ decl) as Hin.
  { rewrite Heq, !elem_of_app. auto. }
  rewrite !app_assoc in Hin. apply elem_of_app in Hin as [Hin|Hin].
  - rewrite <- !app_assoc in Hin. by apply decl_front_no_punct in Hin.
  - apply list_elem_of_singleton in Hin. done.
Qed.

Lemma bareLine_no_standalone :
  findStringSubmatch standaloneVarPattern (indent ++ decl) = None.
Proof.
  unfold findStringSubmatch.
  assert (matchHere standaloneVarPattern None (indent ++ decl) = None) as Hhere.
  { destruct (matchHere _ _ _) as [[s' caps]|] eqn:Hm; [exfalso|done].
    apply matchHere_sound in Hm as (m & Heq & Hm).
    apply standaloneVarPattern_lang in Hm as (ws & w & ws' & -> & Hws & Hwne & Hw & Hws').
    destruct (typeToken_word T zero HT) as [HTne HTw]. destruct Hv as [Hvne Hvw].
    assert ((indent ++ T ++ lit " " ++ v) ++ ";"%char :: []
            = (ws ++ w ++ ws') ++ ";"%char :: s') as Heq'.
    { etrans; [|etrans; [exact Heq|]]; by rewrite <- ?app_assoc. }
    apply pivot_unique in Heq' as [Heq' _].
    2:{ by apply decl_front_no_punct. }
    2:{ rewrite !not_elem_of_app. split_and!.
        - intros Hin. eapply Forall_forall in Hws; [|done]. done.
        - by apply word_no_punct.
        - intros Hin. eapply Forall_forall in Hws'; [|done]. done. }
    apply (class_prefix_unique isSpace) in Heq' as [_ Heq'];
      [|apply indent_spaces|done| |].
    2:{ destruct T as [|c T']; [done|]. apply Forall_cons in HTw as [Hc _].
        by apply word_not_space. }
    2:{ destruct w as [|c w']; [done|]. apply Forall_cons in Hw as [Hc _].
        by apply word_not_space. }
    apply (class_prefix_unique isWord) in Heq' as [_ Heq']; [|done|done|done|].
    2:{ destruct ws' as [|c ws'']; [done|]. apply Forall_cons in Hws' as [Hc _].
        by apply space_not_word. }
    destruct v as [|c v']; [done|]. apply Forall_cons in Hvw as [Hc _].
    rewrite <- Heq' in Hws'. cbn [lit list_ascii_of_string app] in Hws'.
    apply Forall_cons in Hws' as [_ Hws']. apply Forall_cons in Hws' as [Hsp _].
    apply word_not_space in Hc. congruence. }
  destruct (indent ++ decl) as [|c s] eqn:E; cbn [searchFrom]; rewrite Hhere; [done|].
  unfold standaloneVarPattern, rseq. cbn [foldr]. by rewrite searchFrom_anchored.
Qed.

Lemma bareLine_trimSpace : trimSpace (indent ++ decl) = decl.
Proof.
  destruct (typeToken_word T zero HT) as [HTne HTw].
  apply indent_trimSpace; [done| |].
  - destruct T as [|c T']; [done|]. apply Forall_cons in HTw as [Hc _].
    by apply word_spaceWidth.
  - rewrite !app_assoc, rev_app_distr. reflexivity.
Qed.

Lemma bareDecl_tail (prev : option ascii) (caps : captures) :
  run (Cat spaces1 (Cat (Group 2 word1) (Cat spaces0 (Cat (chr ";") Eps)))) prev
    (" "%char :: v ++ lit ";") caps (λ _ s' caps', Some (s', caps'))
  = Some ([], (2, v) :: caps).
Proof.
  destruct Hv as [Hne Hvw]. destruct v as [|v0 v']; [done|].
  apply Forall_cons in Hvw as [Hv0 Hv'].
  unfold spaces1, spaces0, word1, plus, chr.
  rewrite !run_cat, run_class_cons. change (isSpace " "%char) with true. cbv iota.
  apply (star_class_greedy isSpace [] _ ((v0 :: v') ++ lit ";")); [done| |].
  { simpl. by apply word_not_space. }
  rewrite run_cat, run_group, run_cat. cbn [app]. rewrite run_class_cons, Hv0.
  apply (star_class_greedy isWord v' (Some v0) (lit ";")); [done..|].
  assert (take (length (v0 :: v' ++ lit ";") - length (lit ";")) (v0 :: v' ++ lit ";")
          = v0 :: v') as ->.
  { apply (take_prefix_length (v0 :: v') (lit ";")). }
  rewrite run_cat.
  apply (star_class_greedy isSpace [] _ (lit ";")); [done..|].
  rewrite run_cat. change (lit ";") with [";"%char].
  rewrite run_class_cons, byteEq_refl, run_eps. done.
Qed.

Lemma bareLine_bareDecl :
  findStringSubmatch bareDeclPattern decl = Some [(2, v); (1, T)].
Proof.
  unfold findStringSubmatch.
  erewrite searchFrom_hit; [done|].
  unfold matchHere, bareDeclPattern, rseq. cbn [foldr].
  rewrite run_cat, run_wordb.
  pose proof HT as HT'. apply zeroValue_cases in HT'.
  rewrite !elem_of_cons, elem_of_nil in HT'.
  clear HT.
  destruct HT' as [->|[->|[->|[->|[->|[->|[]]]]]]].
  all: change (atWordBoundary None _) with true; cbv iota.
  all: rewrite run_cat, run_group.
  all: unfold typeToken, alts, vecN, rseq; cbn [foldr].
  all: rewrite ?run_alt, ?run_cat, ?run_literal.
  all: cbn [lit list_ascii_of_string app].
  all: decide_prefixes; cbv iota; cbn [drop length].
  all: try (rewrite run_cat, run_class_cons; change (oneOf _ _) with true;
            cbv iota; rewrite run_eps).
  all: rewrite (bareDecl_tail _ _).
  all: f_equal; f_equal; f_equal; f_equal; f_equal.
  - apply (take_prefix_length (lit "vec2") (" "%char :: v ++ lit ";")).
  - apply (take_prefix_length (lit "vec3") (" "%char :: v ++ lit ";")).
  - apply (take_prefix_length (lit "vec4") (" "%char :: v ++ lit ";")).
  - apply (take_prefix_length (lit "float") (" "%char :: v ++ lit ";")).
  - apply (take_prefix_length (lit "int") (" "%char :: v ++ lit ";")).
  - apply (take_prefix_length (lit "bool") (" "%char :: v ++ lit ";")).
Qed.

Lemma bareLine_not_initialized : contains decl (v ++ lit " =") = false.
Proof.
  apply contains_false. intros p r Heq.
  assert ("="%char ∈ decl) as Hin.
  { rewrite Heq, !elem_of_app. right. left. right.
    change (lit " =") with [" "%char; "="%char]. rewrite !elem_of_cons. auto. }
  rewrite !app_assoc in Hin. apply elem_of_app in Hin as [Hin|Hin].
  - rewrite <- !app_assoc in Hin.
    apply (decl_front_no_punct "=" eq_refl); [done|done|].
    rewrite elem_of_app. by right.
  - apply list_elem_of_singleton in Hin. done.
Qed.

Lemma bareLine_replace :
  replace1 decl (v ++ lit ";") (v ++ lit " = " ++ zero ++ lit ";")
  = T ++ lit " " ++ v ++ lit " = " ++ zero ++ lit ";".
Proof.
  destruct (typeToken_word T zero HT) as [_ HTw]. destruct Hv as [_ Hvw].
  replace decl with ((T ++ lit " ") ++ v ++ [";"%char]) by by rewrite <- !app_assoc.
  change (lit ";") with [";"%char] at 1.
  rewrite replace1_unique_end.
  - by rewrite <- !app_assoc.
  - rewrite not_elem_of_app. split; [by apply word_no_punct|not_in_literal].
  - by apply word_no_punct.
Qed.

End BareLine.

(** A line that holds, behind spaces and tabs, only a declaration
    [T v;] with one of the six type tokens and no initializer, where the
    scope locator finds the entry function or no function line at all:
    when one of the nine usage texts
    of [v] occurs in the lines below, the first pass replaces the line by
    [T v = zero;], with the zero value of [T] and without the
    indentation, and records [v] with that value; otherwise it leaves the
    state alone.  No pattern is compiled on the way. *)
Theorem bare_declaration_initialized (regexpCompiles : str → bool)
    (T zero v indent code : str) (st : state)
    (i : nat) (funcStart : Z) (isMainImage : bool) :
  zeroValue T = Some zero →
  v ≠ [] ∧ Forall (λ c, isWord c = true) v →
  Forall (λ c, c = " "%char ∨ c = TAB) indent →
  lines st !! i = Some (indent ++ T ++ lit " " ++ v ++ lit ";") →
  findFunctionScope (lines st) i = Some (funcStart, isMainImage) →
  isMainImage = true ∨ (funcStart < 0)%Z →
  firstPassLine regexpCompiles code st i
  = Ok (if usedIn (join [NL] (drop (i + 1) (lines st))) v
        then {| lines := <[i := T ++ lit " " ++ v ++ lit " = " ++ zero ++ lit ";"]>
                           (lines st);
                uninitializedVars := <[v := zero]> (uninitializedVars st) |}
        else st).
Proof.
  intros HT Hv Hindent Hline Hscope Hwhere.
  unfold firstPassLine. rewrite Hline. cbn [indexed mbind result_bind].
  rewrite (bareLine_trimSpace T zero v indent HT Hindent).
  assert (streq (T ++ lit " " ++ v ++ lit ";") [] = false) as ->.
  { destruct (typeToken_word T zero HT) as [HTne _]. by destruct T. }
  rewrite (bareLine_no_chainVar T zero v indent HT Hv Hindent).
  rewrite (bareLine_no_standalone T zero v indent HT Hv Hindent).
  rewrite (bareLine_bareDecl T zero v HT Hv).
  unfold fixBareDecl. cbn [group Nat.eqb].
  rewrite (bareLine_not_initialized T zero v indent HT Hv Hindent).
  rewrite Hscope. cbn [indexed mbind result_bind].
  assert (negb isMainImage && (0 <=? funcStart)%Z = false) as ->.
  { destruct Hwhere as [->|Hneg]; [done|].
    apply andb_false_iff. right. apply Z.leb_gt. lia. }
  cbn [mbind result_bind].
  destruct (usedIn _ v); [|done].
  rewrite HT. cbn [from_option id].
  by rewrite (bareLine_replace T zero v HT Hv).
Qed.

Lemma bare_declaration_initialized_witness :
  firstPassLine sampleCompiles []
    {| lines := [TAB :: lit " float a;"; lit "a += 1.0;"]; uninitializedVars := ∅ |} 0
  = Ok {| lines := [lit "float a = 0.0;"; lit "a += 1.0;"];
          uninitializedVars := {[ lit "a" := lit "0.0" ]} |}.
Proof.
  apply (bare_declaration_initialized sampleCompiles (lit "float") (lit "0.0") (lit "a")
           [TAB; " "%char] []
           {| lines := [TAB :: lit " float a;"; lit "a += 1.0;"];
              uninitializedVars := ∅ |} 0 (-1) false).
  - reflexivity.
  - split; [done|]. repeat constructor.
  - repeat (apply Forall_cons; split; [(by left) || (by right)|]). constructor.
  - reflexivity.
  - vm_compute. reflexivity.
  - right. lia.
Defined.

End BareDeclFacts.

(** ** The stand-alone branch of the first pass *)

Module StandaloneFacts.
Import Regexp RegexpFacts Fixer ChainFacts.

Lemma indent_no_punct (indent v : str) (c : ascii) :
  Forall (λ c, c = " "%char ∨ c = TAB) indent →
  Forall (λ c, isWord c = true) v →
  isWord c = false → c ≠ " "%char → c ≠ TAB → c ∉ indent ++ v.
Proof.
  intros Hindent Hv Hc Hsp Htab. rewrite not_elem_of_app. split.
  - intros Hin. eapply Forall_forall in Hindent; [|done]. by destruct Hindent.
  - by apply word_no_punct.
Qed.

Lemma run_begin {A : Type} (s : str) (caps : captures)
    (k : option ascii → str → captures → option A) :
  run BeginText None s caps k = k None s caps.
Proof. reflexivity. Qed.

Lemma standalone_here (indent v : str) :
  Forall (λ c, c = " "%char ∨ c = TAB) indent →
  v ≠ [] → Forall (λ c, isWord c = true) v →
  matchHere standaloneVarPattern None (indent ++ v ++ lit ";") = Some ([], [(1, v)]).
Proof.
  intros Hindent Hne Hv. destruct v as [|v0 v']; [done|].
  apply Forall_cons in Hv as [Hv0 Hv'].
  unfold matchHere, standaloneVarPattern, rseq, spaces0, word1, plus, chr.
  cbn [foldr]. rewrite run_cat, run_begin, run_cat.
  apply (star_class_greedy isSpace indent None ((v0 :: v') ++ lit ";")).
  { eapply Forall_impl; [exact Hindent|]. by intros c [->| ->]. }
  { simpl. by apply word_not_space. }
  rewrite run_cat, run_group, run_cat. cbn [app]. rewrite run_class_cons, Hv0.
  apply (star_class_greedy isWord v' (Some v0) (lit ";")); [done..|].
  assert (take (length (v0 :: v' ++ lit ";") - length (lit ";")) (v0 :: v' ++ lit ";")
          = v0 :: v') as ->.
  { apply (take_prefix_length (v0 :: v') (lit ";")). }
  rewrite run_cat.
  apply (star_class_greedy isSpace [] _ (lit ";")); [done..|].
  rewrite run_cat. change (lit ";") with [";"%char].
  rewrite run_class_cons, byteEq_refl, run_eps. done.
Qed.

(** The indentation the passes copy is the run of spaces and tabs in
    front of the name. *)
Lemma indentOf_indent (indent v rest : str) :
  Forall (λ c, c = " "%char ∨ c = TAB) indent →
  v ≠ [] → Forall (λ c, isWord c = true) v →
  indentOf (indent ++ v ++ rest) = indent.
Proof.
  intros Hindent Hne Hv. induction Hindent as [|c ind Hc _ IH].
  - destruct v as [|c v']; [done|]. apply Forall_cons in Hv as [Hc _].
    cbn [app indentOf].
    assert (byteEq c " " || byteEq c TAB = false) as ->; [|done].
    revert Hc. destruct c as [[] [] [] [] [] [] [] []]; vm_compute; congruence.
  - cbn [app indentOf].
    assert (byteEq c " " || byteEq c TAB = true) as -> by (by destruct Hc as [->| ->]).
    cbn [app]. f_equal. apply IH.
Qed.

(** A line that holds, behind spaces and tabs, only a name and a
    semicolon, at an index that fits an [int]: when the name is no
    keyword, the compiler accepts the declaration pattern and the swizzle
    pattern of the name, the declaration pattern matches neither the text
    from the first [mainImage] line on nor the text in front of the first
    function line, and one of the nine usage texts occurs in the code, the
    first pass replaces the line by [name = zero;] behind the same
    indentation, where [zero] is the answer of the type inferencer, one of
    the six zero values, and records the name with that value. *)
Theorem standalone_name_initialized (regexpCompiles : str → bool)
    (v indent code : str) (st : state) (i : nat) :
  v ≠ [] ∧ Forall (λ c, isWord c = true) v →
  Forall (λ c, c = " "%char ∨ c = TAB) indent →
  isKeyword v = false →
  lines st !! i = Some (indent ++ v ++ lit ";") →
  (Z.of_nat i <= maxInt)%Z →
  regexpCompiles (declText v) = true →
  regexpCompiles (swizzleText v) = true →
  (∀ mainImageCode', mainImageCode (lines st) = Some mainImageCode' →
     matchString (declOf v) mainImageCode' = false) →
  (∀ firstFuncLine, findFirstFunctionLine (lines st) i = Some firstFuncLine →
     matchString (declOf v) (join [NL] (take firstFuncLine (lines st))) = false) →
  usedIn code v = true →
  ∃ zero,
    determineVariableType regexpCompiles v code (lines st) (Z.of_nat i) = Ok zero
    ∧ zero ∈ zeroValues
    ∧ firstPassLine regexpCompiles code st i
      = Ok {| lines := <[i := indent ++ v ++ lit " = " ++ zero ++ lit ";"]> (lines st);
              uninitializedVars := <[v := zero]> (uninitializedVars st) |}.
Proof.
  intros [Hne Hv] Hindent Hkey Hline Hint Hdecl Hswizzle Hmain Hglobal Hused.
  assert (i < length (lines st)) as Hi by (by eapply lookup_lt_Some).
  destruct (PipelineFacts.determineVariableType_runs regexpCompiles v code (lines st)
              (Z.of_nat i) Hswizzle)
    as (zero & Hzero & Hin); [lia|lia|].
  exists zero. split; [done|]. split; [done|].
  unfold firstPassLine. rewrite Hline. cbn [indexed mbind result_bind].
  assert (streq (trimSpace (indent ++ v ++ lit ";")) [] = false) as ->.
  { rewrite (BareDeclFacts.indent_trimSpace indent (v ++ lit ";")); [by destruct v|done| |].
    - destruct v as [|c v']; [done|]. apply Forall_cons in Hv as [Hc _].
      by apply word_spaceWidth.
    - rewrite rev_app_distr. reflexivity. }
  assert (findStringSubmatch chainVarPattern (indent ++ v ++ lit ";") = None) as ->.
  { unfold findStringSubmatch.
    destruct (searchFrom chainVarPattern 0 None _) as [[[b e] caps]|] eqn:Hs; [|done].
    exfalso. apply searchFrom_sound in Hs as (p & m & t & Heq & Hm).
    apply (lang_rseq_elem "," [] [spaces1; Group 1 word1; spaces0; chr ";"]) in Hm.
    assert (","%char ∈ indent ++ v ++ lit ";") as Hin'.
    { rewrite Heq, !elem_of_app. auto. }
    rewrite app_assoc in Hin'. apply elem_of_app in Hin' as [Hin'|Hin'].
    - by apply (indent_no_punct indent v ",") in Hin'.
    - apply list_elem_of_singleton in Hin'. done. }
  assert (findStringSubmatch standaloneVarPattern (indent ++ v ++ lit ";")
          = Some [(1, v)]) as ->.
  { unfold findStringSubmatch.
    by rewrite (searchFrom_hit _ _ _ _ _ _ (standalone_here indent v Hindent Hne Hv)). }
  unfold fixStandalone. cbn [group Nat.eqb]. rewrite Hkey.
  assert (contains (indent ++ v ++ lit ";") (v ++ lit " =") = false) as ->.
  { apply contains_false. intros p r Heq.
    assert ("="%char ∈ indent ++ v ++ lit ";") as Hin'.
    { rewrite Heq, !elem_of_app. right. left. right.
      change (lit " =") with [" "%char; "="%char]. rewrite !elem_of_cons. auto. }
    rewrite app_assoc in Hin'. apply elem_of_app in Hin' as [Hin'|Hin'].
    - by apply (indent_no_punct indent v "=") in Hin'.
    - apply list_elem_of_singleton in Hin'. done. }
  cbn [orb].
  destruct (ScopeFacts.findFunctionScope_in_range (lines st) i Hi) as [[funcStart isMain] ->].
  cbn [indexed mbind result_bind].
  rewrite (PipelineFacts.declaredInMainImage_false regexpCompiles (lines st) v Hdecl Hmain).
  assert ((if negb isMain && (0 <=? funcStart)%Z
           then Ok false else Ok false) = Ok (E:=panic) false) as ->
    by (by destruct (negb isMain && _)).
  cbn [mbind result_bind].
  destruct (findFirstFunctionLine (lines st) i) as [f|] eqn:Hf;
    [unfold mustCompile; rewrite Hdecl; cbn [mbind result_bind];
     rewrite (Hglobal f eq_refl)|];
    cbn [mbind result_bind].
  all: rewrite Hused, Hzero; cbn [mbind result_bind].
  all: by rewrite (indentOf_indent indent v (lit ";")).
Qed.

Lemma standalone_name_initialized_witness :
  ∃ zero,
    determineVariableType sampleCompiles (lit "w") (lit "  w;" ++ [NL] ++ lit "w.x = 1.0;")
      [lit "  w;"; lit "w.x = 1.0;"] 0 = Ok zero
    ∧ zero ∈ zeroValues
    ∧ firstPassLine sampleCompiles (lit "  w;" ++ [NL] ++ lit "w.x = 1.0;")
        {| lines := [lit "  w;"; lit "w.x = 1.0;"]; uninitializedVars := ∅ |} 0
      = Ok {| lines := <[0 := lit "  " ++ lit "w" ++ lit " = " ++ zero ++ lit ";"]>
                         [lit "  w;"; lit "w.x = 1.0;"];
              uninitializedVars := <[lit "w" := zero]> ∅ |}.
Proof.
  apply (standalone_name_initialized sampleCompiles (lit "w") (lit "  ")
           (lit "  w;" ++ [NL] ++ lit "w.x = 1.0;")
           {| lines := [lit "  w;"; lit "w.x = 1.0;"]; uninitializedVars := ∅ |} 0).
  - split; [done|]. repeat constructor.
  - repeat (apply Forall_cons; split; [(by left) || (by right)|]). constructor.
  - reflexivity.
  - reflexivity.
  - unfold maxInt. lia.
  - vm_compute. reflexivity.
  - vm_compute. reflexivity.
  - intros c Hc. vm_compute in Hc. discriminate Hc.
  - intros f Hf. vm_compute in Hf. discriminate Hf.
  - vm_compute. reflexivity.
Defined.

End StandaloneFacts.

(** ** The clean-up pass: assignments without declaration *)

Module CleanupFacts.
Import Regexp RegexpFacts Fixer ChainFacts.

Lemma assign_here (indent v e : str) :
  Forall (λ c, c = " "%char ∨ c = TAB) indent →
  v ≠ [] → Forall (λ c, isWord c = true) v →
  e ≠ [] → ";"%char ∉ e → from_option isSpace false (head e) = false →
  matchHere assignPattern None (indent ++ v ++ lit " = " ++ e ++ lit ";")
  = Some ([], [(2, e); (1, v)]).
Proof.
  intros Hindent Hne Hv Hene He Hhead. destruct v as [|v0 v']; [done|].
  apply Forall_cons in Hv as [Hv0 Hv'].
  destruct e as [|e0 e']; [done|].
  apply not_elem_of_cons in He as [He0 He'].
  unfold matchHere, assignPattern, rseq, spaces0, word1, notSemicolon1, plus, chr.
  cbn [foldr]. rewrite run_cat, StandaloneFacts.run_begin, run_cat.
  apply (star_class_greedy isSpace indent None
           ((v0 :: v') ++ lit " = " ++ (e0 :: e') ++ lit ";")).
  { eapply Forall_impl; [exact Hindent|]. by intros c [->| ->]. }
  { simpl. by apply word_not_space. }
  rewrite run_cat, run_group, run_cat. cbn [app]. rewrite run_class_cons, Hv0.
  apply (star_class_greedy isWord v' (Some v0) (lit " = " ++ (e0 :: e') ++ lit ";"));
    [done..|].
  match goal with
  | |- context [take ?n ?l] =>
      replace (take n l) with (v0 :: v')
        by (symmetry; apply (take_prefix_length (v0 :: v') _))
  end.
  rewrite run_cat.
  apply (star_class_greedy isSpace [" "%char] _ ("="%char :: " "%char :: (e0 :: e') ++ lit ";"));
    [repeat constructor|done|].
  rewrite run_cat, run_class_cons, byteEq_refl, run_cat.
  apply (star_class_greedy isSpace [" "%char] _ ((e0 :: e') ++ lit ";"));
    [repeat constructor|done|].
  rewrite run_cat, run_group, run_cat. cbn [app]. rewrite run_class_cons.
  assert (negb (byteEq e0 ";") = true) as ->.
  { apply negb_true_iff, byteEq_false. congruence. }
  apply (star_class_greedy (λ c, negb (byteEq c ";")) e' (Some e0) (lit ";")).
  { apply Forall_forall. intros c Hc. apply negb_true_iff, byteEq_false.
    intros ->. done. }
  { done. }
  match goal with
  | |- context [take ?n ?l] =>
      replace (take n l) with (e0 :: e')
        by (symmetry; apply (take_prefix_length (e0 :: e') _))
  end.
  rewrite run_cat. change (lit ";") with [";"%char].
  rewrite run_class_cons, byteEq_refl, run_eps. done.
Qed.

(** An assignment [v = e;] on a line of its own, behind spaces and
    tabs, to a name that no line above declares, where the scope locator
    finds a function line that does not mention [mainImage] (the line
    itself counts when it passes the function-line test).  The clean-up
    pass compiles the declaration pattern of the name and panics when the
    compiler refuses it.  Otherwise it empties the line when the pattern
    matches the text from the first [mainImage] line on, and else turns
    the line into a declaration, putting in front of the name the type it
    reads off the value ([vec2], [vec3] or [vec4] when the value contains
    that constructor, [float] otherwise). *)
Theorem cleanup_assignment_declared (regexpCompiles : str → bool)
    (v e indent : str) (ls : list str) (i : nat) (funcStart : Z) :
  v ≠ [] ∧ Forall (λ c, isWord c = true) v →
  isKeyword v = false →
  Forall (λ c, c = " "%char ∨ c = TAB) indent →
  e ≠ [] ∧ (";"%char ∉ e) ∧ from_option isSpace false (head e) = false →
  ls !! i = Some (indent ++ v ++ lit " = " ++ e ++ lit ";") →
  matchString (declOf v) (join [NL] (take i ls)) = false →
  findFunctionScope ls i = Some (funcStart, false) →
  (0 <= funcStart)%Z →
  cleanupLine regexpCompiles ls i
  = if regexpCompiles (declText v)
    then Ok (<[i := if from_option (matchString (declOf v)) false (mainImageCode ls)
                    then []
                    else indent ++ typeOfAssigned e ++ lit " " ++ v ++ lit " = " ++ e
                         ++ lit ";"]> ls)
    else Err BadPattern.
Proof.
  intros [Hne Hv] Hkey Hindent (Hene & He & Hhead) Hline Hdecl Hscope Hfs.
  unfold cleanupLine, mustCompile. rewrite Hline. cbn [indexed mbind result_bind].
  assert (streq (trimSpace (indent ++ v ++ lit " = " ++ e ++ lit ";")) [] = false) as ->.
  { rewrite (BareDeclFacts.indent_trimSpace indent); [by destruct v|done| |].
    - destruct v as [|c v']; [done|]. apply Forall_cons in Hv as [Hc _].
      by apply word_spaceWidth.
    - rewrite !app_assoc, rev_app_distr. reflexivity. }
  assert (findStringSubmatch assignPattern (indent ++ v ++ lit " = " ++ e ++ lit ";")
          = Some [(2, e); (1, v)]) as ->.
  { unfold findStringSubmatch.
    by rewrite (searchFrom_hit _ _ _ _ _ _
                  (assign_here indent v e Hindent Hne Hv Hene He Hhead)). }
  cbn [group Nat.eqb]. rewrite Hkey.
  destruct (regexpCompiles (declText v)); [|done]. cbn [mbind result_bind].
  rewrite Hdecl, Hscope. cbn [indexed mbind result_bind negb andb].
  assert ((0 <=? funcStart)%Z = true) as -> by (by apply Z.leb_le).
  rewrite (StandaloneFacts.indentOf_indent indent v (lit " = " ++ e ++ lit ";")) by done.
  by destruct (from_option (matchString (declOf v)) false (mainImageCode ls)).
Qed.

Lemma cleanup_assignment_declared_witness :
  cleanupLine sampleCompiles [lit "float f() {"; lit "  col = vec3(0.0);"] 1
  = Ok [lit "float f() {"; lit "  vec3 col = vec3(0.0);"].
Proof.
  apply (cleanup_assignment_declared sampleCompiles (lit "col") (lit "vec3(0.0)")
           (lit "  ") [lit "float f() {"; lit "  col = vec3(0.0);"] 1 1).
  - split; [done|]. repeat constructor.
  - reflexivity.
  - repeat (apply Forall_cons; split; [(by left) || (by right)|]). constructor.
  - split_and!; [done| |reflexivity]. not_in_literal.
  - reflexivity.
  - vm_compute. reflexivity.
  - vm_compute. reflexivity.
  - lia.
Defined.

End CleanupFacts.
